(** * gb_string.h: a header-prefixed dynamic byte string

    A shallow embedding of the C implementation of [gb_string.h] (v0.92)
    and the properties of its specification.

    The C code manipulates one heap block per string,

        +--------+-----------------------+-----------------+
        | Header | Binary C-style String | Null Terminator |
        +--------+-----------------------+-----------------+
                 |
                 +-> pointer returned by the functions

    so the embedding is a small C-like memory: a heap of byte blocks, pointers
    that are a block and an offset, an allocator that may fail, and a state
    and error monad in which the functions of the library are transcribed one
    statement at a time.  The target is an LP64 machine: [gb_usize] is a
    64-bit unsigned integer and the header is two of them. *)

From Stdlib Require Import ZArith Lia List Strings.Byte Strings.String.
From stdpp Require Import base option list gmap.

Open Scope Z_scope.

(** ** Machine integers *)

Definition usize_bits : Z := 64.
Definition usize_modulus : Z := 2 ^ usize_bits.

(** [gb_usize] arithmetic is unsigned and wraps around. *)
Definition wrap (x : Z) : Z := x mod usize_modulus.

(** [sizeof(gb_usize)] and [sizeof(struct gb_String_Header)]. *)
Definition word_size : Z := 8.
Definition header_size : Z := 2 * word_size.

Global Instance byte_eq_decision : EqDecision byte := Byte.byte_eq_dec.

Definition Z_of_byte (b : byte) : Z := Z.of_N (Byte.to_N b).
Definition byte_of_Z (x : Z) : byte :=
  default x00 (Byte.of_N (Z.to_N (x mod 256))).

(** Little-endian representation of an unsigned integer on [n] bytes. *)
Fixpoint encode (n : nat) (x : Z) : list byte :=
  match n with
  | O => []
  | S n' => byte_of_Z x :: encode n' (x / 256)
  end.

Fixpoint decode (bs : list byte) : Z :=
  match bs with
  | [] => 0
  | b :: bs' => Z_of_byte b + 256 * decode bs'
  end.

(** ** Memory *)

(** A memory cell holds a byte or is indeterminate ([None]), as the bytes of
    a block fresh from [malloc] are. *)
Abbreviation cell := (option byte) (only parsing).
Abbreviation block := (list (option byte)) (only parsing).

(** A pointer is a block and a byte offset in it; the null pointer is the
    [None] of [option pointer]. *)
Record pointer : Type := Ptr { p_blk : positive; p_off : Z }.

Definition ptr_add (p : pointer) (n : Z) : pointer := Ptr (p_blk p) (p_off p + n).
Infix "+ₚ" := ptr_add (at level 50, left associativity).

Global Instance ptr_eq_decision : EqDecision pointer.
Proof. solve_decision. Defined.

(** The state of the program: the live blocks, and the outcomes of the
    allocation requests still to come ([false]: the request fails; when the
    script is exhausted every request succeeds). *)
Record state : Type := State {
  heap : gmap positive (list (option byte));
  alloc_script : list bool
}.

(** Computations read and write the state; [None] is undefined behaviour
    (an access out of bounds, a read of an indeterminate byte, a free of
    something that is not a live block). *)
Definition M (A : Type) : Type := state -> option (A * state).

Definition ret {A} (a : A) : M A := fun σ => Some (a, σ).
Definition fail {A} : M A := fun _ => None.
Definition bind {A B} (m : M A) (k : A -> M B) : M B :=
  fun σ => match m σ with
           | Some (a, σ') => k a σ'
           | None => None
           end.

Notation "'do' x <- m ; k" := (bind m (fun x => k))
  (at level 10, x name, m at level 100, k at level 200,
   format "'[v' 'do'  x  <-  m ; '/' k ']'").
Notation "m ;; k" := (bind m (fun _ => k))
  (at level 100, k at level 200, right associativity).

(** Reading [n] cells at offset [off] of a block, and overwriting the cells
    from offset [off] on with [cs]; both are refused out of bounds. *)
Definition blk_read (b : block) (off n : Z) : option (list cell) :=
  if bool_decide (0 <= off /\ 0 <= n /\ off + n <= Z.of_nat (length b))
  then Some (take (Z.to_nat n) (drop (Z.to_nat off) b))
  else None.

Definition blk_write (b : block) (off : Z) (cs : list cell) : option block :=
  if bool_decide (0 <= off /\ off + Z.of_nat (length cs) <= Z.of_nat (length b))
  then Some (take (Z.to_nat off) b ++ cs
               ++ drop (Z.to_nat off + length cs) b)
  else None.

Definition load_cells (p : pointer) (n : Z) : M (list cell) := fun σ =>
  match heap σ !! p_blk p with
  | Some b => match blk_read b (p_off p) n with
              | Some cs => Some (cs, σ)
              | None => None
              end
  | None => None
  end.

Definition store_cells (p : pointer) (cs : list cell) : M unit := fun σ =>
  match heap σ !! p_blk p with
  | Some b => match blk_write b (p_off p) cs with
              | Some b' =>
                  Some (tt, State (<[p_blk p := b']> (heap σ)) (alloc_script σ))
              | None => None
              end
  | None => None
  end.

(** All the cells must hold a byte for a read as a value to be defined. *)
Fixpoint bytes_of_cells (cs : list cell) : option (list byte) :=
  match cs with
  | [] => Some []
  | Some b :: cs' => match bytes_of_cells cs' with
                     | Some bs => Some (b :: bs)
                     | None => None
                     end
  | None :: _ => None
  end.

Definition cells_of_bytes (bs : list byte) : list cell := map Some bs.

Definition load_bytes (p : pointer) (n : Z) : M (list byte) :=
  do cs <- load_cells p n;
  match bytes_of_cells cs with
  | Some bs => ret bs
  | None => fail
  end.

(** [*p] and [*p = c] for a [char*]. *)
Definition load_char (p : pointer) : M byte :=
  do bs <- load_bytes p 1;
  match bs with
  | [b] => ret b
  | _ => fail
  end.

Definition store_char (p : pointer) (c : byte) : M unit := store_cells p [Some c].

(** Reading and writing a [gb_usize] field. *)
Definition load_usize (p : pointer) : M Z :=
  do bs <- load_bytes p word_size;
  ret (decode bs).

Definition store_usize (p : pointer) (v : Z) : M unit :=
  store_cells p (cells_of_bytes (encode (Z.to_nat word_size) v)).

(** [malloc]: the next entry of the script decides; a block that no live
    block uses is returned, its contents indeterminate. *)
Definition malloc (sz : Z) : M (option pointer) := fun σ =>
  match alloc_script σ with
  | false :: rest => Some (None, State (heap σ) rest)
  | script =>
      let b := fresh (dom (heap σ)) in
      Some (Some (Ptr b 0),
            State (<[b := replicate (Z.to_nat sz) None]> (heap σ))
                  (tail script))
  end.

(** [free]: the pointer must be the start of a live block. *)
Definition free (p : pointer) : M unit := fun σ =>
  match heap σ !! p_blk p with
  | Some _ =>
      if bool_decide (p_off p = 0)
      then Some (tt, State (delete (p_blk p) (heap σ)) (alloc_script σ))
      else None
  | None => None
  end.

(** [memcpy] and [memmove] between two places of the heap: the source cells
    are read, then written (indeterminate bytes are copied as they are).
    The library only calls [memcpy] on distinct blocks. *)
Definition memcpy (dst src : pointer) (n : Z) : M unit :=
  do cs <- load_cells src n;
  store_cells dst cs.

Definition memmove (dst src : pointer) (n : Z) : M unit :=
  do cs <- load_cells src n;
  store_cells dst cs.

(** [memcpy] from the caller's read-only bytes ([const void*]), given as the
    list of the bytes found at that address: reading past them is undefined. *)
Definition memcpy_from (dst : pointer) (src : list byte) (n : Z) : M unit :=
  if bool_decide (0 <= n <= Z.of_nat (length src))
  then store_cells dst (cells_of_bytes (take (Z.to_nat n) src))
  else fail.

(** [memset(p, c, n)]; a null [p] is undefined. *)
Definition memset (p : option pointer) (c : byte) (n : Z) : M unit :=
  match p with
  | Some p => store_cells p (replicate (Z.to_nat n) (Some c))
  | None => fail
  end.

(** ** C strings

    A [const char*] argument is the list of the bytes at that address; the
    string ends at the first zero byte, or at the end of the list, where its
    terminator is. *)

Fixpoint strlen (s : list byte) : Z :=
  match s with
  | [] => 0
  | c :: s' => if decide (c = x00) then 0 else 1 + strlen s'
  end.

(** [strchr(s, c)]: the offset of the first [c] in [s], the terminator
    included; [None] is the null pointer. *)
Fixpoint strchr (s : list byte) (c : byte) : option Z :=
  match s with
  | [] => if decide (c = x00) then Some 0 else None
  | x :: s' =>
      if decide (x = c) then Some 0
      else if decide (x = x00) then None
      else Z.succ <$> strchr s' c
  end.

(** ** The library *)

Definition GB_ALLOC (sz : Z) : M (option pointer) := malloc sz.
Definition GB_FREE (p : pointer) : M unit := free p.

(** [GB_STRING_HEADER(s)] and the addresses of its two fields. *)
Definition GB_STRING_HEADER (s : pointer) : pointer := s +ₚ (- header_size).
Definition field_len (h : pointer) : pointer := h.
Definition field_cap (h : pointer) : pointer := h +ₚ word_size.

Definition gb_set_string_length (str : pointer) (len : Z) : M unit :=
  store_usize (field_len (GB_STRING_HEADER str)) len.

Definition gb_set_string_capacity (str : pointer) (cap : Z) : M unit :=
  store_usize (field_cap (GB_STRING_HEADER str)) cap.

Definition gb_make_string_length (init_str : option (list byte)) (len : Z)
  : M (option pointer) :=
  let sz := wrap (header_size + len + 1) in
  do ptr <- GB_ALLOC sz;
  (match init_str with
   | None => memset ptr x00 sz
   | Some _ => ret tt
   end);;
  match ptr with
  | None => ret None
  | Some ptr =>
      let str := ptr +ₚ header_size in
      let header := GB_STRING_HEADER str in
      store_usize (field_len header) len;;
      store_usize (field_cap header) len;;
      (match init_str with
       | Some init => if bool_decide (len <> 0)
                      then memcpy_from str init len
                      else ret tt
       | None => ret tt
       end);;
      store_char (str +ₚ len) x00;;
      ret (Some str)
  end.

Definition gb_make_string (str : option (list byte)) : M (option pointer) :=
  let len := match str with Some s => strlen s | None => 0 end in
  gb_make_string_length str len.

Definition gb_free_string (str : option pointer) : M unit :=
  match str with
  | None => ret tt
  | Some str => GB_FREE (str +ₚ (- header_size))
  end.

Definition gb_string_length (str : pointer) : M Z :=
  load_usize (field_len (GB_STRING_HEADER str)).

Definition gb_string_capacity (str : pointer) : M Z :=
  load_usize (field_cap (GB_STRING_HEADER str)).

Definition gb_string_available_space (str : pointer) : M Z :=
  let h := GB_STRING_HEADER str in
  do cap <- load_usize (field_cap h);
  do len <- load_usize (field_len h);
  if bool_decide (cap > len) then ret (wrap (cap - len)) else ret 0.

Definition gb_clear_string (str : pointer) : M unit :=
  gb_set_string_length str 0;;
  store_char str x00.

(** The reallocation helper: allocate, copy, free.  A request that does not
    grow the block returns the block itself. *)
Definition gb__string_realloc (ptr : option pointer) (old_size new_size : Z)
  : M (option pointer) :=
  match ptr with
  | None => GB_ALLOC new_size
  | Some ptr =>
      let new_size :=
        if bool_decide (new_size < old_size) then old_size else new_size in
      if bool_decide (old_size = new_size) then ret (Some ptr)
      else
        do new_ptr <- GB_ALLOC new_size;
        match new_ptr with
        | None => ret None
        | Some new_ptr =>
            memcpy new_ptr ptr old_size;;
            GB_FREE ptr;;
            ret (Some new_ptr)
        end
  end.

Definition gb_string_make_space_for (str : pointer) (add_len : Z)
  : M (option pointer) :=
  do len <- gb_string_length str;
  let new_len := wrap (len + add_len) in
  do available <- gb_string_available_space str;
  if bool_decide (available >= add_len) then ret (Some str)
  else
    let ptr := str +ₚ (- header_size) in
    do len' <- gb_string_length str;
    let old_size := wrap (header_size + len' + 1) in
    let new_size := wrap (header_size + new_len + 1) in
    do new_ptr <- gb__string_realloc (Some ptr) old_size new_size;
    match new_ptr with
    | None => ret None
    | Some new_ptr =>
        let str := new_ptr +ₚ header_size in
        gb_set_string_capacity str new_len;;
        ret (Some str)
    end.

Definition gb_append_string_length (str : pointer) (other : list byte)
    (other_len : Z) : M (option pointer) :=
  do curr_len <- gb_string_length str;
  do str <- gb_string_make_space_for str other_len;
  match str with
  | None => ret None
  | Some str =>
      memcpy_from (str +ₚ curr_len) other other_len;;
      store_char (str +ₚ wrap (curr_len + other_len)) x00;;
      gb_set_string_length str (wrap (curr_len + other_len));;
      ret (Some str)
  end.

Definition gb_append_cstring (str : pointer) (other : list byte)
  : M (option pointer) :=
  gb_append_string_length str other (strlen other).

Definition gb_set_string (str : pointer) (cstr : list byte) : M (option pointer) :=
  let len := strlen cstr in
  do cap <- gb_string_capacity str;
  do str <- (if bool_decide (cap < len)
             then do cur <- gb_string_length str;
                  gb_string_make_space_for str (wrap (len - cur))
             else ret (Some str));
  match str with
  | None => ret None
  | Some str =>
      memcpy_from str cstr len;;
      store_char (str +ₚ len) x00;;
      gb_set_string_length str len;;
      ret (Some str)
  end.

Definition gb_string_allocation_size (s : pointer) : M Z :=
  do cap <- gb_string_capacity s;
  ret (wrap (header_size + cap)).

(** The two loops of [gb_trim_string].  Each iteration moves its cursor one
    byte towards the other end, so a loop over a string of [n] bytes is run
    with [S n] units of fuel, which it cannot exhaust. *)
Fixpoint trim_start_loop (fuel : nat) (cut_set : list byte)
    (start_pos end_ : pointer) : M pointer :=
  match fuel with
  | O => fail
  | S fuel' =>
      if bool_decide (p_off start_pos <= p_off end_)
      then do c <- load_char start_pos;
           match strchr cut_set c with
           | Some _ => trim_start_loop fuel' cut_set (start_pos +ₚ 1) end_
           | None => ret start_pos
           end
      else ret start_pos
  end.

Fixpoint trim_end_loop (fuel : nat) (cut_set : list byte)
    (start_pos end_pos : pointer) : M pointer :=
  match fuel with
  | O => fail
  | S fuel' =>
      if bool_decide (p_off end_pos > p_off start_pos)
      then do c <- load_char end_pos;
           match strchr cut_set c with
           | Some _ => trim_end_loop fuel' cut_set start_pos (end_pos +ₚ (-1))
           | None => ret end_pos
           end
      else ret end_pos
  end.

Definition gb_trim_string (str : pointer) (cut_set : list byte) : M pointer :=
  do n <- gb_string_length str;
  let fuel := S (Z.to_nat n) in
  let start := str in
  let end_ := str +ₚ n +ₚ (-1) in
  do start_pos <- trim_start_loop fuel cut_set start end_;
  do end_pos <- trim_end_loop fuel cut_set start_pos end_;
  let len := if bool_decide (p_off start_pos > p_off end_pos) then 0
             else wrap (p_off end_pos - p_off start_pos + 1) in
  (if bool_decide (str <> start_pos) then memmove str start_pos len
   else ret tt);;
  store_char (str +ₚ len) x00;;
  gb_set_string_length str len;;
  ret str.

(** ** The specification's view of a buffer and of [trim] *)

(** The bytes of a block that holds a string: the two header words, then
    the payload region. *)
Definition raw_block (len cap : Z) (data : list cell) : block :=
  cells_of_bytes (encode (Z.to_nat word_size) len)
    ++ cells_of_bytes (encode (Z.to_nat word_size) cap) ++ data.

(** The payload region of a buffer in good order: the payload, the
    terminator, and as many further cells (stale or indeterminate) as the
    capacity leaves. *)
Definition region (payload : list byte) (slack : list cell) : list cell :=
  cells_of_bytes payload ++ Some x00 :: slack.

(** [is_buffer σ s len cap payload slack]: in state [σ] the handle [s] is a
    live buffer of the data model: it points just past the header of a
    block of [header_size + cap + 1] bytes, whose header records [len] and
    [cap], with [len] payload bytes and the terminator after them. *)
Record is_buffer (σ : state) (s : pointer) (len cap : Z)
    (payload : list byte) (slack : list cell) : Prop := IsBuffer {
  buf_off : p_off s = header_size;
  buf_blk : heap σ !! p_blk s = Some (raw_block len cap (region payload slack));
  buf_len : Z.of_nat (length payload) = len;
  buf_cap : len + Z.of_nat (length slack) = cap;
  buf_fits : header_size + cap + 1 < usize_modulus
}.

(** The state in which the block of [s] has been overwritten. *)
Definition set_buf (σ : state) (s : pointer) (len cap : Z) (data : list cell)
  : state :=
  State (<[p_blk s := raw_block len cap data]> (heap σ)) (alloc_script σ).

(** The state in which the block of [s] has been freed and block [id],
    obtained from the allocator, holds a string. *)
Definition moved_buf (σ : state) (s : pointer) (id : positive) (len cap : Z)
    (data : list cell) : state :=
  State (<[id := raw_block len cap data]> (delete (p_blk s) (heap σ)))
        (tail (alloc_script σ)).

(** Whether the next allocation request is refused. *)
Definition next_alloc_fails (σ : state) : bool :=
  match alloc_script σ with
  | false :: _ => true
  | _ => false
  end.

(** The block the next successful allocation returns. *)
Definition next_block (σ : state) : positive := fresh (dom (heap σ)).

(** The state in which block [id], obtained from the allocator, holds a
    string (nothing is freed). *)
Definition fresh_buf (σ : state) (id : positive) (len cap : Z)
    (data : list cell) : state :=
  State (<[id := raw_block len cap data]> (heap σ)) (tail (alloc_script σ)).

(** The payload a construction from [init_str] and [len] starts with. *)
Definition initial_payload (init_str : option (list byte)) (len : Z)
  : list byte :=
  match init_str with
  | Some init => take (Z.to_nat len) init
  | None => replicate (Z.to_nat len) x00
  end.

(** The bytes of a C string, without its terminator. *)
Definition cstr_bytes (cstr : list byte) : list byte :=
  take (Z.to_nat (strlen cstr)) cstr.

(** Membership in the cut set, as [gb_trim_string] tests it. *)
Definition in_cut_set (cut_set : list byte) (c : byte) : bool :=
  match strchr cut_set c with
  | Some _ => true
  | None => false
  end.

Fixpoint drop_leading (f : byte -> bool) (l : list byte) : list byte :=
  match l with
  | [] => []
  | c :: l' => if f c then drop_leading f l' else l
  end.

(** The length of the maximal leading run of bytes that satisfy [f]. *)
Fixpoint leading_run (f : byte -> bool) (l : list byte) : nat :=
  match l with
  | [] => 0
  | c :: l' => if f c then S (leading_run f l') else 0
  end.

(** The specification of [trim]: the payload without its maximal leading
    run and its maximal trailing run of cut-set bytes. *)
Definition trim_spec (cut_set : list byte) (payload : list byte)
  : list byte :=
  rev (drop_leading (in_cut_set cut_set)
         (rev (drop_leading (in_cut_set cut_set) payload))).

Definition state0 : state := State ∅ [].
Definition hello : list byte := list_byte_of_string "Hello".

Definition final_state {A} (r : option (A * state)) : state :=
  match r with
  | Some (_, σ) => σ
  | None => state0
  end.

Definition hello_state : state :=
  Eval vm_compute in final_state (gb_make_string (Some hello) state0).

(** ** The public surface as data

    The operations that take a buffer and give one back, so that properties
    of "every operation" can be stated once. *)
Inductive op : Type :=
| OpClear
| OpAppend (other : list byte) (other_len : Z)
| OpAssign (cstr : list byte)
| OpReserve (add_len : Z)
| OpTrim (cut_set : list byte).

Definition run_op (o : op) (str : pointer) : M (option pointer) :=
  match o with
  | OpClear => gb_clear_string str;; ret (Some str)
  | OpAppend other other_len => gb_append_string_length str other other_len
  | OpAssign cstr => gb_set_string str cstr
  | OpReserve add_len => gb_string_make_space_for str add_len
  | OpTrim cut_set => do s <- gb_trim_string str cut_set; ret (Some s)
  end.

(** The arguments of an operation on a buffer of length [len] are in range:
    counts are [gb_usize] values, and the size of the block the operation
    may ask of the allocator, [header_size + new length + 1], does not wrap
    around. *)
Definition op_in_range (len : Z) (o : op) : Prop :=
  match o with
  | OpAppend _ n | OpReserve n =>
      0 <= n /\ header_size + len + n + 1 < usize_modulus
  | OpAssign cstr => header_size + strlen cstr + 1 < usize_modulus
  | OpClear | OpTrim _ => True
  end.

(** The source of the operation holds the bytes the call reads from it. *)
Definition op_readable (o : op) : Prop :=
  match o with
  | OpAppend other n => n <= Z.of_nat (length other)
  | OpAssign _ | OpReserve _ | OpClear | OpTrim _ => True
  end.

(** The operation needs more room than the buffer has. *)
Definition grows (len cap : Z) (o : op) : bool :=
  match o with
  | OpAppend _ n | OpReserve n => bool_decide (cap - len < n)
  | OpAssign cstr => bool_decide (cap < strlen cstr)
  | OpClear | OpTrim _ => false
  end.

(** What the accessors of the library and a reader of the C string see of
    the buffer [s]. *)
Definition reads_as (σ : state) (s : pointer) (len cap : Z)
    (payload : list byte) : Prop :=
  gb_string_length s σ = Some (len, σ)
  /\ gb_string_capacity s σ = Some (cap, σ)
  /\ load_bytes s len σ = Some (payload, σ)
  /\ load_char (s +ₚ len) σ = Some (x00, σ).

(** ** Concrete buffers *)

Definition trim_input : list byte :=
  list_byte_of_string "Ab.;!...AHello World       ??".
Definition trim_cut_set : list byte := list_byte_of_string "Ab.;!. ?".
Definition hello_world : list byte := list_byte_of_string "Hello World".

(** The handle of the first string made in [state0]. *)
Definition str1 : pointer := Ptr 1 header_size.

Definition trim_state : state :=
  Eval vm_compute in final_state (gb_make_string (Some trim_input) state0).

Definition trimmed_state : state :=
  Eval vm_compute in final_state (gb_trim_string str1 trim_cut_set trim_state).

(** ["Hello"] after a reservation of [SIZE_MAX] more bytes. *)
Definition wrapped_state : state :=
  Eval vm_compute in
    final_state (gb_string_make_space_for str1 (usize_modulus - 1) hello_state).

(** ["Hello"], cleared: length 0 in a block of capacity 5. *)
Definition cleared_state : state :=
  Eval vm_compute in final_state (gb_clear_string str1 hello_state).

(** What is left after the terminator of the cleared ["Hello"]: the stale
    bytes ["ello"] and the old terminator. *)
Definition cleared_slack : list cell :=
  cells_of_bytes (list_byte_of_string "ello") ++ [Some x00].

(** ["Hello"] after a reservation of [SIZE_MAX - 4] more bytes. *)
Definition shrunk_state : state :=
  Eval vm_compute in
    final_state (gb_string_make_space_for str1 (usize_modulus - 5) hello_state).

(** ["Hello"] after a reservation of [SIZE_MAX - 1] more bytes. *)
Definition overdrawn_state : state :=
  Eval vm_compute in
    final_state (gb_string_make_space_for str1 (usize_modulus - 2) hello_state).

(** The handle of the second block obtained from [state0]. *)
Definition str2 : pointer := Ptr 2 header_size.

Definition comma : list byte := list_byte_of_string ", ".

(** ["Hello"] after the append of [", "]: the buffer has moved to a
    second block. *)
Definition appended_state : state :=
  Eval vm_compute in
    final_state (gb_append_string_length str1 comma 2 hello_state).

(** A buffer whose payload starts and ends with a zero byte. *)
Definition zeros_input : list byte := [x00; x61; x00].

Definition zeros_state : state :=
  Eval vm_compute in
    final_state (gb_make_string_length (Some zeros_input) 3 state0).

Definition potato_soup : list byte := list_byte_of_string "Potato soup".

Definition zeros_trimmed_state : state :=
  Eval vm_compute in final_state (gb_trim_string str1 [] zeros_state).

(** What assign does once the capacity suffices: copy, terminate, record
    the length. *)
Definition write_cstring (cstr : list byte) (str : pointer)
  : M (option pointer) :=
  memcpy_from str cstr (strlen cstr);;
  store_char (str +ₚ strlen cstr) x00;;
  gb_set_string_length str (strlen cstr);;
  ret (Some str).

Definition world : list byte := list_byte_of_string "world!".
Definition hello_comma_world : list byte :=
  list_byte_of_string "Hello, world!".

(** The session of the header's example: make ["Hello"], append [", "] and
    then ["world!"]. *)
Definition greeting : M (option pointer) :=
  do str <- gb_make_string (Some hello);
  match str with
  | None => ret None
  | Some str =>
      do str <- gb_append_string_length str comma 2;
      match str with
      | None => ret None
      | Some str => gb_append_cstring str world
      end
  end.

Definition greeting_state : state :=
  Eval vm_compute in final_state (greeting state0).

(** A state in which the next allocation request is refused. *)
Definition starved (σ : state) : state := State (heap σ) [false].

(** ** The rest of the library

    The functions whose source is itself a string of the library read it
    from the heap: [memcpy] is then a copy between two places of the heap,
    and [strlen] a scan of the block. *)

Definition GB_TRUE : Z := 1.
Definition GB_FALSE : Z := 0.

(** The loop of [gb_strings_are_equal]; over strings of [n] bytes it is run
    with [S n] units of fuel, which it cannot exhaust. *)
Fixpoint strings_are_equal_loop (fuel : nat) (lhs rhs : pointer)
    (i lhs_len : Z) : M Z :=
  match fuel with
  | O => fail
  | S fuel' =>
      if bool_decide (i < lhs_len)
      then do a <- load_char (lhs +ₚ i);
           do b <- load_char (rhs +ₚ i);
           if bool_decide (a <> b) then ret GB_FALSE
           else strings_are_equal_loop fuel' lhs rhs (wrap (i + 1)) lhs_len
      else ret GB_TRUE
  end.

Definition gb_strings_are_equal (lhs rhs : pointer) : M Z :=
  do lhs_len <- gb_string_length lhs;
  do rhs_len <- gb_string_length rhs;
  if bool_decide (lhs_len <> rhs_len) then ret GB_FALSE
  else strings_are_equal_loop (S (Z.to_nat lhs_len)) lhs rhs 0 lhs_len.

(** [gb_make_string_length] when [init_str] points into the heap. *)
Definition gb_make_string_length_at (init_str : option pointer) (len : Z)
  : M (option pointer) :=
  let sz := wrap (header_size + len + 1) in
  do ptr <- GB_ALLOC sz;
  (match init_str with
   | None => memset ptr x00 sz
   | Some _ => ret tt
   end);;
  match ptr with
  | None => ret None
  | Some ptr =>
      let str := ptr +ₚ header_size in
      let header := GB_STRING_HEADER str in
      store_usize (field_len header) len;;
      store_usize (field_cap header) len;;
      (match init_str with
       | Some init => if bool_decide (len <> 0)
                      then memcpy str init len
                      else ret tt
       | None => ret tt
       end);;
      store_char (str +ₚ len) x00;;
      ret (Some str)
  end.

Definition gb_duplicate_string (str : pointer) : M (option pointer) :=
  do len <- gb_string_length str;
  gb_make_string_length_at (Some str) len.

(** [gb_append_string_length] when [other] points into the heap. *)
Definition gb_append_string_length_at (str other : pointer) (other_len : Z)
  : M (option pointer) :=
  do curr_len <- gb_string_length str;
  do str <- gb_string_make_space_for str other_len;
  match str with
  | None => ret None
  | Some str =>
      memcpy (str +ₚ curr_len) other other_len;;
      store_char (str +ₚ wrap (curr_len + other_len)) x00;;
      gb_set_string_length str (wrap (curr_len + other_len));;
      ret (Some str)
  end.

Definition gb_append_string (str other : pointer) : M (option pointer) :=
  do other_len <- gb_string_length other;
  gb_append_string_length_at str other other_len.

(** [strlen] of a string in the heap: the scan stops at the first zero
    byte; running into an indeterminate byte or off the end of the block is
    undefined. *)
Fixpoint strlen_cells (cs : list cell) : option Z :=
  match cs with
  | [] => None
  | None :: _ => None
  | Some c :: cs' =>
      if decide (c = x00) then Some 0 else Z.succ <$> strlen_cells cs'
  end.

Definition strlen_at (p : pointer) : M Z := fun σ =>
  match heap σ !! p_blk p with
  | Some b =>
      if bool_decide (0 <= p_off p)
      then match strlen_cells (drop (Z.to_nat (p_off p)) b) with
           | Some n => Some (n, σ)
           | None => None
           end
      else None
  | None => None
  end.

(** [gb_make_string] when [str] points into the heap. *)
Definition gb_make_string_at (str : option pointer) : M (option pointer) :=
  do len <- match str with
            | Some p => strlen_at p
            | None => ret 0
            end;
  gb_make_string_length_at str len.

(** The C++ namespace.  A [String&] parameter is the value passed in and
    the value left in the reference. *)
Module gb.

Definition free_string (str : option pointer) : M (option pointer) :=
  gb_make_string_at str;;
  ret None.

End gb.

(** ["Hello"] after a reservation of 8 more bytes. *)
Definition reserved_state : state :=
  Eval vm_compute in
    final_state (gb_string_make_space_for str1 8 hello_state).

(** Two buffers side by side: ["Hello"] at [str1], ["world!"] at [str2]. *)
Definition two_strings_state : state :=
  Eval vm_compute in final_state (gb_make_string (Some world) hello_state).

(** The handle of the third block obtained from [state0]. *)
Definition str3 : pointer := Ptr 3 header_size.

(** The second buffer appended to the first, which moves to a third
    block. *)
Definition joined_state : state :=
  Eval vm_compute in final_state (gb_append_string str1 str2 two_strings_state).

(** ["Hello"] and its duplicate. *)
Definition duplicated_state : state :=
  Eval vm_compute in final_state (gb_duplicate_string str1 hello_state).

(** ** The cut set as a list of bytes

    Trim in the words of its description, to be compared with what
    [gb_trim_string] does. *)

(** The byte is one of those the cut set lists before its terminator. *)
Definition listed_in (cut_set : list byte) (c : byte) : bool :=
  bool_decide (c ∈ cstr_bytes cut_set).

(** The payload without its maximal leading run and its maximal trailing
    run of bytes that satisfy [f]. *)
Definition trim_by (f : byte -> bool) (payload : list byte) : list byte :=
  rev (drop_leading f (rev (drop_leading f payload))).

(** Trim of the bytes the cut set lists. *)
Definition trim_listed (cut_set payload : list byte) : list byte :=
  trim_by (listed_in cut_set) payload.

(** The byte is listed in the cut set, or is the zero byte. *)
Definition listed_or_zero (cut_set : list byte) (c : byte) : bool :=
  listed_in cut_set c || bool_decide (c = x00).

(** The heap after a request for [header_size] bytes in [state0]. *)
Definition header_only_state : state :=
  Eval vm_compute in final_state (GB_ALLOC header_size state0).

(** * Properties *)

(** ** Integers and their representation *)

Lemma usize_modulus_eq : usize_modulus = 18446744073709551616.
Proof. reflexivity. Qed.

Lemma wrap_small (x : Z) : 0 <= x < usize_modulus -> wrap x = x.
Proof. intros H. unfold wrap. apply Z.mod_small. exact H. Qed.

Lemma wrap_range (x : Z) : 0 <= wrap x < usize_modulus.
Proof. unfold wrap. apply Z.mod_pos_bound. rewrite usize_modulus_eq. lia. Qed.

Lemma Z_of_byte_of_Z (x : Z) : Z_of_byte (byte_of_Z x) = x mod 256.
Proof.
  unfold Z_of_byte, byte_of_Z.
  pose proof (Z.mod_pos_bound x 256 ltac:(lia)) as Hr.
  destruct (Byte.of_N (Z.to_N (x mod 256))) as [y|] eqn:E; simpl.
  - apply Byte.to_of_N in E. rewrite E. lia.
  - apply Byte.of_N_None_iff in E. lia.
Qed.

Lemma length_encode (n : nat) (x : Z) : length (encode n x) = n.
Proof. revert x. induction n as [|n IH]; intros x; simpl; [|rewrite IH]; reflexivity. Qed.

Lemma decode_encode (n : nat) (x : Z) :
  0 <= x < 256 ^ Z.of_nat n -> decode (encode n x) = x.
Proof.
  revert x. induction n as [|n IH]; intros x Hx.
  - simpl in *. lia.
  - cbn [encode decode]. rewrite Z_of_byte_of_Z, IH.
    + pose proof (Z.div_mod x 256 ltac:(lia)). lia.
    + rewrite Nat2Z.inj_succ, Z.pow_succ_r in Hx by lia.
      split; [apply Z.div_pos; lia | apply Z.div_lt_upper_bound; lia].
Qed.

Lemma decode_encode_usize (x : Z) :
  0 <= x < usize_modulus -> decode (encode (Z.to_nat word_size) x) = x.
Proof. intros Hx. apply decode_encode. exact Hx. Qed.

(** ** Cells and blocks *)

Lemma length_cells_of_bytes (bs : list byte) :
  length (cells_of_bytes bs) = length bs.
Proof. apply length_map. Qed.

Lemma bytes_of_cells_of_bytes (bs : list byte) :
  bytes_of_cells (cells_of_bytes bs) = Some bs.
Proof. induction bs as [|b bs IH]; simpl; [|rewrite IH]; reflexivity. Qed.

Lemma cells_of_bytes_app (l k : list byte) :
  cells_of_bytes (l ++ k) = cells_of_bytes l ++ cells_of_bytes k.
Proof. apply map_app. Qed.

Lemma cells_of_bytes_take (n : nat) (l : list byte) :
  cells_of_bytes (take n l) = take n (cells_of_bytes l).
Proof. unfold cells_of_bytes. symmetry. apply firstn_map. Qed.

Lemma cells_of_bytes_replicate (n : nat) (b : byte) :
  cells_of_bytes (replicate n b) = replicate n (Some b).
Proof. induction n as [|n IH]; simpl; [|rewrite IH]; reflexivity. Qed.

(** A read of the middle of [pre ++ mid ++ post]. *)
Lemma blk_read_app (pre mid post : list cell) (off n : Z) :
  off = Z.of_nat (length pre) -> n = Z.of_nat (length mid) ->
  blk_read (pre ++ mid ++ post) off n = Some mid.
Proof.
  intros -> ->. unfold blk_read.
  rewrite bool_decide_eq_true_2 by (rewrite !length_app; lia).
  rewrite !Nat2Z.id, drop_app_length, take_app_length. reflexivity.
Qed.

(** A write over the middle of [pre ++ old ++ post]. *)
Lemma blk_write_app (pre old new post : list cell) (off : Z) :
  off = Z.of_nat (length pre) -> length new = length old ->
  blk_write (pre ++ old ++ post) off new = Some (pre ++ new ++ post).
Proof.
  intros -> Hlen. unfold blk_write.
  rewrite bool_decide_eq_true_2 by (rewrite !length_app; lia).
  rewrite Nat2Z.id, take_app_length, Hlen.
  rewrite <- drop_drop, drop_app_length, drop_app_length. reflexivity.
Qed.

(** Accesses past a prefix are accesses to what follows it. *)
Lemma blk_read_skip (pre b : list cell) (off i n : Z) :
  off = Z.of_nat (length pre) + i -> 0 <= i ->
  blk_read (pre ++ b) off n = blk_read b i n.
Proof.
  intros -> Hi. unfold blk_read. rewrite length_app.
  replace (Z.to_nat (Z.of_nat (length pre) + i))
    with (length pre + Z.to_nat i)%nat by lia.
  rewrite drop_app_add'; [|reflexivity].
  destruct (bool_decide (0 <= i /\ _)) eqn:E.
  - apply bool_decide_eq_true_1 in E.
    rewrite bool_decide_eq_true_2 by lia. reflexivity.
  - apply bool_decide_eq_false_1 in E.
    rewrite bool_decide_eq_false_2 by lia. reflexivity.
Qed.

Lemma blk_write_skip (pre b : list cell) (off i : Z) (cs : list cell) :
  off = Z.of_nat (length pre) + i -> 0 <= i ->
  blk_write (pre ++ b) off cs = app pre <$> blk_write b i cs.
Proof.
  intros -> Hi. unfold blk_write. rewrite length_app.
  replace (Z.to_nat (Z.of_nat (length pre) + i))
    with (length pre + Z.to_nat i)%nat by lia.
  rewrite take_app_add'; [|reflexivity].
  rewrite <- Nat.add_assoc, drop_app_add'; [|reflexivity].
  destruct (bool_decide (0 <= i /\ _)) eqn:E.
  - apply bool_decide_eq_true_1 in E.
    rewrite bool_decide_eq_true_2 by lia. simpl. rewrite <- app_assoc. reflexivity.
  - apply bool_decide_eq_false_1 in E.
    rewrite bool_decide_eq_false_2 by lia. reflexivity.
Qed.

(** ** The monad *)

Lemma bind_step {A B} (m : M A) (k : A -> M B) (σ σ' : state) (a : A) :
  m σ = Some (a, σ') -> bind m k σ = k a σ'.
Proof. intros H. unfold bind. rewrite H. reflexivity. Qed.

Lemma bind_assoc {A B C} (m : M A) (f : A -> M B) (g : B -> M C) (σ : state) :
  bind (bind m f) g σ = bind m (fun x => bind (f x) g) σ.
Proof. unfold bind. destruct (m σ) as [[a σ']|]; reflexivity. Qed.

Lemma bind_ret {A B} (a : A) (k : A -> M B) (σ : state) :
  bind (ret a) k σ = k a σ.
Proof. reflexivity. Qed.

Lemma load_cells_block (p : pointer) (n : Z) (σ : state) (b : block)
    (cs : list cell) :
  heap σ !! p_blk p = Some b -> blk_read b (p_off p) n = Some cs ->
  load_cells p n σ = Some (cs, σ).
Proof. intros Hb Hr. unfold load_cells. rewrite Hb, Hr. reflexivity. Qed.

Lemma store_cells_block (p : pointer) (cs : list cell) (σ : state)
    (id : positive) (b b' : block) :
  p_blk p = id ->
  heap σ !! id = Some b -> blk_write b (p_off p) cs = Some b' ->
  store_cells p cs σ
  = Some (tt, State (<[id := b']> (heap σ)) (alloc_script σ)).
Proof. intros <- Hb Hw. unfold store_cells. rewrite Hb, Hw. reflexivity. Qed.

Lemma memcpy_block (dst src : pointer) (n : Z) (σ : state) (id : positive)
    (b b' b'' : block) (cs : list cell) :
  heap σ !! p_blk src = Some b -> blk_read b (p_off src) n = Some cs ->
  p_blk dst = id ->
  heap σ !! id = Some b' -> blk_write b' (p_off dst) cs = Some b'' ->
  memcpy dst src n σ
  = Some (tt, State (<[id := b'']> (heap σ)) (alloc_script σ)).
Proof.
  intros Hs Hr Hid Hd Hw. unfold memcpy.
  rewrite (bind_step _ _ _ _ _ (load_cells_block _ _ _ _ _ Hs Hr)).
  eapply store_cells_block; eassumption.
Qed.

Lemma free_block (p : pointer) (σ : state) (b : block) :
  heap σ !! p_blk p = Some b -> p_off p = 0 ->
  free p σ = Some (tt, State (delete (p_blk p) (heap σ)) (alloc_script σ)).
Proof.
  intros Hb Hoff. unfold free. rewrite Hb.
  rewrite bool_decide_eq_true_2 by exact Hoff. reflexivity.
Qed.

Lemma load_bytes_block (p : pointer) (n : Z) (σ : state) (b : block)
    (bs : list byte) :
  heap σ !! p_blk p = Some b ->
  blk_read b (p_off p) n = Some (cells_of_bytes bs) ->
  load_bytes p n σ = Some (bs, σ).
Proof.
  intros Hb Hr. unfold load_bytes.
  rewrite (bind_step _ _ _ _ _ (load_cells_block _ _ _ _ _ Hb Hr)).
  rewrite bytes_of_cells_of_bytes. reflexivity.
Qed.

(** ** Accesses to a string block *)

Lemma length_header_word (v : Z) :
  Z.of_nat (length (cells_of_bytes (encode (Z.to_nat word_size) v))) = word_size.
Proof. rewrite length_cells_of_bytes, length_encode. reflexivity. Qed.

Lemma length_raw_block (len cap : Z) (data : list cell) :
  Z.of_nat (length (raw_block len cap data))
  = header_size + Z.of_nat (length data).
Proof.
  unfold raw_block. rewrite !length_app, !Nat2Z.inj_add, !length_header_word.
  unfold header_size. lia.
Qed.

Lemma set_buf_lookup (σ : state) (s : pointer) (len cap : Z) (data : list cell) :
  heap (set_buf σ s len cap data) !! p_blk s = Some (raw_block len cap data).
Proof. unfold set_buf. simpl. apply lookup_insert_eq. Qed.

Lemma set_buf_twice (σ : state) (s : pointer) (l c l' c' : Z)
    (d d' : list cell) :
  set_buf (set_buf σ s l c d) s l' c' d' = set_buf σ s l' c' d'.
Proof. unfold set_buf. simpl. rewrite insert_insert_eq. reflexivity. Qed.

Lemma set_buf_same (σ : state) (s : pointer) (len cap : Z) (data : list cell) :
  heap σ !! p_blk s = Some (raw_block len cap data) ->
  set_buf σ s len cap data = σ.
Proof.
  intros H. unfold set_buf. rewrite insert_id by exact H.
  destruct σ; reflexivity.
Qed.

Section block_access.
Context (σ : state) (s : pointer) (len cap : Z) (data : list cell).
Hypothesis Hoff : p_off s = header_size.
Hypothesis Hblk : heap σ !! p_blk s = Some (raw_block len cap data).

Lemma gb_string_length_block :
  0 <= len < usize_modulus -> gb_string_length s σ = Some (len, σ).
Proof using Hoff Hblk.
  intros Hl. unfold gb_string_length, load_usize.
  erewrite bind_step; [unfold ret; rewrite decode_encode_usize by exact Hl; reflexivity|].
  eapply load_bytes_block; [exact Hblk|].
  apply (blk_read_app []); [simpl; lia|].
  symmetry. apply length_header_word.
Qed.

Lemma gb_string_capacity_block :
  0 <= cap < usize_modulus -> gb_string_capacity s σ = Some (cap, σ).
Proof using Hoff Hblk.
  intros Hc. unfold gb_string_capacity, load_usize.
  erewrite bind_step; [unfold ret; rewrite decode_encode_usize by exact Hc; reflexivity|].
  eapply load_bytes_block; [exact Hblk|].
  apply blk_read_app; [|symmetry; apply length_header_word].
  rewrite length_header_word. simpl. unfold header_size in *. lia.
Qed.

Lemma gb_string_available_space_block :
  0 <= len < usize_modulus -> 0 <= cap < usize_modulus ->
  gb_string_available_space s σ
  = Some (if bool_decide (cap > len) then cap - len else 0, σ).
Proof using Hoff Hblk.
  intros Hl Hc. unfold gb_string_available_space.
  rewrite (bind_step _ _ _ _ _ (gb_string_capacity_block Hc)).
  rewrite (bind_step _ _ _ _ _ (gb_string_length_block Hl)).
  case_bool_decide; unfold ret; [rewrite wrap_small by lia|]; reflexivity.
Qed.

Lemma gb_set_string_length_block (v : Z) :
  gb_set_string_length s v σ = Some (tt, set_buf σ s v cap data).
Proof using Hoff Hblk.
  unfold gb_set_string_length, store_usize.
  eapply store_cells_block; [reflexivity|exact Hblk|].
  apply (blk_write_app []); [simpl; lia|].
  apply Nat2Z.inj. rewrite !length_header_word. reflexivity.
Qed.

Lemma gb_set_string_capacity_block (v : Z) :
  gb_set_string_capacity s v σ = Some (tt, set_buf σ s len v data).
Proof using Hoff Hblk.
  unfold gb_set_string_capacity, store_usize.
  eapply store_cells_block; [reflexivity|exact Hblk|].
  unfold raw_block. apply blk_write_app.
  - rewrite length_header_word. simpl. unfold header_size in *. lia.
  - apply Nat2Z.inj. rewrite !length_header_word. reflexivity.
Qed.

(** Pointers into the payload region: [p] is [s + i]. *)
Context (p : pointer) (i : Z).
Hypothesis Hp_blk : p_blk p = p_blk s.
Hypothesis Hp_off : p_off p = header_size + i.
Hypothesis Hi : 0 <= i.

Lemma load_cells_data (n : Z) (cs : list cell) :
  blk_read data i n = Some cs -> load_cells p n σ = Some (cs, σ).
Proof using Hoff Hblk Hp_blk Hp_off Hi.
  intros Hr. eapply load_cells_block; [rewrite Hp_blk; exact Hblk|].
  rewrite <- Hr. unfold raw_block. rewrite app_assoc.
  apply blk_read_skip; [|exact Hi].
  rewrite length_app, Nat2Z.inj_add, !length_header_word.
  unfold header_size in *. lia.
Qed.

Lemma load_char_data (c : byte) :
  blk_read data i 1 = Some [Some c] -> load_char p σ = Some (c, σ).
Proof using Hoff Hblk Hp_blk Hp_off Hi.
  intros Hr. unfold load_char, load_bytes.
  rewrite (bind_step _ _ _ _ _
             (bind_step _ _ _ _ _ (load_cells_data _ _ Hr))).
  reflexivity.
Qed.

Lemma store_cells_data (cs data' : list cell) :
  blk_write data i cs = Some data' ->
  store_cells p cs σ = Some (tt, set_buf σ s len cap data').
Proof using Hoff Hblk Hp_blk Hp_off Hi.
  intros Hw. unfold set_buf.
  eapply store_cells_block; [exact Hp_blk|exact Hblk|].
  unfold raw_block. rewrite !app_assoc.
  erewrite blk_write_skip; [rewrite Hw; reflexivity| |exact Hi].
  rewrite length_app, Nat2Z.inj_add, !length_header_word.
  unfold header_size in *. lia.
Qed.
End block_access.

(** ** Buffers *)

Ltac step H := rewrite (bind_step _ _ _ _ _ H).
Ltac sizes := rewrite ?usize_modulus_eq in *; unfold header_size, word_size in *.

Lemma length_region (payload : list byte) (slack : list cell) :
  Z.of_nat (length (region payload slack))
  = Z.of_nat (length payload) + 1 + Z.of_nat (length slack).
Proof.
  unfold region. rewrite length_app, length_cells_of_bytes. simpl. lia.
Qed.

Lemma is_buffer_bounds σ s len cap payload slack :
  is_buffer σ s len cap payload slack ->
  0 <= len <= cap /\ cap + 17 < usize_modulus.
Proof. intros [_ _ Hl Hc Hf]. sizes. lia. Qed.

Lemma is_buffer_set_buf σ s len cap payload slack :
  p_off s = header_size ->
  Z.of_nat (length payload) = len ->
  len + Z.of_nat (length slack) = cap ->
  header_size + cap + 1 < usize_modulus ->
  is_buffer (set_buf σ s len cap (region payload slack)) s len cap payload slack.
Proof. intros. split; try assumption. apply set_buf_lookup. Qed.

Lemma blk_write_at (b : block) (i : Z) (cs : list cell) :
  0 <= i -> i + Z.of_nat (length cs) <= Z.of_nat (length b) ->
  blk_write b i cs
  = Some (take (Z.to_nat i) b ++ cs ++ drop (Z.to_nat i + length cs) b).
Proof.
  intros. unfold blk_write. rewrite bool_decide_eq_true_2 by lia. reflexivity.
Qed.

Lemma blk_read_at (b : block) (i n : Z) :
  0 <= i -> 0 <= n -> i + n <= Z.of_nat (length b) ->
  blk_read b i n = Some (take (Z.to_nat n) (drop (Z.to_nat i) b)).
Proof.
  intros. unfold blk_read. rewrite bool_decide_eq_true_2 by lia. reflexivity.
Qed.

(** Introspection. *)
Lemma gb_string_length_buffer σ s len cap payload slack :
  is_buffer σ s len cap payload slack -> gb_string_length s σ = Some (len, σ).
Proof.
  intros B. pose proof (is_buffer_bounds _ _ _ _ _ _ B).
  destruct B. eapply gb_string_length_block; eauto. lia.
Qed.

Lemma gb_string_capacity_buffer σ s len cap payload slack :
  is_buffer σ s len cap payload slack -> gb_string_capacity s σ = Some (cap, σ).
Proof.
  intros B. pose proof (is_buffer_bounds _ _ _ _ _ _ B).
  destruct B. eapply gb_string_capacity_block; eauto. lia.
Qed.

Lemma gb_string_available_space_buffer σ s len cap payload slack :
  is_buffer σ s len cap payload slack ->
  gb_string_available_space s σ = Some (cap - len, σ).
Proof.
  intros B. pose proof (is_buffer_bounds _ _ _ _ _ _ B).
  destruct B. erewrite gb_string_available_space_block; eauto; try lia.
  case_bool_decide; [reflexivity|]. do 2 f_equal. lia.
Qed.

(** Clear. *)
Lemma gb_clear_string_buffer σ s len cap payload slack :
  is_buffer σ s len cap payload slack ->
  gb_clear_string s σ
  = Some (tt, set_buf σ s 0 cap (region [] (drop 1 (region payload slack)))).
Proof.
  intros [Hoff Hblk Hlen Hcap Hfit]. unfold gb_clear_string.
  step (gb_set_string_length_block _ _ _ _ _ Hoff Hblk 0).
  unfold store_char.
  erewrite (store_cells_data _ s 0 cap _ Hoff (set_buf_lookup _ _ _ _ _) s 0);
    [rewrite set_buf_twice; reflexivity|reflexivity|lia|lia|].
  rewrite blk_write_at; [reflexivity|lia|].
  rewrite length_region. simpl. lia.
Qed.

(** The allocator. *)
Lemma malloc_ok (sz : Z) (σ : state) :
  next_alloc_fails σ = false ->
  malloc sz σ
  = Some (Some (Ptr (next_block σ) 0),
          State (<[next_block σ := replicate (Z.to_nat sz) None]> (heap σ))
                (tail (alloc_script σ))).
Proof.
  unfold next_alloc_fails, malloc, next_block.
  destruct (alloc_script σ) as [|[] rest]; intros H; try discriminate; reflexivity.
Qed.

Lemma malloc_fails (sz : Z) (σ : state) :
  next_alloc_fails σ = true ->
  malloc sz σ = Some (None, State (heap σ) (tail (alloc_script σ))).
Proof.
  unfold next_alloc_fails, malloc.
  destruct (alloc_script σ) as [|[] rest]; intros H; try discriminate; reflexivity.
Qed.

Lemma next_block_fresh (σ : state) : heap σ !! next_block σ = None.
Proof. apply not_elem_of_dom. unfold next_block. apply is_fresh. Qed.

Lemma next_block_ne (σ : state) (id : positive) (b : block) :
  heap σ !! id = Some b -> next_block σ <> id.
Proof. intros H E. rewrite <- E, next_block_fresh in H. discriminate. Qed.

Lemma raw_block_slack (len cap : Z) (payload : list byte) (slack : list cell) :
  raw_block len cap (region payload slack)
  = raw_block len cap (region payload []) ++ slack.
Proof.
  unfold raw_block, region. rewrite <- !app_assoc. simpl. reflexivity.
Qed.

Lemma length_raw_region (len cap : Z) (payload : list byte) (slack : list cell) :
  Z.of_nat (length (raw_block len cap (region payload slack)))
  = header_size + Z.of_nat (length payload) + 1 + Z.of_nat (length slack).
Proof. rewrite length_raw_block, length_region. lia. Qed.

(** Reserve: enough room, nothing happens. *)
Lemma gb_string_make_space_for_fit σ s len cap payload slack add :
  is_buffer σ s len cap payload slack ->
  add <= cap - len ->
  gb_string_make_space_for s add σ = Some (Some s, σ).
Proof.
  intros B Hadd. unfold gb_string_make_space_for.
  step (gb_string_length_buffer _ _ _ _ _ _ B).
  step (gb_string_available_space_buffer _ _ _ _ _ _ B).
  rewrite bool_decide_eq_true_2 by lia. reflexivity.
Qed.

(** Reserve: the block is too small and the allocator refuses. *)
Lemma gb_string_make_space_for_fail σ s len cap payload slack add :
  is_buffer σ s len cap payload slack ->
  cap - len < add ->
  header_size + len + add + 1 < usize_modulus ->
  next_alloc_fails σ = true ->
  gb_string_make_space_for s add σ
  = Some (None, State (heap σ) (tail (alloc_script σ))).
Proof.
  intros B Hadd Hfit Hfail. pose proof (is_buffer_bounds _ _ _ _ _ _ B) as Hb.
  unfold gb_string_make_space_for.
  step (gb_string_length_buffer _ _ _ _ _ _ B).
  step (gb_string_available_space_buffer _ _ _ _ _ _ B).
  rewrite bool_decide_eq_false_2 by lia.
  step (gb_string_length_buffer _ _ _ _ _ _ B).
  rewrite (wrap_small (len + add)) by (sizes; lia).
  rewrite !wrap_small by (sizes; lia).
  unfold gb__string_realloc.
  rewrite (bool_decide_eq_false_2 (_ < _)) by lia.
  rewrite (bool_decide_eq_false_2 (_ = _)) by lia.
  unfold GB_ALLOC. rewrite bind_assoc.
  step (malloc_fails (header_size + (len + add) + 1) _ Hfail). reflexivity.
Qed.

(** Reserve: the block is too small and a new one is obtained. *)
Lemma gb_string_make_space_for_grow σ s len cap payload slack add :
  is_buffer σ s len cap payload slack ->
  cap - len < add ->
  header_size + len + add + 1 < usize_modulus ->
  next_alloc_fails σ = false ->
  gb_string_make_space_for s add σ
  = Some (Some (Ptr (next_block σ) header_size),
          moved_buf σ s (next_block σ) len (len + add)
            (region payload (replicate (Z.to_nat add) None))).
Proof.
  intros B Hadd Hfit Hok. pose proof (is_buffer_bounds _ _ _ _ _ _ B) as Hb.
  unfold gb_string_make_space_for.
  step (gb_string_length_buffer _ _ _ _ _ _ B).
  step (gb_string_available_space_buffer _ _ _ _ _ _ B).
  rewrite bool_decide_eq_false_2 by lia.
  step (gb_string_length_buffer _ _ _ _ _ _ B).
  rewrite (wrap_small (len + add)) by (sizes; lia).
  rewrite !wrap_small by (sizes; lia).
  destruct B as [Hoff Hblk Hlen Hcap _].
  pose proof (next_block_ne _ _ _ Hblk) as Hne.
  set (old := raw_block len cap (region payload [])).
  assert (Hold : Z.of_nat (length old) = header_size + len + 1).
  { unfold old. rewrite length_raw_region. simpl. lia. }
  unfold gb__string_realloc.
  rewrite (bool_decide_eq_false_2 (_ < _)) by lia.
  rewrite (bool_decide_eq_false_2 (_ = _)) by lia.
  unfold GB_ALLOC. rewrite bind_assoc.
  step (malloc_ok (header_size + (len + add) + 1) _ Hok).
  set (id := next_block σ) in *.
  replace (Z.to_nat (header_size + (len + add) + 1))
    with (length old + Z.to_nat add)%nat by lia.
  rewrite replicate_add, !bind_assoc.
  erewrite bind_step; cycle 1.
  { eapply (memcpy_block _ _ _ _ id).
    - cbn [heap p_blk ptr_add]. rewrite lookup_insert_ne by (first [exact Hne | exact (not_eq_sym Hne)]). exact Hblk.
    - rewrite raw_block_slack. fold old.
      apply (blk_read_app [] old slack); [simpl; sizes; lia|lia].
    - reflexivity.
    - apply lookup_insert_eq.
    - apply (blk_write_app [] (replicate (length old) None) old
               (replicate (Z.to_nat add) None)); [reflexivity|].
      rewrite length_replicate. reflexivity. }
  rewrite (app_nil_l (old ++ _)), bind_assoc.
  erewrite bind_step; cycle 1.
  { unfold GB_FREE. eapply free_block; [|simpl; sizes; lia].
    cbn [heap p_blk ptr_add]. rewrite insert_insert_eq, lookup_insert_ne by (first [exact Hne | exact (not_eq_sym Hne)]).
    exact Hblk. }
  rewrite bind_ret. unfold old. rewrite <- raw_block_slack.
  erewrite bind_step; cycle 1.
  { eapply gb_set_string_capacity_block; [reflexivity|].
    cbn [heap p_blk ptr_add]. rewrite insert_insert_eq, delete_insert_ne by (first [exact Hne | exact (not_eq_sym Hne)]).
    apply lookup_insert_eq. }
  unfold ret, set_buf, moved_buf. cbn [heap alloc_script p_blk p_off ptr_add].
  rewrite insert_insert_eq, delete_insert_ne, insert_insert_eq by (first [exact Hne | exact (not_eq_sym Hne)]).
  reflexivity.
Qed.

Lemma overwrite_then_terminate {A} (data : list A) (i : nat) (cs : list A)
    (c : A) :
  (i + length cs + 1 <= length data)%nat ->
  take (i + length cs) (take i data ++ cs ++ drop (i + length cs) data)
    ++ [c]
    ++ drop (i + length cs + 1)
         (take i data ++ cs ++ drop (i + length cs) data)
  = take i data ++ cs ++ c :: drop (i + length cs + 1) data.
Proof.
  intros Hlen.
  assert (Hpre : length (take i data ++ cs) = (i + length cs)%nat).
  { rewrite length_app, length_take. lia. }
  rewrite (app_assoc (take i data)).
  rewrite take_app_length' by (symmetry; exact Hpre).
  rewrite drop_app_add' by (symmetry; exact Hpre).
  rewrite drop_drop, <- app_assoc. reflexivity.
Qed.

(** Writing a string into the payload region: [bs] at offset [i], the
    terminator after it, and the new length in the header. *)
Lemma write_string σ s len cap data (p q : pointer) (i v : Z) (bs : list byte) :
  p_off s = header_size ->
  heap σ !! p_blk s = Some (raw_block len cap data) ->
  p_blk p = p_blk s -> p_off p = header_size + i ->
  p_blk q = p_blk s -> p_off q = header_size + (i + Z.of_nat (length bs)) ->
  0 <= i -> i + Z.of_nat (length bs) + 1 <= Z.of_nat (length data) ->
  (store_cells p (cells_of_bytes bs);;
   store_char q x00;;
   gb_set_string_length s v;;
   ret (Some s)) σ
  = Some (Some s,
          set_buf σ s v cap
            (take (Z.to_nat i) data ++ cells_of_bytes bs
               ++ Some x00 :: drop (Z.to_nat i + length bs + 1) data)).
Proof.
  intros Hoff Hblk Hp Hpo Hq Hqo Hi Hlen.
  erewrite bind_step; cycle 1.
  { eapply store_cells_data;
      [exact Hoff|exact Hblk|exact Hp|exact Hpo|exact Hi|].
    apply blk_write_at; [exact Hi|]. rewrite length_cells_of_bytes. lia. }
  unfold store_char.
  erewrite bind_step; cycle 1.
  { eapply store_cells_data;
      [exact Hoff|apply set_buf_lookup|exact Hq|exact Hqo|lia|].
    apply blk_write_at; [lia|].
    rewrite !length_app, length_take, length_drop, length_cells_of_bytes.
    simpl. lia. }
  erewrite bind_step; cycle 1.
  { eapply gb_set_string_length_block; [exact Hoff|apply set_buf_lookup]. }
  unfold ret. rewrite !set_buf_twice.
  replace (Z.to_nat (i + Z.of_nat (length bs)))
    with (Z.to_nat i + length (cells_of_bytes bs))%nat
    by (rewrite length_cells_of_bytes; lia).
  change (length [Some x00]) with 1%nat.
  rewrite overwrite_then_terminate by (rewrite length_cells_of_bytes; lia).
  rewrite length_cells_of_bytes. reflexivity.
Qed.

Lemma is_buffer_moved_buf σ s id len cap payload slack :
  Z.of_nat (length payload) = len ->
  len + Z.of_nat (length slack) = cap ->
  header_size + cap + 1 < usize_modulus ->
  is_buffer (moved_buf σ s id len cap (region payload slack))
    (Ptr id header_size) len cap payload slack.
Proof.
  intros. split; try assumption; [reflexivity|].
  unfold moved_buf. simpl. apply lookup_insert_eq.
Qed.

Lemma strlen_range (s : list byte) : 0 <= strlen s <= Z.of_nat (length s).
Proof.
  induction s as [|c s IH]; simpl; [lia|].
  destruct (decide (c = x00)); lia.
Qed.

Lemma length_cstr_bytes (s : list byte) :
  Z.of_nat (length (cstr_bytes s)) = strlen s.
Proof.
  unfold cstr_bytes. pose proof (strlen_range s). rewrite length_take. lia.
Qed.

(** Append, once room has been made. *)
Lemma append_tail σ s len cap payload slack other n :
  is_buffer σ s len cap payload slack ->
  0 <= n <= Z.of_nat (length other) -> n <= Z.of_nat (length slack) ->
  (memcpy_from (s +ₚ len) other n;;
   store_char (s +ₚ wrap (len + n)) x00;;
   gb_set_string_length s (wrap (len + n));;
   ret (Some s)) σ
  = Some (Some s,
          set_buf σ s (len + n) cap
            (region (payload ++ take (Z.to_nat n) other)
                    (drop (Z.to_nat n) slack))).
Proof.
  intros B Hn Hroom. pose proof (is_buffer_bounds _ _ _ _ _ _ B) as Hb.
  destruct B as [Hoff Hblk Hlen Hcap Hfit].
  rewrite wrap_small by (sizes; lia).
  unfold memcpy_from. rewrite bool_decide_eq_true_2 by exact Hn.
  assert (Hbs : Z.of_nat (length (take (Z.to_nat n) other)) = n)
    by (rewrite length_take; lia).
  erewrite (write_string _ s len cap _ _ _ len _ _ Hoff Hblk); cycle 1.
  - reflexivity.
  - cbn [p_off ptr_add]. lia.
  - reflexivity.
  - cbn [p_off ptr_add]. lia.
  - lia.
  - rewrite length_region. lia.
  - do 3 f_equal. unfold region.
    rewrite cells_of_bytes_app, <- app_assoc.
    replace (Z.to_nat len) with (length (cells_of_bytes payload))
      by (rewrite length_cells_of_bytes; lia).
    rewrite take_app_length. do 2 f_equal.
    rewrite <- Nat.add_assoc, drop_app_add' by reflexivity.
    replace (length (take (Z.to_nat n) other) + 1)%nat
      with (S (Z.to_nat n)) by lia.
    reflexivity.
Qed.

Lemma gb_append_string_length_fit σ s len cap payload slack other n :
  is_buffer σ s len cap payload slack ->
  0 <= n <= Z.of_nat (length other) -> n <= cap - len ->
  gb_append_string_length s other n σ
  = Some (Some s,
          set_buf σ s (len + n) cap
            (region (payload ++ take (Z.to_nat n) other)
                    (drop (Z.to_nat n) slack))).
Proof.
  intros B Hn Hroom. unfold gb_append_string_length.
  step (gb_string_length_buffer _ _ _ _ _ _ B).
  step (gb_string_make_space_for_fit _ _ _ _ _ _ _ B Hroom).
  apply append_tail; [exact B|exact Hn|]. destruct B. lia.
Qed.

Lemma gb_append_string_length_grow σ s len cap payload slack other n :
  is_buffer σ s len cap payload slack ->
  0 <= n <= Z.of_nat (length other) -> cap - len < n ->
  header_size + len + n + 1 < usize_modulus ->
  next_alloc_fails σ = false ->
  gb_append_string_length s other n σ
  = Some (Some (Ptr (next_block σ) header_size),
          moved_buf σ s (next_block σ) (len + n) (len + n)
            (region (payload ++ take (Z.to_nat n) other) [])).
Proof.
  intros B Hn Hroom Hfit Hok. unfold gb_append_string_length.
  step (gb_string_length_buffer _ _ _ _ _ _ B).
  step (gb_string_make_space_for_grow _ _ _ _ _ _ _ B Hroom Hfit Hok).
  destruct B as [Hoff Hblk Hlen Hcap _].
  erewrite append_tail; [|apply is_buffer_moved_buf|exact Hn|]; try lia; cycle 1.
  - rewrite length_replicate. lia.
  - rewrite length_replicate. lia.
  - unfold set_buf, moved_buf. cbn [heap alloc_script p_blk].
    rewrite insert_insert_eq, drop_replicate.
    replace (Z.to_nat n - Z.to_nat n)%nat with 0%nat by lia. reflexivity.
Qed.

Lemma gb_append_string_length_fail σ s len cap payload slack other n :
  is_buffer σ s len cap payload slack ->
  cap - len < n ->
  header_size + len + n + 1 < usize_modulus ->
  next_alloc_fails σ = true ->
  gb_append_string_length s other n σ
  = Some (None, State (heap σ) (tail (alloc_script σ))).
Proof.
  intros B Hroom Hfit Hfail. unfold gb_append_string_length.
  step (gb_string_length_buffer _ _ _ _ _ _ B).
  step (gb_string_make_space_for_fail _ _ _ _ _ _ _ B Hroom Hfit Hfail).
  reflexivity.
Qed.

(** Assign, once the capacity is known to suffice. *)
Lemma set_tail σ s len cap payload slack cstr :
  is_buffer σ s len cap payload slack ->
  strlen cstr <= cap ->
  (memcpy_from s cstr (strlen cstr);;
   store_char (s +ₚ strlen cstr) x00;;
   gb_set_string_length s (strlen cstr);;
   ret (Some s)) σ
  = Some (Some s,
          set_buf σ s (strlen cstr) cap
            (region (cstr_bytes cstr)
               (drop (Z.to_nat (strlen cstr) + 1) (region payload slack)))).
Proof.
  intros B Hn. pose proof (strlen_range cstr) as Hs.
  pose proof (length_cstr_bytes cstr) as Hbs.
  destruct B as [Hoff Hblk Hlen Hcap Hfit].
  unfold memcpy_from. rewrite bool_decide_eq_true_2 by exact Hs.
  fold (cstr_bytes cstr).
  erewrite (write_string _ s len cap _ _ _ 0 _ _ Hoff Hblk); cycle 1.
  - reflexivity.
  - lia.
  - reflexivity.
  - cbn [p_off ptr_add]. lia.
  - lia.
  - rewrite length_region. lia.
  - do 3 f_equal. change (Z.to_nat 0) with 0%nat.
    replace (0 + length (cstr_bytes cstr))%nat
      with (Z.to_nat (strlen cstr)) by lia.
    reflexivity.
Qed.

Lemma gb_set_string_fit σ s len cap payload slack cstr :
  is_buffer σ s len cap payload slack ->
  strlen cstr <= cap ->
  gb_set_string s cstr σ
  = Some (Some s,
          set_buf σ s (strlen cstr) cap
            (region (cstr_bytes cstr)
               (drop (Z.to_nat (strlen cstr) + 1) (region payload slack)))).
Proof.
  intros B Hn. unfold gb_set_string.
  step (gb_string_capacity_buffer _ _ _ _ _ _ B).
  rewrite bool_decide_eq_false_2 by lia. rewrite bind_ret.
  eapply set_tail; eassumption.
Qed.

Lemma gb_set_string_grow σ s len cap payload slack cstr :
  is_buffer σ s len cap payload slack ->
  cap < strlen cstr ->
  header_size + strlen cstr + 1 < usize_modulus ->
  next_alloc_fails σ = false ->
  gb_set_string s cstr σ
  = Some (Some (Ptr (next_block σ) header_size),
          moved_buf σ s (next_block σ) (strlen cstr) (strlen cstr)
            (region (cstr_bytes cstr) [])).
Proof.
  intros B Hn Hfit Hok. pose proof (is_buffer_bounds _ _ _ _ _ _ B) as Hb.
  unfold gb_set_string.
  step (gb_string_capacity_buffer _ _ _ _ _ _ B).
  rewrite bool_decide_eq_true_2 by lia. rewrite bind_assoc.
  step (gb_string_length_buffer _ _ _ _ _ _ B).
  rewrite wrap_small by (sizes; lia).
  erewrite bind_step; cycle 1.
  { eapply gb_string_make_space_for_grow; [exact B|lia|lia|exact Hok]. }
  destruct B as [Hoff Hblk Hlen Hcap _].
  replace (len + (strlen cstr - len)) with (strlen cstr) by lia.
  erewrite set_tail; [|apply is_buffer_moved_buf|]; try lia; cycle 1.
  - rewrite length_replicate. lia.
  - unfold set_buf, moved_buf. cbn [heap alloc_script p_blk].
    rewrite insert_insert_eq. rewrite drop_ge; [reflexivity|].
    apply Nat2Z.inj_le. rewrite length_region, length_replicate. lia.
Qed.

Lemma gb_set_string_fail σ s len cap payload slack cstr :
  is_buffer σ s len cap payload slack ->
  cap < strlen cstr ->
  header_size + strlen cstr + 1 < usize_modulus ->
  next_alloc_fails σ = true ->
  gb_set_string s cstr σ = Some (None, State (heap σ) (tail (alloc_script σ))).
Proof.
  intros B Hn Hfit Hfail. pose proof (is_buffer_bounds _ _ _ _ _ _ B) as Hb.
  unfold gb_set_string.
  step (gb_string_capacity_buffer _ _ _ _ _ _ B).
  rewrite bool_decide_eq_true_2 by lia. rewrite bind_assoc.
  step (gb_string_length_buffer _ _ _ _ _ _ B).
  rewrite wrap_small by (sizes; lia).
  erewrite bind_step; cycle 1.
  { eapply gb_string_make_space_for_fail; [exact B|lia|lia|exact Hfail]. }
  reflexivity.
Qed.

(** Construction. *)
Lemma blk_write_all (b cs : list (option byte)) :
  length cs = length b -> blk_write b 0 cs = Some cs.
Proof.
  intros Hlen. rewrite blk_write_at by lia. change (Z.to_nat 0) with 0%nat.
  rewrite take_0, drop_ge, app_nil_r by lia. reflexivity.
Qed.

Lemma fresh_block_header (n : nat) (c : option byte) :
  replicate (Z.to_nat (header_size + Z.of_nat n)) c
  = replicate (Z.to_nat word_size) c ++ replicate (Z.to_nat word_size) c
      ++ replicate n c.
Proof.
  rewrite <- !replicate_add. f_equal. unfold header_size, word_size. lia.
Qed.

Lemma write_header σ (id : positive) (h1 h2 data : list cell) (len cap : Z) :
  heap σ !! id = Some (h1 ++ h2 ++ data) ->
  Z.of_nat (length h1) = word_size -> Z.of_nat (length h2) = word_size ->
  (store_usize (field_len (GB_STRING_HEADER (Ptr id 0 +ₚ header_size))) len;;
   store_usize (field_cap (GB_STRING_HEADER (Ptr id 0 +ₚ header_size))) cap) σ
  = Some (tt, State (<[id := raw_block len cap data]> (heap σ)) (alloc_script σ)).
Proof.
  intros Hblk H1 H2. unfold store_usize.
  erewrite bind_step; cycle 1.
  { eapply (store_cells_block _ _ _ id); [reflexivity|exact Hblk|].
    apply (blk_write_app [] h1); [reflexivity|].
    apply Nat2Z.inj. rewrite length_header_word. lia. }
  erewrite (store_cells_block _ _ _ id); cycle 1.
  - reflexivity.
  - apply lookup_insert_eq.
  - apply (blk_write_app _ h2).
    + rewrite length_header_word. reflexivity.
    + apply Nat2Z.inj. rewrite length_header_word. lia.
  - cbn [heap alloc_script app]. rewrite insert_insert_eq. reflexivity.
Qed.

Lemma gb_make_string_length_ok σ init len :
  0 <= len -> header_size + len + 1 < usize_modulus ->
  next_alloc_fails σ = false ->
  match init with
  | Some b => len <= Z.of_nat (length b)
  | None => True
  end ->
  gb_make_string_length init len σ
  = Some (Some (Ptr (next_block σ) header_size),
          fresh_buf σ (next_block σ) len len
            (region (initial_payload init len) [])).
Proof.
  intros Hlen Hfit Hok Hsrc. unfold gb_make_string_length, GB_ALLOC.
  rewrite wrap_small by (sizes; lia).
  step (malloc_ok (header_size + len + 1) _ Hok).
  set (id := next_block σ).
  replace (header_size + len + 1)
    with (header_size + Z.of_nat (S (Z.to_nat len))) by lia.
  destruct init as [b|].
  - rewrite bind_ret, fresh_block_header.
    rewrite <- (bind_assoc (store_usize _ _)).
    erewrite bind_step; cycle 1.
    { eapply (write_header _ id); [apply lookup_insert_eq| |];
        rewrite length_replicate; reflexivity. }
    cbn [heap alloc_script]. rewrite insert_insert_eq.
    set (σ1 := State _ _).
    assert (Hb1 : heap σ1 !! id
                  = Some (raw_block len len (replicate (S (Z.to_nat len)) None)))
      by apply lookup_insert_eq.
    assert (Hbs : length (take (Z.to_nat len) b) = Z.to_nat len)
      by (rewrite length_take; lia).
    erewrite (bind_step _ _ _ (set_buf σ1 (Ptr id header_size) len len
                (cells_of_bytes (take (Z.to_nat len) b) ++ [None]))); cycle 1.
    { case_bool_decide as Hz.
      - unfold memcpy_from. rewrite bool_decide_eq_true_2 by lia.
        eapply (store_cells_data _ (Ptr id header_size) _ _ _ eq_refl Hb1 _ 0);
          [reflexivity|reflexivity|lia|].
        rewrite blk_write_at;
          [|lia|rewrite length_cells_of_bytes, length_replicate; lia].
        rewrite length_cells_of_bytes, Hbs. change (Z.to_nat 0) with 0%nat.
        rewrite take_0, drop_replicate.
        replace (S (Z.to_nat len) - (0 + Z.to_nat len))%nat with 1%nat by lia.
        reflexivity.
      - assert (len = 0) as -> by lia. unfold ret. simpl.
        rewrite set_buf_same by exact Hb1. reflexivity. }
    unfold store_char.
    erewrite bind_step; cycle 1.
    { eapply (store_cells_data _ (Ptr id header_size) _ _ _ eq_refl
                (set_buf_lookup _ _ _ _ _) _ len);
        [reflexivity|cbn [p_off ptr_add]; lia|lia|].
      apply (blk_write_app _ [None] _ []); [|reflexivity].
      rewrite length_cells_of_bytes. lia. }
    unfold ret, fresh_buf, set_buf, σ1. cbn [heap alloc_script p_blk].
    rewrite !insert_insert_eq. reflexivity.
  - erewrite bind_step; cycle 1.
    { unfold memset. eapply (store_cells_block _ _ _ id);
        [reflexivity|apply lookup_insert_eq|].
      apply blk_write_all. rewrite !length_replicate. reflexivity. }
    cbn [heap alloc_script]. rewrite insert_insert_eq, fresh_block_header.
    rewrite <- (bind_assoc (store_usize _ _)).
    erewrite bind_step; cycle 1.
    { eapply (write_header _ id); [apply lookup_insert_eq| |];
        rewrite length_replicate; reflexivity. }
    cbn [heap alloc_script]. rewrite insert_insert_eq, bind_ret.
    assert (Hdata : replicate (S (Z.to_nat len)) (Some x00)
                    = region (replicate (Z.to_nat len) x00) []).
    { unfold region. rewrite cells_of_bytes_replicate.
      change [Some x00] with (replicate 1 (Some x00)).
      rewrite <- replicate_add. f_equal. lia. }
    rewrite Hdata. set (σ1 := State _ _). unfold store_char.
    erewrite bind_step; cycle 1.
    { eapply (store_cells_data σ1 (Ptr id header_size) _ _ _ eq_refl
                (lookup_insert_eq _ _ _) _ len);
        [reflexivity|cbn [p_off ptr_add]; lia|lia|].
      apply (blk_write_app _ [Some x00] _ []); [|reflexivity].
      rewrite length_cells_of_bytes, length_replicate. lia. }
    unfold ret, fresh_buf, set_buf, σ1. cbn [heap alloc_script p_blk].
    rewrite !insert_insert_eq. reflexivity.
Qed.

(** ** Runs of cut-set bytes *)

Section runs.
Context (f : byte -> bool).

Lemma leading_run_le (l : list byte) : (leading_run f l <= length l)%nat.
Proof. induction l as [|c l IH]; simpl; [lia|]. destruct (f c); lia. Qed.

Lemma drop_leading_run (l : list byte) :
  drop_leading f l = drop (leading_run f l) l.
Proof.
  induction l as [|c l IH]; simpl; [reflexivity|].
  destruct (f c); [exact IH|reflexivity].
Qed.

Lemma drop_leading_head (l l' : list byte) (x : byte) :
  drop_leading f l = x :: l' -> f x = false.
Proof.
  induction l as [|c l IH]; simpl; [discriminate|].
  destruct (f c) eqn:E; [exact IH|]. intros [= <- _]. exact E.
Qed.

Lemma drop_leading_idem (l : list byte) :
  drop_leading f (drop_leading f l) = drop_leading f l.
Proof.
  induction l as [|c l IH]; simpl; [reflexivity|].
  destruct (f c) eqn:E; [exact IH|]. simpl. rewrite E. reflexivity.
Qed.

Lemma leading_run_snoc_stop (l : list byte) (x : byte) :
  f x = false -> leading_run f (l ++ [x]) = leading_run f l.
Proof.
  intros Hx. induction l as [|c l IH]; simpl; [rewrite Hx; reflexivity|].
  destruct (f c); [rewrite IH|]; reflexivity.
Qed.

Lemma drop_leading_snoc_stop (l : list byte) (x : byte) :
  f x = false -> drop_leading f (l ++ [x]) = drop_leading f l ++ [x].
Proof.
  intros Hx. induction l as [|c l IH]; simpl; [rewrite Hx; reflexivity|].
  destruct (f c); [exact IH|reflexivity].
Qed.

(** Dropping a trailing run is keeping a prefix. *)
Lemma rev_drop_leading_rev (l : list byte) :
  rev (drop_leading f (rev l))
  = take (length l - leading_run f (rev l)) l.
Proof.
  rewrite drop_leading_run, skipn_rev, rev_involutive. reflexivity.
Qed.
End runs.

Lemma trim_spec_span (cut_set payload : list byte) :
  let f := in_cut_set cut_set in
  let rest := drop (leading_run f payload) payload in
  trim_spec cut_set payload
  = take (length rest - leading_run f (rev rest)) rest.
Proof.
  intros f rest. unfold trim_spec. fold f.
  rewrite rev_drop_leading_rev, drop_leading_run. reflexivity.
Qed.

Lemma trim_spec_idem (cut_set payload : list byte) :
  trim_spec cut_set (trim_spec cut_set payload) = trim_spec cut_set payload.
Proof.
  unfold trim_spec. set (f := in_cut_set cut_set).
  destruct (drop_leading f payload) as [|x q] eqn:Eq; [reflexivity|].
  pose proof (drop_leading_head _ _ _ _ Eq) as Hx.
  cbn [rev]. rewrite (drop_leading_snoc_stop f _ _ Hx).
  rewrite rev_app_distr. cbn [rev app drop_leading]. rewrite Hx.
  cbn [rev]. rewrite rev_involutive, (drop_leading_snoc_stop f _ _ Hx).
  rewrite drop_leading_idem, rev_app_distr. reflexivity.
Qed.

(** The trimmed string neither starts nor ends with a cut-set byte. *)
Lemma trim_spec_ends (cut_set payload : list byte) (c : byte) :
  head (trim_spec cut_set payload) = Some c
  \/ last (trim_spec cut_set payload) = Some c ->
  in_cut_set cut_set c = false.
Proof.
  unfold trim_spec. set (f := in_cut_set cut_set).
  destruct (drop_leading f payload) as [|x q] eqn:Eq.
  - simpl. intros [H|H]; discriminate.
  - pose proof (drop_leading_head _ _ _ _ Eq) as Hx.
    cbn [rev]. rewrite (drop_leading_snoc_stop f _ _ Hx).
    rewrite rev_app_distr. cbn [rev app]. intros [H|H].
    + cbn in H. congruence.
    + destruct (drop_leading f (rev q)) as [|y m] eqn:Em.
      * cbn in H. congruence.
      * pose proof (drop_leading_head _ _ _ _ Em) as Hy.
        cbn [rev] in H. rewrite app_comm_cons, last_snoc in H. congruence.
Qed.

(** ** The loops of trim *)

Lemma region_char_at (pre suf : list byte) (c : byte) (slack : list cell)
    (i : Z) :
  i = Z.of_nat (length pre) ->
  blk_read (region (pre ++ c :: suf) slack) i 1 = Some [Some c].
Proof.
  intros ->. unfold region. rewrite cells_of_bytes_app, <- app_assoc.
  apply (blk_read_app _ [Some c]); [|reflexivity].
  rewrite length_cells_of_bytes. reflexivity.
Qed.

Lemma pointer_eq (p : pointer) (id : positive) (off : Z) :
  p_blk p = id -> p_off p = off -> p = Ptr id off.
Proof. destruct p. simpl. intros -> ->. reflexivity. Qed.

Section trim_loops.
Context (σ : state) (s : pointer) (len cap : Z).
Context (payload : list byte) (slack : list cell) (cut_set : list byte).
Hypothesis Hoff : p_off s = header_size.
Hypothesis Hblk :
  heap σ !! p_blk s = Some (raw_block len cap (region payload slack)).

Let f := in_cut_set cut_set.

(** The first loop stops after the leading run. *)
Lemma trim_start_loop_run (suf pre : list byte) (fuel : nat)
    (start_pos end_ : pointer) :
  payload = pre ++ suf ->
  p_blk start_pos = p_blk s ->
  p_off start_pos = header_size + Z.of_nat (length pre) ->
  p_off end_ = header_size + Z.of_nat (length payload) - 1 ->
  (length suf < fuel)%nat ->
  trim_start_loop fuel cut_set start_pos end_ σ
  = Some (Ptr (p_blk s)
            (header_size + Z.of_nat (length pre + leading_run f suf)), σ).
Proof using Hoff Hblk.
  revert pre fuel start_pos.
  induction suf as [|c suf IH]; intros pre fuel start_pos Hp Hb Ho He Hfuel;
    (destruct fuel as [|fuel]; [simpl in Hfuel; lia|]); cbn [trim_start_loop].
  - rewrite app_nil_r in Hp. subst pre.
    rewrite bool_decide_eq_false_2 by lia.
    unfold ret. do 2 f_equal. apply pointer_eq; [exact Hb|].
    cbn [leading_run]. lia.
  - rewrite bool_decide_eq_true_2
      by (rewrite Hp, length_app in He; simpl in He; lia).
    erewrite bind_step; cycle 1.
    { eapply (load_char_data _ s _ _ _ Hoff Hblk _ _ Hb Ho); [lia|].
      rewrite Hp. apply region_char_at. reflexivity. }
    cbn [leading_run]. unfold f at 1, in_cut_set.
    destruct (strchr cut_set c) as [k|].
    + erewrite (IH (pre ++ [c])).
      * do 3 f_equal. rewrite length_app. simpl. lia.
      * rewrite Hp, <- app_assoc. reflexivity.
      * exact Hb.
      * cbn [p_off ptr_add]. rewrite length_app. simpl. lia.
      * exact He.
      * simpl in Hfuel. lia.
    + unfold ret. do 2 f_equal. apply pointer_eq; [exact Hb|]. lia.
Qed.

(** The second loop stops before the trailing run of the bytes after the
    start cursor. *)
Lemma trim_end_loop_run (mid pre post : list byte) (fuel : nat)
    (start_pos end_pos : pointer) :
  payload = pre ++ mid ++ post ->
  p_blk end_pos = p_blk s ->
  p_off start_pos = header_size + Z.of_nat (length pre) - 1 ->
  p_off end_pos = header_size + Z.of_nat (length pre + length mid) - 1 ->
  (length mid < fuel)%nat ->
  trim_end_loop fuel cut_set start_pos end_pos σ
  = Some (Ptr (p_blk s)
            (header_size
             + Z.of_nat (length pre + length mid
                         - leading_run f (rev mid)) - 1), σ).
Proof using Hoff Hblk.
  revert post fuel end_pos.
  induction mid as [|c mid IH] using rev_ind;
    intros post fuel end_pos Hp Hb Hs He Hfuel;
    (destruct fuel as [|fuel]; [simpl in Hfuel; lia|]); cbn [trim_end_loop].
  - rewrite bool_decide_eq_false_2 by (simpl in He; lia).
    unfold ret. do 2 f_equal. apply pointer_eq; [exact Hb|].
    simpl in *. lia.
  - rewrite length_app in He, Hfuel. simpl in He, Hfuel.
    rewrite bool_decide_eq_true_2 by lia.
    erewrite bind_step; cycle 1.
    { eapply (load_char_data _ s _ _ _ Hoff Hblk _
                (Z.of_nat (length pre + length mid)) Hb); [lia|lia|].
      rewrite Hp, <- app_assoc, app_assoc. apply region_char_at.
      rewrite length_app. reflexivity. }
    rewrite rev_app_distr. cbn [rev app leading_run].
    unfold f at 1, in_cut_set.
    pose proof (leading_run_le f (rev mid)) as Hle.
    rewrite length_rev in Hle.
    destruct (strchr cut_set c) as [k|].
    + erewrite (IH (c :: post)).
      * do 3 f_equal. rewrite length_app. simpl. lia.
      * rewrite Hp, <- app_assoc. reflexivity.
      * exact Hb.
      * exact Hs.
      * cbn [p_off ptr_add]. lia.
      * lia.
    + unfold ret. do 2 f_equal. apply pointer_eq; [exact Hb|].
      rewrite length_app. simpl. lia.
Qed.
End trim_loops.

(** The end of [gb_trim_string]: the surviving [n] bytes, found at offset
    [k], are moved to the front and terminated. *)
Lemma trim_tail σ s len cap payload slack (start_pos : pointer) (k n : nat) :
  is_buffer σ s len cap payload slack ->
  (k + n <= length payload)%nat ->
  p_blk start_pos = p_blk s ->
  p_off start_pos = header_size + Z.of_nat k ->
  ((if bool_decide (s <> start_pos)
    then memmove s start_pos (Z.of_nat n) else ret tt);;
   store_char (s +ₚ Z.of_nat n) x00;;
   gb_set_string_length s (Z.of_nat n);;
   ret s) σ
  = Some (s, set_buf σ s (Z.of_nat n) cap
               (region (take n (drop k payload))
                       (drop (n + 1) (region payload slack)))).
Proof.
  intros [Hoff Hblk Hlen Hcap Hfit] Hkn Hb Ho.
  set (data := region payload slack) in *.
  set (moved := take n (drop k payload)).
  assert (Hmoved : length moved = n)
    by (unfold moved; rewrite length_take, length_drop; lia).
  assert (Hdata : Z.of_nat (length data)
                  = Z.of_nat (length payload) + 1 + Z.of_nat (length slack))
    by apply length_region.
  assert (Hread : blk_read data (Z.of_nat k) (Z.of_nat n)
                  = Some (cells_of_bytes moved)).
  { rewrite blk_read_at by lia. f_equal. rewrite !Nat2Z.id.
    unfold data, region, moved.
    rewrite cells_of_bytes_take, drop_app_le, take_app_le.
    - unfold cells_of_bytes. rewrite skipn_map. reflexivity.
    - rewrite length_drop, length_cells_of_bytes. lia.
    - rewrite length_cells_of_bytes. lia. }
  erewrite (bind_step _ _ _
              (set_buf σ s len cap (cells_of_bytes moved ++ drop n data)));
    cycle 1.
  { case_bool_decide as Hne.
    - unfold memmove.
      erewrite bind_step;
        [|exact (load_cells_data _ s _ _ _ Hoff Hblk _ _ Hb Ho
                   (Nat2Z.is_nonneg k) _ _ Hread)].
      eapply (store_cells_data _ s _ _ _ Hoff Hblk s 0);
        [reflexivity|lia|lia|].
      rewrite blk_write_at by (rewrite ?length_cells_of_bytes; lia).
      rewrite length_cells_of_bytes, Hmoved. reflexivity.
    - assert (k = 0%nat) as ->.
      { subst start_pos. lia. }
      unfold ret. do 2 f_equal. symmetry.
      replace (cells_of_bytes moved ++ drop n data) with data.
      + apply set_buf_same. exact Hblk.
      + rewrite <- (take_drop n data) at 1. f_equal.
        unfold moved, data, region. rewrite drop_0, cells_of_bytes_take.
        apply take_app_le. rewrite length_cells_of_bytes. lia. }
  unfold store_char.
  erewrite bind_step; cycle 1.
  { eapply (store_cells_data _ s _ _ _ Hoff (set_buf_lookup _ _ _ _ _)
              _ (Z.of_nat n)); [reflexivity|cbn [p_off ptr_add]; lia|lia|].
    rewrite <- (take_drop 1 (drop n data)).
    apply blk_write_app.
    - rewrite length_cells_of_bytes. lia.
    - rewrite length_take, length_drop. cbn [length]. lia. }
  erewrite bind_step; cycle 1.
  { eapply gb_set_string_length_block; [exact Hoff|apply set_buf_lookup]. }
  unfold ret. rewrite !set_buf_twice, drop_drop. reflexivity.
Qed.

(** Trim: the code computes the specification's function, in place. *)
Lemma gb_trim_string_buffer σ s len cap payload slack cut_set :
  is_buffer σ s len cap payload slack ->
  gb_trim_string s cut_set σ
  = Some (s, set_buf σ s (Z.of_nat (length (trim_spec cut_set payload))) cap
               (region (trim_spec cut_set payload)
                  (drop (length (trim_spec cut_set payload) + 1)
                        (region payload slack)))).
Proof.
  intros B. pose proof (is_buffer_bounds _ _ _ _ _ _ B) as Hb.
  unfold gb_trim_string.
  step (gb_string_length_buffer _ _ _ _ _ _ B).
  pose proof B as [Hoff Hblk Hlen Hcap Hfit].
  set (f := in_cut_set cut_set).
  set (k := leading_run f payload).
  pose proof (leading_run_le f payload) as Hk. fold k in Hk.
  erewrite bind_step; cycle 1.
  { eapply (trim_start_loop_run _ s _ _ _ _ _ Hoff Hblk payload []);
      [reflexivity|reflexivity|cbn [length]; lia|cbn [p_off ptr_add]|lia]. lia. }
  cbv zeta. fold f. fold k. rewrite Nat.add_0_l.
  rewrite trim_spec_span. cbv zeta. fold f. fold k.
  pose proof (take_drop k payload) as Hsplit.
  destruct (drop k payload) as [|x l] eqn:Erest.
  - assert (Hkl : k = length payload).
    { apply (f_equal length) in Erest. rewrite length_drop in Erest.
      simpl in Erest. lia. }
    cbn [trim_end_loop].
    rewrite bool_decide_eq_false_2 by (cbn [p_off ptr_add]; lia).
    rewrite bind_ret.
    rewrite (bool_decide_eq_true_2 (_ > _)) by (cbn [p_off ptr_add]; lia).
    change 0 with (Z.of_nat 0).
    erewrite (trim_tail _ _ _ _ _ _ _ k 0 B); [|lia|reflexivity|reflexivity].
    rewrite Erest. reflexivity.
  - assert (Hx : f x = false).
    { apply (drop_leading_head f payload l).
      rewrite drop_leading_run. exact Erest. }
    assert (Hkl : (k + S (length l))%nat = length payload).
    { apply (f_equal length) in Erest. rewrite length_drop in Erest.
      simpl in Erest. lia. }
    pose proof (leading_run_le f (rev l)) as Hr. rewrite length_rev in Hr.
    assert (Hrun : leading_run f (rev (x :: l)) = leading_run f (rev l))
      by (cbn [rev]; apply leading_run_snoc_stop; exact Hx).
    rewrite Hrun. set (r := leading_run f (rev l)) in *.
    assert (Hpre : length (take k payload ++ [x]) = S k).
    { rewrite length_app, length_take. simpl. lia. }
    erewrite bind_step; cycle 1.
    { eapply (trim_end_loop_run _ s _ _ _ _ _ Hoff Hblk l
                (take k payload ++ [x]) []).
      - rewrite app_nil_r, <- app_assoc. symmetry. exact Hsplit.
      - reflexivity.
      - cbn [p_off]. rewrite Hpre. lia.
      - cbn [p_off ptr_add]. rewrite Hpre. lia.
      - lia. }
    cbv zeta. fold f. fold r. rewrite Hpre. cbn [p_off].
    rewrite (bool_decide_eq_false_2 (_ > _)) by lia.
    replace (wrap _) with (Z.of_nat (length (x :: l) - r)).
    + erewrite (trim_tail _ _ _ _ _ _ _ k _ B);
        [|simpl; lia|reflexivity|reflexivity].
      rewrite Erest. rewrite length_take. simpl length.
      rewrite Nat.min_l by lia. reflexivity.
    + rewrite wrap_small by (simpl length; sizes; lia).
      simpl length. lia.
Qed.

(** ** What a reader sees of a buffer *)

Lemma block_reads_as σ s len cap payload slack :
  p_off s = header_size ->
  heap σ !! p_blk s = Some (raw_block len cap (region payload slack)) ->
  Z.of_nat (length payload) = len ->
  len < usize_modulus -> 0 <= cap < usize_modulus ->
  reads_as σ s len cap payload.
Proof.
  intros Hoff Hblk Hlen Hl Hc.
  split; [|split; [|split]].
  - eapply gb_string_length_block; [exact Hoff|exact Hblk|lia].
  - eapply gb_string_capacity_block; [exact Hoff|exact Hblk|lia].
  - unfold load_bytes.
    erewrite bind_step; cycle 1.
    { eapply (load_cells_data _ s _ _ _ Hoff Hblk s 0); [reflexivity|lia|lia|].
      apply (blk_read_app [] (cells_of_bytes payload)); [reflexivity|].
      rewrite length_cells_of_bytes. lia. }
    rewrite bytes_of_cells_of_bytes. reflexivity.
  - eapply (load_char_data _ s _ _ _ Hoff Hblk _ len);
      [reflexivity|cbn [p_off ptr_add]; lia|lia|].
    apply (blk_read_app (cells_of_bytes payload) [Some x00]); [|reflexivity].
    rewrite length_cells_of_bytes. lia.
Qed.

Lemma is_buffer_reads_as σ s len cap payload slack :
  is_buffer σ s len cap payload slack -> reads_as σ s len cap payload.
Proof.
  intros B. pose proof (is_buffer_bounds _ _ _ _ _ _ B).
  destruct B. eapply block_reads_as; eauto; lia.
Qed.

Lemma is_buffer_le σ s len cap payload slack :
  is_buffer σ s len cap payload slack -> len <= cap.
Proof. intros B. apply (is_buffer_bounds _ _ _ _ _ _ B). Qed.

(** ** Reserve when the size computation wraps around *)

Lemma wrap_once (x : Z) :
  usize_modulus <= x < 2 * usize_modulus -> wrap x = x - usize_modulus.
Proof.
  intros H. unfold wrap. symmetry.
  apply (Z.mod_unique_pos x usize_modulus 1); lia.
Qed.

(** The request is not served: the block is returned as it is, no
    allocation is attempted, and the wrapped total is recorded as the
    capacity. *)
Lemma gb_string_make_space_for_wrap σ s len cap payload slack add :
  is_buffer σ s len cap payload slack ->
  0 <= add < usize_modulus -> cap - len < add ->
  usize_modulus <= header_size + len + add + 1 ->
  gb_string_make_space_for s add σ
  = Some (Some s, set_buf σ s len (wrap (len + add)) (region payload slack)).
Proof.
  intros B Hadd Hroom Hwrap. pose proof (is_buffer_bounds _ _ _ _ _ _ B) as Hb.
  unfold gb_string_make_space_for.
  step (gb_string_length_buffer _ _ _ _ _ _ B).
  step (gb_string_available_space_buffer _ _ _ _ _ _ B).
  rewrite bool_decide_eq_false_2 by lia.
  step (gb_string_length_buffer _ _ _ _ _ _ B).
  destruct B as [Hoff Hblk Hlen Hcap Hfit].
  rewrite (wrap_small (header_size + len + 1)) by (sizes; lia).
  pose proof (wrap_range (len + add)) as Hnew.
  assert (Hsmall : wrap (header_size + wrap (len + add) + 1)
                   < header_size + len + 1).
  { destruct (Z_lt_le_dec (len + add) usize_modulus) as [Hlt|Hge].
    - rewrite (wrap_small (len + add)) by lia.
      rewrite wrap_once by (sizes; lia). sizes. lia.
    - rewrite (wrap_once (len + add)) by (sizes; lia).
      rewrite wrap_small by (sizes; lia). sizes. lia. }
  unfold gb__string_realloc.
  rewrite (bool_decide_eq_true_2 (_ < _)) by exact Hsmall.
  rewrite (bool_decide_eq_true_2 (_ = _)) by reflexivity.
  rewrite bind_ret.
  assert (Hback : s +ₚ - header_size +ₚ header_size = s).
  { symmetry. apply pointer_eq; [reflexivity|]. cbn [p_off ptr_add]. lia. }
  rewrite Hback.
  step (gb_set_string_capacity_block _ _ _ _ _ Hoff Hblk (wrap (len + add))).
  reflexivity.
Qed.

Lemma length_trim_spec_le (cut_set payload : list byte) :
  (length (trim_spec cut_set payload) <= length payload)%nat.
Proof.
  rewrite trim_spec_span. cbv zeta.
  rewrite length_take, length_drop. lia.
Qed.

(** ** Every operation, case by case *)

(** The operation has room: it works in place. *)
Lemma run_op_in_place σ s len cap payload slack o :
  is_buffer σ s len cap payload slack -> op_in_range len o ->
  op_readable o -> grows len cap o = false ->
  exists len' payload' slack',
    run_op o s σ
    = Some (Some s, set_buf σ s len' cap (region payload' slack'))
    /\ is_buffer (set_buf σ s len' cap (region payload' slack')) s
         len' cap payload' slack'.
Proof.
  intros B Hr Hsrc Hg. pose proof (is_buffer_bounds _ _ _ _ _ _ B) as Hb.
  pose proof B as [Hoff Hblk Hlen Hcap Hfit].
  destruct o as [|other n|cstr|n|cut_set];
    cbn [run_op grows op_in_range op_readable] in *.
  - exists 0, [], (drop 1 (region payload slack)). split.
    + step (gb_clear_string_buffer _ _ _ _ _ _ B). reflexivity.
    + apply is_buffer_set_buf; try assumption; [reflexivity|].
      rewrite length_drop. pose proof (length_region payload slack). lia.
  - apply bool_decide_eq_false_1 in Hg. destruct Hr as [Hn _].
    exists (len + n), (payload ++ take (Z.to_nat n) other),
      (drop (Z.to_nat n) slack). split.
    + eapply gb_append_string_length_fit; [exact B|lia|lia].
    + apply is_buffer_set_buf; try assumption.
      * rewrite length_app, length_take. lia.
      * rewrite length_drop. lia.
  - apply bool_decide_eq_false_1 in Hg.
    pose proof (strlen_range cstr) as Hs.
    exists (strlen cstr), (cstr_bytes cstr),
      (drop (Z.to_nat (strlen cstr) + 1) (region payload slack)). split.
    + eapply gb_set_string_fit; [exact B|lia].
    + apply is_buffer_set_buf; try assumption.
      * apply length_cstr_bytes.
      * rewrite length_drop. pose proof (length_region payload slack). lia.
  - apply bool_decide_eq_false_1 in Hg.
    exists len, payload, slack. split.
    + rewrite set_buf_same by exact Hblk.
      apply (gb_string_make_space_for_fit _ _ _ _ _ _ _ B). lia.
    + rewrite set_buf_same by exact Hblk. exact B.
  - pose proof (length_trim_spec_le cut_set payload) as Ht.
    exists (Z.of_nat (length (trim_spec cut_set payload))),
      (trim_spec cut_set payload),
      (drop (length (trim_spec cut_set payload) + 1) (region payload slack)).
    split.
    + step (gb_trim_string_buffer _ _ _ _ _ _ cut_set B). reflexivity.
    + apply is_buffer_set_buf; try assumption; [reflexivity|].
      rewrite length_drop. pose proof (length_region payload slack). lia.
Qed.

(** The operation lacks room and the allocator serves it: the buffer moves
    to a new block of exactly the size needed. *)
Lemma run_op_grow σ s len cap payload slack o :
  is_buffer σ s len cap payload slack -> op_in_range len o ->
  op_readable o ->
  grows len cap o = true -> next_alloc_fails σ = false ->
  exists len' cap' payload' slack',
    run_op o s σ
    = Some (Some (Ptr (next_block σ) header_size),
            moved_buf σ s (next_block σ) len' cap' (region payload' slack'))
    /\ is_buffer
         (moved_buf σ s (next_block σ) len' cap' (region payload' slack'))
         (Ptr (next_block σ) header_size) len' cap' payload' slack'
    /\ cap < cap'.
Proof.
  intros B Hr Hsrc Hg Hok. pose proof (is_buffer_bounds _ _ _ _ _ _ B) as Hb.
  pose proof B as [Hoff Hblk Hlen Hcap Hfit].
  destruct o as [|other n|cstr|n|cut_set];
    cbn [run_op grows op_in_range op_readable] in *;
    try discriminate; apply bool_decide_eq_true_1 in Hg.
  - destruct Hr as [Hn Hr].
    exists (len + n), (len + n), (payload ++ take (Z.to_nat n) other), [].
    split; [|split].
    + eapply gb_append_string_length_grow; [exact B|lia|lia|lia|exact Hok].
    + apply is_buffer_moved_buf.
      * rewrite length_app, length_take. lia.
      * simpl. lia.
      * lia.
    + lia.
  - pose proof (strlen_range cstr) as Hs.
    exists (strlen cstr), (strlen cstr), (cstr_bytes cstr), [].
    split; [|split].
    + eapply gb_set_string_grow; eassumption.
    + apply is_buffer_moved_buf.
      * apply length_cstr_bytes.
      * simpl. lia.
      * lia.
    + lia.
  - destruct Hr as [Hn Hr].
    exists len, (len + n), payload, (replicate (Z.to_nat n) None).
    split; [|split].
    + eapply gb_string_make_space_for_grow; eassumption.
    + apply is_buffer_moved_buf.
      * exact Hlen.
      * rewrite length_replicate. lia.
      * lia.
    + lia.
Qed.

(** The operation lacks room and the allocator refuses: a null result, and
    nothing in the heap has changed. *)
Lemma run_op_fail σ s len cap payload slack o :
  is_buffer σ s len cap payload slack -> op_in_range len o ->
  grows len cap o = true -> next_alloc_fails σ = true ->
  run_op o s σ = Some (None, State (heap σ) (tail (alloc_script σ))).
Proof.
  intros B Hr Hg Hfail.
  destruct o as [|other n|cstr|n|cut_set]; cbn [run_op grows op_in_range] in *;
    try discriminate; apply bool_decide_eq_true_1 in Hg.
  - destruct Hr as [Hn Hr]. eapply gb_append_string_length_fail; eassumption.
  - eapply gb_set_string_fail; eassumption.
  - destruct Hr as [Hn Hr]. eapply gb_string_make_space_for_fail; eassumption.
Qed.

(** An append that reads past its source has no defined result. *)
Lemma run_op_unreadable σ s len cap payload slack o s' σ' :
  is_buffer σ s len cap payload slack -> op_in_range len o ->
  ~ op_readable o ->
  run_op o s σ <> Some (Some s', σ').
Proof.
  intros B Hr Hsrc Hrun.
  destruct o as [|other n|cstr|n|cut_set];
    cbn [run_op op_in_range op_readable] in *; try (apply Hsrc; exact I).
  destruct Hr as [Hn Hr]. revert Hrun. unfold gb_append_string_length.
  step (gb_string_length_buffer _ _ _ _ _ _ B).
  destruct (Z_le_gt_dec n (cap - len)) as [Hroom|Hroom].
  - step (gb_string_make_space_for_fit _ _ _ _ _ _ _ B Hroom).
    unfold memcpy_from. rewrite bool_decide_eq_false_2 by lia. discriminate.
  - assert (Hroom' : cap - len < n) by lia.
    destruct (next_alloc_fails σ) eqn:Ha.
    + step (gb_string_make_space_for_fail _ _ _ _ _ _ _ B Hroom' Hr Ha).
      discriminate.
    + step (gb_string_make_space_for_grow _ _ _ _ _ _ _ B Hroom' Hr Ha).
      unfold memcpy_from. rewrite bool_decide_eq_false_2 by lia. discriminate.
Qed.

Lemma op_readable_dec (o : op) : {op_readable o} + {~ op_readable o}.
Proof.
  destruct o as [|other n|cstr|n|cut_set]; cbn [op_readable];
    try (left; exact I).
  destruct (Z_le_gt_dec n (Z.of_nat (length other))); [left|right]; lia.
Qed.

(** ** Construction, continued *)

Lemma is_buffer_fresh_buf σ id len cap payload slack :
  Z.of_nat (length payload) = len ->
  len + Z.of_nat (length slack) = cap ->
  header_size + cap + 1 < usize_modulus ->
  is_buffer (fresh_buf σ id len cap (region payload slack))
    (Ptr id header_size) len cap payload slack.
Proof.
  intros. split; try assumption; [reflexivity|].
  unfold fresh_buf. simpl. apply lookup_insert_eq.
Qed.

Lemma length_initial_payload init len :
  0 <= len ->
  match init with
  | Some b => len <= Z.of_nat (length b)
  | None => True
  end ->
  Z.of_nat (length (initial_payload init len)) = len.
Proof.
  intros Hlen Hsrc. destruct init as [b|]; simpl.
  - rewrite length_take. lia.
  - rewrite length_replicate. lia.
Qed.

(** Construction that reads past its source has no defined result. *)
Lemma gb_make_string_length_unreadable σ b len :
  header_size + len + 1 < usize_modulus ->
  next_alloc_fails σ = false ->
  Z.of_nat (length b) < len ->
  gb_make_string_length (Some b) len σ = None.
Proof.
  intros Hfit Hok Hsrc. unfold gb_make_string_length, GB_ALLOC.
  rewrite wrap_small by (sizes; lia).
  step (malloc_ok (header_size + len + 1) _ Hok).
  replace (header_size + len + 1)
    with (header_size + Z.of_nat (S (Z.to_nat len))) by lia.
  rewrite bind_ret, fresh_block_header.
  rewrite <- (bind_assoc (store_usize _ _)).
  erewrite bind_step; cycle 1.
  { eapply (write_header _ (next_block σ)); [apply lookup_insert_eq| |];
      rewrite length_replicate; reflexivity. }
  rewrite bool_decide_eq_true_2 by lia.
  unfold memcpy_from. rewrite bool_decide_eq_false_2 by lia. reflexivity.
Qed.

(** When the allocator refuses, construction from a source returns null;
    construction without a source passes the null pointer to [memset]. *)
Lemma gb_make_string_length_fail σ init len :
  next_alloc_fails σ = true ->
  gb_make_string_length init len σ
  = match init with
    | Some _ => Some (None, State (heap σ) (tail (alloc_script σ)))
    | None => None
    end.
Proof.
  intros Hfail. unfold gb_make_string_length, GB_ALLOC.
  step (malloc_fails (wrap (header_size + len + 1)) _ Hfail).
  destruct init; reflexivity.
Qed.

(** ** The shape of a trimmed string *)

Lemma leading_run_all (f : byte -> bool) (l : list byte) :
  Forall (fun c => f c = true) (take (leading_run f l) l).
Proof.
  induction l as [|c l IH]; simpl; [constructor|].
  destruct (f c) eqn:E; simpl; [|constructor].
  constructor; assumption.
Qed.

(** * The claims of the specification *)

(** Concrete hypotheses are settled by evaluation. *)
Ltac by_evaluation := vm_compute; first [reflexivity | discriminate].
Ltac concrete_buffer := split; by_evaluation.

(** ** Invariants *)

(** C1, counterexample.  On the buffer ["Hello"] (length 5, capacity 5),
    reserving [SIZE_MAX] more bytes completes and returns the same handle,
    with length 5 and capacity 4: [length <= capacity] does not hold of the
    result.  The sum [len + add_len] wraps around to 4, the new block size
    is below the old one, [gb__string_realloc] returns the block as it is,
    and the wrapped sum is stored as the capacity. *)
Lemma reserve_size_max_breaks_invariant :
  is_buffer hello_state str1 5 5 hello []
  /\ run_op (OpReserve (usize_modulus - 1)) str1 hello_state
     = Some (Some str1, wrapped_state)
  /\ gb_string_length str1 wrapped_state = Some (5, wrapped_state)
  /\ gb_string_capacity str1 wrapped_state = Some (4, wrapped_state)
  /\ ~ 5 <= 4.
Proof.
  split; [concrete_buffer|].
  split; [by_evaluation|]. split; [by_evaluation|]. split; [by_evaluation|].
  lia.
Qed.

(** C1, as amended.  For every buffer and every completed operation of the
    public surface (construction, clear, append, assign, reserve, trim)
    whose arguments are in range, so that the size of the block it may
    request does not wrap around, the result is a buffer of the data model;
    in particular its length is at most its capacity and the byte at
    [payload[length]] is 0. *)
Theorem invariant_preserved :
  (forall σ init len s' σ',
      0 <= len -> header_size + len + 1 < usize_modulus ->
      gb_make_string_length init len σ = Some (Some s', σ') ->
      exists payload',
        is_buffer σ' s' len len payload' []
        /\ reads_as σ' s' len len payload')
  /\ (forall σ s len cap payload slack o s' σ',
      is_buffer σ s len cap payload slack -> op_in_range len o ->
      run_op o s σ = Some (Some s', σ') ->
      exists len' cap' payload' slack',
        is_buffer σ' s' len' cap' payload' slack'
        /\ reads_as σ' s' len' cap' payload' /\ len' <= cap').
Proof.
  split.
  - intros σ init len s' σ' Hlen Hfit Hrun.
    destruct (next_alloc_fails σ) eqn:Ha.
    { rewrite (gb_make_string_length_fail _ _ _ Ha) in Hrun.
      destruct init; discriminate. }
    assert (Hsrc : match init with
                   | Some b => len <= Z.of_nat (length b)
                   | None => True
                   end).
    { destruct init as [b|]; [|exact I].
      destruct (Z_le_gt_dec len (Z.of_nat (length b))) as [Hle|Hgt];
        [exact Hle|].
      rewrite gb_make_string_length_unreadable in Hrun by (assumption || lia).
      discriminate. }
    rewrite (gb_make_string_length_ok _ _ _ Hlen Hfit Ha Hsrc) in Hrun.
    injection Hrun as <- <-.
    exists (initial_payload init len).
    assert (B : is_buffer
                  (fresh_buf σ (next_block σ) len len
                     (region (initial_payload init len) []))
                  (Ptr (next_block σ) header_size) len len
                  (initial_payload init len) []).
    { apply is_buffer_fresh_buf; [|simpl; lia|exact Hfit].
      apply length_initial_payload; assumption. }
    split; [exact B|]. eapply is_buffer_reads_as. exact B.
  - intros σ s len cap payload slack o s' σ' B Hr Hrun.
    destruct (op_readable_dec o) as [Hsrc|Hsrc];
      [|destruct (run_op_unreadable _ _ _ _ _ _ _ _ _ B Hr Hsrc Hrun)].
    assert (exists len' cap' payload' slack',
               is_buffer σ' s' len' cap' payload' slack')
      as (len' & cap' & payload' & slack' & B').
    { destruct (grows len cap o) eqn:Hg.
      - destruct (next_alloc_fails σ) eqn:Ha.
        + rewrite (run_op_fail _ _ _ _ _ _ _ B Hr Hg Ha) in Hrun. discriminate.
        + destruct (run_op_grow _ _ _ _ _ _ _ B Hr Hsrc Hg Ha)
            as (len' & cap' & payload' & slack' & Heq & B' & _).
          rewrite Heq in Hrun. injection Hrun as <- <-. eauto.
      - destruct (run_op_in_place _ _ _ _ _ _ _ B Hr Hsrc Hg)
          as (len' & payload' & slack' & Heq & B').
        rewrite Heq in Hrun. injection Hrun as <- <-. eauto. }
    exists len', cap', payload', slack'.
    split; [exact B'|]. split.
    + eapply is_buffer_reads_as. exact B'.
    + eapply is_buffer_le. exact B'.
Qed.

Lemma invariant_preserved_witness :
  (is_buffer hello_state str1 5 5 hello []
   /\ op_in_range 5 (OpAppend comma 2)
   /\ run_op (OpAppend comma 2) str1 hello_state
      = Some (Some str2, appended_state))
  /\ exists len' cap' payload' slack',
      is_buffer appended_state str2 len' cap' payload' slack'
      /\ reads_as appended_state str2 len' cap' payload' /\ len' <= cap'.
Proof.
  assert (H : is_buffer hello_state str1 5 5 hello []
              /\ op_in_range 5 (OpAppend comma 2)
              /\ run_op (OpAppend comma 2) str1 hello_state
                 = Some (Some str2, appended_state)).
  { split; [concrete_buffer|]. split; [|by_evaluation].
    split; by_evaluation. }
  split; [exact H|].
  destruct H as (B & Hr & Hrun).
  exact (proj2 invariant_preserved _ _ _ _ _ _ _ _ _ B Hr Hrun).
Defined.

(** C9, counterexample.  On the buffer ["Hello"] (capacity 5), reserving
    [SIZE_MAX - 4] more bytes succeeds, returns a live handle, and leaves a
    capacity of 0: the capacity has decreased. *)
Lemma reserve_wraparound_lowers_capacity :
  is_buffer hello_state str1 5 5 hello []
  /\ run_op (OpReserve (usize_modulus - 5)) str1 hello_state
     = Some (Some str1, shrunk_state)
  /\ gb_string_capacity str1 hello_state = Some (5, hello_state)
  /\ gb_string_capacity str1 shrunk_state = Some (0, shrunk_state)
  /\ ~ 0 >= 5.
Proof.
  split; [concrete_buffer|].
  split; [by_evaluation|]. split; [by_evaluation|]. split; [by_evaluation|].
  lia.
Qed.

(** C9, as amended.  Across every successful operation (append, assign,
    reserve, trim, clear) whose arguments are in range, so that the size of
    the block it may request does not wrap around, the capacity of the
    returned buffer is at least the capacity of the input buffer; it is
    strictly greater exactly when the operation lacks room and reserve
    reallocates, which is also exactly when the returned handle differs
    from the one passed in. *)
Theorem capacity_monotone σ s len cap payload slack o s' σ' :
  is_buffer σ s len cap payload slack -> op_in_range len o ->
  run_op o s σ = Some (Some s', σ') ->
  exists cap',
    gb_string_capacity s' σ' = Some (cap', σ')
    /\ cap <= cap'
    /\ (cap < cap' <-> grows len cap o = true)
    /\ (s' <> s <-> grows len cap o = true).
Proof.
  intros B Hr Hrun.
  destruct (op_readable_dec o) as [Hsrc|Hsrc];
    [|destruct (run_op_unreadable _ _ _ _ _ _ _ _ _ B Hr Hsrc Hrun)].
  destruct (grows len cap o) eqn:Hg.
  - destruct (next_alloc_fails σ) eqn:Ha.
    + rewrite (run_op_fail _ _ _ _ _ _ _ B Hr Hg Ha) in Hrun. discriminate.
    + destruct (run_op_grow _ _ _ _ _ _ _ B Hr Hsrc Hg Ha)
        as (len' & cap' & payload' & slack' & Heq & B' & Hlt).
      rewrite Heq in Hrun. injection Hrun as <- <-.
      exists cap'. split; [eapply gb_string_capacity_buffer; exact B'|].
      split; [lia|]. split; [tauto|]. split; [reflexivity|]. intros _ E.
      destruct B as [_ Hblk _ _ _].
      apply (next_block_ne _ _ _ Hblk). rewrite <- E. reflexivity.
  - destruct (run_op_in_place _ _ _ _ _ _ _ B Hr Hsrc Hg)
      as (len' & payload' & slack' & Heq & B').
    rewrite Heq in Hrun. injection Hrun as <- <-.
    exists cap. split; [eapply gb_string_capacity_buffer; exact B'|].
    split; [lia|]. split; split; intros H; try discriminate; [lia|].
    contradiction H. reflexivity.
Qed.

Lemma capacity_monotone_witness :
  (is_buffer hello_state str1 5 5 hello []
   /\ op_in_range 5 (OpAppend comma 2)
   /\ run_op (OpAppend comma 2) str1 hello_state
      = Some (Some str2, appended_state))
  /\ exists cap',
      gb_string_capacity str2 appended_state = Some (cap', appended_state)
      /\ 5 <= cap'
      /\ (5 < cap' <-> grows 5 5 (OpAppend comma 2) = true)
      /\ (str2 <> str1 <-> grows 5 5 (OpAppend comma 2) = true).
Proof.
  assert (H : is_buffer hello_state str1 5 5 hello []
              /\ op_in_range 5 (OpAppend comma 2)
              /\ run_op (OpAppend comma 2) str1 hello_state
                 = Some (Some str2, appended_state)).
  { split; [concrete_buffer|]. split; [|by_evaluation].
    split; by_evaluation. }
  split; [exact H|].
  destruct H as (B & Hr & Hrun).
  exact (capacity_monotone _ _ _ _ _ _ _ _ _ B Hr Hrun).
Defined.

(** ** Allocation failure *)

(** C3.  When reserve, append or assign lacks room and the allocation the
    reserve step makes is refused, the operation returns the null handle and
    the heap is what it was: the caller's buffer is still live, it reads
    with the same length, capacity and payload, and it can be released. *)
Theorem allocation_failure_keeps_buffer σ s len cap payload slack o :
  is_buffer σ s len cap payload slack -> op_in_range len o ->
  grows len cap o = true -> next_alloc_fails σ = true ->
  exists σ',
    run_op o s σ = Some (None, σ')
    /\ heap σ' = heap σ
    /\ is_buffer σ' s len cap payload slack
    /\ reads_as σ' s len cap payload
    /\ exists σ'', gb_free_string (Some s) σ' = Some (tt, σ'')
                  /\ heap σ'' = delete (p_blk s) (heap σ).
Proof.
  intros B Hr Hg Ha.
  exists (State (heap σ) (tail (alloc_script σ))).
  assert (B' : is_buffer (State (heap σ) (tail (alloc_script σ))) s
                 len cap payload slack)
    by (destruct B; split; assumption).
  split; [eapply run_op_fail; eassumption|].
  split; [reflexivity|]. split; [exact B'|].
  split; [eapply is_buffer_reads_as; exact B'|].
  destruct B as [Hoff Hblk _ _ _].
  eexists. split.
  - unfold gb_free_string, GB_FREE.
    erewrite free_block; [reflexivity|exact Hblk|].
    cbn [p_off ptr_add]. lia.
  - reflexivity.
Qed.

Lemma allocation_failure_keeps_buffer_witness :
  (is_buffer (starved hello_state) str1 5 5 hello []
   /\ op_in_range 5 (OpAppend comma 2)
   /\ grows 5 5 (OpAppend comma 2) = true
   /\ next_alloc_fails (starved hello_state) = true)
  /\ exists σ',
      run_op (OpAppend comma 2) str1 (starved hello_state) = Some (None, σ')
      /\ heap σ' = heap (starved hello_state)
      /\ is_buffer σ' str1 5 5 hello []
      /\ reads_as σ' str1 5 5 hello
      /\ exists σ'', gb_free_string (Some str1) σ' = Some (tt, σ'')
                    /\ heap σ'' = delete (p_blk str1) (heap (starved hello_state)).
Proof.
  assert (H : is_buffer (starved hello_state) str1 5 5 hello []
              /\ op_in_range 5 (OpAppend comma 2)
              /\ grows 5 5 (OpAppend comma 2) = true
              /\ next_alloc_fails (starved hello_state) = true).
  { split; [concrete_buffer|]. split; [split; by_evaluation|].
    split; by_evaluation. }
  split; [exact H|].
  destruct H as (B & Hr & Hg & Ha).
  exact (allocation_failure_keeps_buffer _ _ _ _ _ _ _ B Hr Hg Ha).
Defined.

(** ** Reserve *)

(** C2, counterexample.  On the buffer ["Hello"] (length 5, capacity 5, no
    room available), reserving [SIZE_MAX - 1] more bytes succeeds and
    returns a live handle whose capacity is 3, which is not
    [length + additional]: the sum wraps around, no block is allocated, and
    the wrapped sum is stored in the header. *)
Lemma reserve_capacity_is_the_wrapped_sum :
  is_buffer hello_state str1 5 5 hello []
  /\ gb_string_available_space str1 hello_state = Some (0, hello_state)
  /\ ~ 0 >= usize_modulus - 2
  /\ gb_string_make_space_for str1 (usize_modulus - 2) hello_state
     = Some (Some str1, overdrawn_state)
  /\ gb_string_capacity str1 overdrawn_state = Some (3, overdrawn_state)
  /\ 3 <> 5 + (usize_modulus - 2).
Proof.
  split; [concrete_buffer|].
  split; [by_evaluation|]. split; [rewrite usize_modulus_eq; lia|].
  split; [by_evaluation|]. split; [by_evaluation|].
  rewrite usize_modulus_eq. lia.
Qed.

(** C2, as amended.  For every buffer and every additional count, reserve
    returns the buffer and the state unchanged, without a request to the
    allocator, when [available >= additional].  Otherwise, provided
    [header_size + length + additional + 1] does not wrap around, it
    returns null exactly when the allocator refuses, and on success it
    returns a buffer in a new block whose capacity is exactly
    [length + additional], with [additional] indeterminate bytes of slack
    and nothing more, and with the length and the [length] payload bytes
    unchanged. *)
Theorem reserve_spec σ s len cap payload slack add :
  is_buffer σ s len cap payload slack -> 0 <= add < usize_modulus ->
  gb_string_available_space s σ = Some (cap - len, σ)
  /\ (cap - len >= add ->
      gb_string_make_space_for s add σ = Some (Some s, σ))
  /\ (cap - len < add -> header_size + len + add + 1 < usize_modulus ->
      exists r σ',
        gb_string_make_space_for s add σ = Some (r, σ')
        /\ (r = None <-> next_alloc_fails σ = true)
        /\ forall s', r = Some s' ->
             s' = Ptr (next_block σ) header_size
             /\ is_buffer σ' s' len (len + add) payload
                  (replicate (Z.to_nat add) None)
             /\ reads_as σ' s' len (len + add) payload).
Proof.
  intros B Hadd. pose proof (is_buffer_bounds _ _ _ _ _ _ B) as Hb.
  split; [eapply gb_string_available_space_buffer; exact B|].
  split; [intros Hroom; eapply gb_string_make_space_for_fit; [exact B|lia]|].
  intros Hroom Hfit. destruct (next_alloc_fails σ) eqn:Ha.
  - do 2 eexists. split; [|split].
    + eapply gb_string_make_space_for_fail; eassumption.
    + split; reflexivity.
    + intros s' [=].
  - do 2 eexists. split; [|split].
    + eapply gb_string_make_space_for_grow; eassumption.
    + split; discriminate.
    + intros s' [= <-].
      assert (B' : is_buffer
                     (moved_buf σ s (next_block σ) len (len + add)
                        (region payload (replicate (Z.to_nat add) None)))
                     (Ptr (next_block σ) header_size) len (len + add)
                     payload (replicate (Z.to_nat add) None)).
      { destruct B as [_ _ Hlen _ _]. apply is_buffer_moved_buf.
        - exact Hlen.
        - rewrite length_replicate. lia.
        - lia. }
      split; [reflexivity|]. split; [exact B'|].
      eapply is_buffer_reads_as. exact B'.
Qed.

Lemma reserve_spec_witness :
  (is_buffer hello_state str1 5 5 hello [] /\ 0 <= 3 < usize_modulus)
  /\ gb_string_available_space str1 hello_state = Some (5 - 5, hello_state)
  /\ (5 - 5 >= 3 ->
      gb_string_make_space_for str1 3 hello_state
      = Some (Some str1, hello_state))
  /\ (5 - 5 < 3 -> header_size + 5 + 3 + 1 < usize_modulus ->
      exists r σ',
        gb_string_make_space_for str1 3 hello_state = Some (r, σ')
        /\ (r = None <-> next_alloc_fails hello_state = true)
        /\ forall s', r = Some s' ->
             s' = Ptr (next_block hello_state) header_size
             /\ is_buffer σ' s' 5 (5 + 3) hello (replicate (Z.to_nat 3) None)
             /\ reads_as σ' s' 5 (5 + 3) hello).
Proof.
  assert (H : is_buffer hello_state str1 5 5 hello []
              /\ 0 <= 3 < usize_modulus).
  { split; [concrete_buffer|]. split; by_evaluation. }
  split; [exact H|].
  destruct H as (B & Hadd).
  exact (reserve_spec _ _ _ _ _ _ _ B Hadd).
Defined.

(** ** Construction *)

(** C4, counterexample.  Construction from the null source with
    [len = SIZE_MAX]: the size [header_size + len + 1] wraps around to
    [header_size], the allocator serves a block of 16 bytes, which has room
    for the header alone, and the terminator at offset [len] lies outside
    it: the call has no defined result, and no buffer of capacity [len]. *)
Lemma make_size_max_has_no_buffer :
  0 <= usize_modulus - 1 < usize_modulus
  /\ next_alloc_fails state0 = false
  /\ wrap (header_size + (usize_modulus - 1) + 1) = header_size
  /\ GB_ALLOC (wrap (header_size + (usize_modulus - 1) + 1)) state0
     = Some (Some (Ptr 1 0), header_only_state)
  /\ heap header_only_state !! 1%positive
     = Some (replicate (Z.to_nat header_size) None)
  /\ gb_make_string_length None (usize_modulus - 1) state0 = None.
Proof.
  split; [rewrite usize_modulus_eq; lia|].
  split; [by_evaluation|]. split; [by_evaluation|]. split; [by_evaluation|].
  split; by_evaluation.
Qed.

(** C4, as amended.  For every byte sequence [b] of length [len], and for
    the null source and every [len], such that [header_size + len + 1] does
    not wrap around, construction yields, when the allocator serves the
    request, a buffer with length [len], capacity [len] and no slack,
    payload [b] and the terminator at offset [len]; from the null source
    the payload is [len] zero bytes. *)
Theorem make_string_length_spec σ b len :
  next_alloc_fails σ = false ->
  0 <= len -> header_size + len + 1 < usize_modulus ->
  (Z.of_nat (length b) = len ->
   exists σ',
     gb_make_string_length (Some b) len σ
     = Some (Some (Ptr (next_block σ) header_size), σ')
     /\ is_buffer σ' (Ptr (next_block σ) header_size) len len b []
     /\ reads_as σ' (Ptr (next_block σ) header_size) len len b)
  /\ (exists σ',
       gb_make_string_length None len σ
       = Some (Some (Ptr (next_block σ) header_size), σ')
       /\ is_buffer σ' (Ptr (next_block σ) header_size) len len
            (replicate (Z.to_nat len) x00) []
       /\ reads_as σ' (Ptr (next_block σ) header_size) len len
            (replicate (Z.to_nat len) x00)).
Proof.
  intros Ha Hlen Hfit. split.
  - intros Hb.
    assert (Hpayload : initial_payload (Some b) len = b).
    { simpl. apply take_ge. lia. }
    assert (B : is_buffer (fresh_buf σ (next_block σ) len len (region b []))
                  (Ptr (next_block σ) header_size) len len b [])
      by (apply is_buffer_fresh_buf; [exact Hb|simpl; lia|exact Hfit]).
    eexists. split; [|split; [exact B|eapply is_buffer_reads_as; exact B]].
    rewrite <- Hpayload at 2.
    apply gb_make_string_length_ok; try assumption. simpl. lia.
  - assert (B : is_buffer
                  (fresh_buf σ (next_block σ) len len
                     (region (replicate (Z.to_nat len) x00) []))
                  (Ptr (next_block σ) header_size) len len
                  (replicate (Z.to_nat len) x00) []).
    { apply is_buffer_fresh_buf; [|simpl; lia|exact Hfit].
      rewrite length_replicate. lia. }
    eexists. split; [|split; [exact B|eapply is_buffer_reads_as; exact B]].
    apply (gb_make_string_length_ok σ None); try assumption. exact I.
Qed.

Lemma make_string_length_spec_witness :
  (next_alloc_fails state0 = false
   /\ 0 <= 5 /\ header_size + 5 + 1 < usize_modulus)
  /\ (Z.of_nat (length hello) = 5 ->
      exists σ',
        gb_make_string_length (Some hello) 5 state0
        = Some (Some (Ptr (next_block state0) header_size), σ')
        /\ is_buffer σ' (Ptr (next_block state0) header_size) 5 5 hello []
        /\ reads_as σ' (Ptr (next_block state0) header_size) 5 5 hello)
  /\ (exists σ',
       gb_make_string_length None 5 state0
       = Some (Some (Ptr (next_block state0) header_size), σ')
       /\ is_buffer σ' (Ptr (next_block state0) header_size) 5 5
            (replicate (Z.to_nat 5) x00) []
       /\ reads_as σ' (Ptr (next_block state0) header_size) 5 5
            (replicate (Z.to_nat 5) x00)).
Proof.
  assert (H : next_alloc_fails state0 = false
              /\ 0 <= 5 /\ header_size + 5 + 1 < usize_modulus)
    by (split; [|split]; by_evaluation).
  split; [exact H|].
  destruct H as (Ha & Hlen & Hfit).
  exact (make_string_length_spec state0 hello 5 Ha Hlen Hfit).
Defined.

(** ** Append *)

(** C10.  Appending zero bytes to a buffer succeeds, returns the handle it
    was given, and leaves the whole state as it was: no request reaches the
    allocator, and the payload, the length and the capacity are unchanged. *)
Theorem append_nothing σ s len cap payload slack other :
  is_buffer σ s len cap payload slack ->
  gb_append_string_length s other 0 σ = Some (Some s, σ)
  /\ reads_as σ s len cap payload.
Proof.
  intros B. pose proof (is_buffer_bounds _ _ _ _ _ _ B) as Hb.
  split; [|eapply is_buffer_reads_as; exact B].
  erewrite gb_append_string_length_fit; [|exact B|lia|lia].
  change (Z.to_nat 0) with 0%nat.
  rewrite take_0, drop_0, app_nil_r, Z.add_0_r.
  destruct B as [_ Hblk _ _ _]. rewrite set_buf_same by exact Hblk.
  reflexivity.
Qed.

Lemma append_nothing_witness :
  is_buffer hello_state str1 5 5 hello []
  /\ gb_append_string_length str1 comma 0 hello_state
     = Some (Some str1, hello_state)
  /\ reads_as hello_state str1 5 5 hello.
Proof.
  assert (B : is_buffer hello_state str1 5 5 hello []) by concrete_buffer.
  split; [exact B|].
  exact (append_nothing _ _ _ _ _ _ comma B).
Defined.

(** ** Trim *)

Lemma drop_leading_all (f : byte -> bool) (l : list byte) :
  Forall (fun c => f c = true) l -> drop_leading f l = [].
Proof.
  induction 1 as [|c l Hc _ IH]; simpl; [reflexivity|].
  rewrite Hc. exact IH.
Qed.

Lemma drop_region_slack (payload : list byte) (slack : list cell) :
  drop (length payload + 1) (region payload slack) = slack.
Proof.
  unfold region.
  rewrite drop_app_add' by (symmetry; apply length_cells_of_bytes).
  reflexivity.
Qed.

(** What [gb_trim_string] does to a buffer, in the terms of the data
    model. *)
Lemma gb_trim_string_is_buffer σ s len cap payload slack cut_set :
  is_buffer σ s len cap payload slack ->
  exists σ' slack',
    gb_trim_string s cut_set σ = Some (s, σ')
    /\ σ' = set_buf σ s (Z.of_nat (length (trim_spec cut_set payload))) cap
              (region (trim_spec cut_set payload) slack')
    /\ is_buffer σ' s (Z.of_nat (length (trim_spec cut_set payload))) cap
         (trim_spec cut_set payload) slack'.
Proof.
  intros B. pose proof (length_trim_spec_le cut_set payload) as Ht.
  do 2 eexists. split; [|split; [reflexivity|]].
  - eapply gb_trim_string_buffer. exact B.
  - destruct B as [Hoff Hblk Hlen Hcap Hfit].
    apply is_buffer_set_buf; try assumption; [reflexivity|].
    rewrite length_drop. pose proof (length_region payload slack). lia.
Qed.

(** What the two cursors of [gb_trim_string] remove, in the terms of the
    membership test the code makes. *)
Lemma gb_trim_string_runs σ s len cap payload slack cut_set :
  is_buffer σ s len cap payload slack ->
  exists σ' slack' lead trail,
    gb_trim_string s cut_set σ = Some (s, σ')
    /\ is_buffer σ' s (Z.of_nat (length (trim_spec cut_set payload))) cap
         (trim_spec cut_set payload) slack'
    /\ alloc_script σ' = alloc_script σ
    /\ trim_start_loop (S (Z.to_nat len)) cut_set s (s +ₚ len +ₚ (-1)) σ
       = Some (Ptr (p_blk s) (header_size + Z.of_nat (length lead)), σ)
    /\ payload = lead ++ trim_spec cut_set payload ++ trail
    /\ Forall (fun c => in_cut_set cut_set c = true) lead
    /\ Forall (fun c => in_cut_set cut_set c = true) trail.
Proof.
  intros B.
  destruct (gb_trim_string_is_buffer _ _ _ _ _ _ cut_set B)
    as (σ' & slack' & Hrun & Hσ' & B').
  set (f := in_cut_set cut_set).
  set (rest := drop (leading_run f payload) payload).
  exists σ', slack', (take (leading_run f payload) payload),
    (drop (length rest - leading_run f (rev rest)) rest).
  pose proof (leading_run_le f payload) as Hk.
  split; [exact Hrun|]. split; [exact B'|].
  split; [rewrite Hσ'; reflexivity|].
  split.
  { destruct B as [Hoff Hblk Hlen Hcap Hfit].
    erewrite (trim_start_loop_run _ s _ _ _ _ _ Hoff Hblk payload []);
      [|reflexivity|reflexivity|cbn [length]; lia
       |cbn [p_off ptr_add]; lia|lia].
    cbv zeta. rewrite length_take, Nat.min_l by exact Hk. reflexivity. }
  split.
  { rewrite trim_spec_span. cbv zeta. fold f. fold rest.
    rewrite take_drop. unfold rest. rewrite take_drop. reflexivity. }
  split; [apply leading_run_all|].
  pose proof (leading_run_all f (rev rest)) as Hall.
  rewrite firstn_rev in Hall. apply Forall_rev in Hall.
  rewrite rev_involutive in Hall. exact Hall.
Qed.

Lemma cstr_bytes_cons (x : byte) (s : list byte) :
  cstr_bytes (x :: s) = if decide (x = x00) then [] else x :: cstr_bytes s.
Proof.
  unfold cstr_bytes. simpl. destruct (decide (x = x00)); [reflexivity|].
  pose proof (strlen_range s) as R.
  replace (Z.to_nat (1 + strlen s)) with (S (Z.to_nat (strlen s))) by lia.
  reflexivity.
Qed.

(** What [strchr] finds in the cut set: the bytes it lists, and the zero
    byte that ends it. *)
Lemma in_cut_set_iff (cut_set : list byte) (c : byte) :
  in_cut_set cut_set c = true <-> c ∈ cstr_bytes cut_set \/ c = x00.
Proof.
  unfold in_cut_set. induction cut_set as [|x cut_set IH]; cbn [strchr].
  - change (cstr_bytes []) with (@nil byte).
    destruct (decide (c = x00)) as [E|E]; split;
      [right; exact E|reflexivity|discriminate|].
    intros [H|H]; [apply elem_of_nil in H; contradiction|contradiction].
  - rewrite cstr_bytes_cons.
    destruct (decide (x = c)) as [->|Hxc].
    { split; [intros _|reflexivity].
      destruct (decide (c = x00)) as [E|E]; [right; exact E|].
      left. apply list_elem_of_here. }
    destruct (decide (x = x00)) as [->|Hx0].
    { split; [discriminate|].
      intros [H|H]; [apply elem_of_nil in H; contradiction|].
      contradiction Hxc. symmetry. exact H. }
    destruct (strchr cut_set c) as [i|]; cbn [fmap option_fmap option_map] in *.
    + split; [intros _|reflexivity].
      destruct (proj1 IH eq_refl) as [H|H]; [left|right; exact H].
      apply list_elem_of_further. exact H.
    + split; [discriminate|]. intros [H|H]; apply IH.
      * apply elem_of_cons in H. destruct H as [H|H]; [|left; exact H].
        contradiction Hxc. symmetry. exact H.
      * right. exact H.
Qed.

Lemma in_cut_set_listed (cut_set : list byte) (c : byte) :
  in_cut_set cut_set c = listed_or_zero cut_set c.
Proof.
  apply Bool.eq_iff_eq_true. rewrite in_cut_set_iff.
  unfold listed_or_zero, listed_in.
  rewrite Bool.orb_true_iff, !bool_decide_eq_true. reflexivity.
Qed.

Lemma drop_leading_ext (f g : byte -> bool) (l : list byte) :
  Forall (fun c => f c = g c) l -> drop_leading f l = drop_leading g l.
Proof.
  induction 1 as [|c l Hc _ IH]; simpl; [reflexivity|].
  rewrite Hc. destruct (g c); [exact IH|reflexivity].
Qed.

Lemma Forall_drop_leading (P : byte -> Prop) (f : byte -> bool)
    (l : list byte) :
  Forall P l -> Forall P (drop_leading f l).
Proof.
  induction 1 as [|c l Hc Hl IH]; simpl; [constructor|].
  destruct (f c); [exact IH|constructor; assumption].
Qed.

Lemma trim_by_ext (f g : byte -> bool) (l : list byte) :
  Forall (fun c => f c = g c) l -> trim_by f l = trim_by g l.
Proof.
  intros H. unfold trim_by. rewrite (drop_leading_ext f g l H). f_equal.
  apply drop_leading_ext, Forall_rev, Forall_drop_leading. exact H.
Qed.

Lemma trim_spec_listed (cut_set payload : list byte) :
  trim_spec cut_set payload = trim_by (listed_or_zero cut_set) payload.
Proof.
  change (trim_spec cut_set payload) with (trim_by (in_cut_set cut_set) payload).
  apply trim_by_ext, Forall_forall. intros c _. apply in_cut_set_listed.
Qed.

(** C5, counterexample.  The payload 00 61 00 and the empty cut set, which
    lists no byte: a trim of the listed bytes removes nothing, but
    [gb_trim_string] returns the single byte 61.  The two zero bytes it
    removes are not bytes of the cut set. *)
Lemma trim_removes_unlisted_zero_bytes :
  is_buffer zeros_state str1 3 3 zeros_input []
  /\ cstr_bytes [] = []
  /\ listed_in [] x00 = false
  /\ trim_listed [] zeros_input = zeros_input
  /\ gb_trim_string str1 [] zeros_state = Some (str1, zeros_trimmed_state)
  /\ reads_as zeros_trimmed_state str1 1 3 [x61]
  /\ [x61] <> trim_listed [] zeros_input.
Proof.
  split; [concrete_buffer|].
  split; [by_evaluation|]. split; [by_evaluation|]. split; [by_evaluation|].
  split; [by_evaluation|]. split; [repeat split; by_evaluation|].
  by_evaluation.
Qed.

(** C5, as amended.  For every buffer and cut set, trim returns the handle
    it was given, in a state where the buffer holds the payload without its
    maximal leading run and its maximal trailing run of bytes that are
    listed in the cut set or are the zero byte, moved to offset 0 and
    terminated: the start cursor stops just after the leading run, the
    payload is a run of such bytes, the kept bytes and a run of such bytes,
    and the kept bytes neither start nor end with a listed byte or a zero
    byte.  The length is the number of kept bytes, 0 when every byte is
    listed or zero or the buffer is empty; the capacity is unchanged and
    the allocator is not called.  On a payload without zero bytes the
    result is the trim of the listed bytes alone.  On
    ["Ab.;!...AHello World       ??"] with cut set ["Ab.;!. ?"] the result
    is ["Hello World"], of length 11. *)
Theorem trim_removes_both_runs :
  (forall σ s len cap payload slack cut_set,
      is_buffer σ s len cap payload slack ->
      exists σ' slack' lead trail,
        gb_trim_string s cut_set σ = Some (s, σ')
        /\ is_buffer σ' s
             (Z.of_nat (length (trim_by (listed_or_zero cut_set) payload))) cap
             (trim_by (listed_or_zero cut_set) payload) slack'
        /\ reads_as σ' s
             (Z.of_nat (length (trim_by (listed_or_zero cut_set) payload))) cap
             (trim_by (listed_or_zero cut_set) payload)
        /\ alloc_script σ' = alloc_script σ
        /\ trim_start_loop (S (Z.to_nat len)) cut_set s (s +ₚ len +ₚ (-1)) σ
           = Some (Ptr (p_blk s)
                     (header_size + Z.of_nat (length lead)), σ)
        /\ payload = lead ++ trim_by (listed_or_zero cut_set) payload ++ trail
        /\ Forall (fun c => c ∈ cstr_bytes cut_set \/ c = x00) lead
        /\ Forall (fun c => c ∈ cstr_bytes cut_set \/ c = x00) trail
        /\ (forall c,
              head (trim_by (listed_or_zero cut_set) payload) = Some c
              \/ last (trim_by (listed_or_zero cut_set) payload) = Some c ->
              (c ∉ cstr_bytes cut_set) /\ c <> x00)
        /\ (Forall (fun c => c ∈ cstr_bytes cut_set \/ c = x00) payload ->
            trim_by (listed_or_zero cut_set) payload = [])
        /\ (Forall (fun c => c <> x00) payload ->
            trim_by (listed_or_zero cut_set) payload
            = trim_listed cut_set payload))
  /\ (reads_as trim_state str1 29 29 trim_input
      /\ gb_trim_string str1 trim_cut_set trim_state
         = Some (str1, trimmed_state)
      /\ reads_as trimmed_state str1 11 29 hello_world
      /\ trim_listed trim_cut_set trim_input = hello_world).
Proof.
  split.
  - intros σ s len cap payload slack cut_set B.
    destruct (gb_trim_string_runs _ _ _ _ _ _ cut_set B)
      as (σ' & slack' & lead & trail & Hrun & B' & Hs & Hloop & Hsplit
          & Hlead & Htrail).
    pose proof (trim_spec_ends cut_set payload) as Hends.
    rewrite trim_spec_listed in B', Hsplit, Hends.
    assert (Hmem : forall l,
      Forall (fun c => in_cut_set cut_set c = true) l
      <-> Forall (fun c => c ∈ cstr_bytes cut_set \/ c = x00) l).
    { intros l. rewrite !Forall_forall. split; intros H c Hc;
        apply in_cut_set_iff, H, Hc. }
    exists σ', slack', lead, trail.
    split; [exact Hrun|]. split; [exact B'|].
    split; [eapply is_buffer_reads_as; exact B'|].
    split; [exact Hs|]. split; [exact Hloop|]. split; [exact Hsplit|].
    split; [apply Hmem; exact Hlead|]. split; [apply Hmem; exact Htrail|].
    split; [|split].
    + intros c Hc. specialize (Hends c Hc).
      split; intros H.
      * assert (E : in_cut_set cut_set c = true)
          by (apply in_cut_set_iff; left; exact H).
        rewrite E in Hends. discriminate.
      * assert (E : in_cut_set cut_set c = true)
          by (apply in_cut_set_iff; right; exact H).
        rewrite E in Hends. discriminate.
    + intros Hall. apply Hmem in Hall.
      rewrite <- trim_spec_listed. unfold trim_spec.
      rewrite (drop_leading_all _ payload Hall). reflexivity.
    + intros Hz. apply trim_by_ext. apply Forall_forall. intros c Hc.
      rewrite Forall_forall in Hz. unfold listed_or_zero.
      rewrite (bool_decide_eq_false_2 (c = x00)) by exact (Hz c Hc).
      apply Bool.orb_false_r.
  - split; [|split; [|split]]; [repeat split; by_evaluation|by_evaluation
                               |repeat split; by_evaluation|by_evaluation].
Qed.

Lemma trim_removes_both_runs_witness :
  is_buffer trim_state str1 29 29 trim_input []
  /\ exists σ' slack' lead trail,
      gb_trim_string str1 trim_cut_set trim_state = Some (str1, σ')
      /\ is_buffer σ' str1
           (Z.of_nat (length (trim_by (listed_or_zero trim_cut_set) trim_input)))
           29 (trim_by (listed_or_zero trim_cut_set) trim_input) slack'
      /\ reads_as σ' str1
           (Z.of_nat (length (trim_by (listed_or_zero trim_cut_set) trim_input)))
           29 (trim_by (listed_or_zero trim_cut_set) trim_input)
      /\ alloc_script σ' = alloc_script trim_state
      /\ trim_start_loop (S (Z.to_nat 29)) trim_cut_set str1
           (str1 +ₚ 29 +ₚ (-1)) trim_state
         = Some (Ptr (p_blk str1) (header_size + Z.of_nat (length lead)),
                 trim_state)
      /\ trim_input
         = lead ++ trim_by (listed_or_zero trim_cut_set) trim_input ++ trail
      /\ Forall (fun c => c ∈ cstr_bytes trim_cut_set \/ c = x00) lead
      /\ Forall (fun c => c ∈ cstr_bytes trim_cut_set \/ c = x00) trail
      /\ (forall c,
            head (trim_by (listed_or_zero trim_cut_set) trim_input) = Some c
            \/ last (trim_by (listed_or_zero trim_cut_set) trim_input) = Some c ->
            (c ∉ cstr_bytes trim_cut_set) /\ c <> x00)
      /\ (Forall (fun c => c ∈ cstr_bytes trim_cut_set \/ c = x00) trim_input ->
          trim_by (listed_or_zero trim_cut_set) trim_input = [])
      /\ (Forall (fun c => c <> x00) trim_input ->
          trim_by (listed_or_zero trim_cut_set) trim_input
          = trim_listed trim_cut_set trim_input).
Proof.
  assert (B : is_buffer trim_state str1 29 29 trim_input [])
    by concrete_buffer.
  split; [exact B|].
  exact (proj1 trim_removes_both_runs _ _ _ _ _ _ trim_cut_set B).
Defined.

(** C7.  Trimming twice with the same cut set is trimming once: after a
    first trim, a second one returns the same handle and leaves the state,
    hence the payload and the length, exactly as the first one left them. *)
Theorem trim_idempotent σ s len cap payload slack cut_set :
  is_buffer σ s len cap payload slack ->
  exists σ1,
    gb_trim_string s cut_set σ = Some (s, σ1)
    /\ reads_as σ1 s (Z.of_nat (length (trim_spec cut_set payload))) cap
         (trim_spec cut_set payload)
    /\ gb_trim_string s cut_set σ1 = Some (s, σ1).
Proof.
  intros B.
  destruct (gb_trim_string_is_buffer _ _ _ _ _ _ cut_set B)
    as (σ1 & slack1 & Hrun & Hσ1 & B1).
  exists σ1. split; [exact Hrun|].
  split; [eapply is_buffer_reads_as; exact B1|].
  rewrite (gb_trim_string_buffer _ _ _ _ _ _ cut_set B1).
  rewrite trim_spec_idem, drop_region_slack.
  destruct B1 as [_ Hblk1 _ _ _]. rewrite set_buf_same by exact Hblk1.
  reflexivity.
Qed.

Lemma trim_idempotent_witness :
  is_buffer trim_state str1 29 29 trim_input []
  /\ exists σ1,
      gb_trim_string str1 trim_cut_set trim_state = Some (str1, σ1)
      /\ reads_as σ1 str1
           (Z.of_nat (length (trim_spec trim_cut_set trim_input))) 29
           (trim_spec trim_cut_set trim_input)
      /\ gb_trim_string str1 trim_cut_set σ1 = Some (str1, σ1).
Proof.
  assert (B : is_buffer trim_state str1 29 29 trim_input [])
    by concrete_buffer.
  split; [exact B|].
  exact (trim_idempotent _ _ _ _ _ _ trim_cut_set B).
Defined.

Lemma strchr_terminator (cut_set : list byte) :
  exists i, strchr cut_set x00 = Some i.
Proof.
  induction cut_set as [|x cut_set [i IH]]; simpl.
  - exists 0. reflexivity.
  - destruct (decide (x = x00)); [exists 0; reflexivity|].
    rewrite IH. exists (Z.succ i). reflexivity.
Qed.

Lemma in_cut_set_zero (cut_set : list byte) : in_cut_set cut_set x00 = true.
Proof.
  unfold in_cut_set. destruct (strchr_terminator cut_set) as [i ->].
  reflexivity.
Qed.

Lemma drop_leading_snoc_member (f : byte -> bool) (l : list byte) (x : byte) :
  f x = true ->
  drop_leading f (l ++ [x])
  = match drop_leading f l with
    | [] => []
    | q => q ++ [x]
    end.
Proof.
  intros Hx. induction l as [|c l IH]; simpl; [rewrite Hx; reflexivity|].
  destruct (f c); [exact IH|reflexivity].
Qed.

(** C8.  Whatever the cut set lists, [strchr] finds the zero byte in it, at
    the cut set's own terminator, so trim takes 0x00 for a member of the cut
    set: the kept bytes never start or end with a zero byte, and a payload
    with one more zero byte in front or at the end is trimmed to the same
    bytes.  With the empty cut set, the payload 00 61 00 is trimmed to the
    single byte 61. *)
Theorem trim_strips_zero_bytes :
  (forall cut_set,
      (exists i, strchr cut_set x00 = Some i)
      /\ in_cut_set cut_set x00 = true)
  /\ (forall σ s len cap payload slack cut_set,
        is_buffer σ s len cap payload slack ->
        exists σ',
          gb_trim_string s cut_set σ = Some (s, σ')
          /\ reads_as σ' s (Z.of_nat (length (trim_spec cut_set payload))) cap
               (trim_spec cut_set payload)
          /\ head (trim_spec cut_set payload) <> Some x00
          /\ last (trim_spec cut_set payload) <> Some x00)
  /\ (forall cut_set p,
        trim_spec cut_set (x00 :: p) = trim_spec cut_set p
        /\ trim_spec cut_set (p ++ [x00]) = trim_spec cut_set p)
  /\ (strchr [] x00 = Some 0
      /\ reads_as zeros_state str1 3 3 [x00; x61; x00]
      /\ gb_trim_string str1 [] zeros_state = Some (str1, zeros_trimmed_state)
      /\ reads_as zeros_trimmed_state str1 1 3 [x61]).
Proof.
  split; [|split; [|split]].
  - intros cut_set. split; [apply strchr_terminator|apply in_cut_set_zero].
  - intros σ s len cap payload slack cut_set B.
    destruct (gb_trim_string_is_buffer _ _ _ _ _ _ cut_set B)
      as (σ' & slack' & Hrun & _ & B').
    exists σ'. split; [exact Hrun|].
    split; [eapply is_buffer_reads_as; exact B'|].
    split; intros H.
    + pose proof (trim_spec_ends cut_set payload x00 (or_introl H)) as E.
      rewrite in_cut_set_zero in E. discriminate.
    + pose proof (trim_spec_ends cut_set payload x00 (or_intror H)) as E.
      rewrite in_cut_set_zero in E. discriminate.
  - intros cut_set p. unfold trim_spec.
    pose proof (in_cut_set_zero cut_set) as Hz.
    set (f := in_cut_set cut_set) in *. split.
    + cbn [drop_leading]. rewrite Hz. reflexivity.
    + rewrite (drop_leading_snoc_member f p x00 Hz).
      destruct (drop_leading f p) as [|y q]; [reflexivity|].
      rewrite rev_app_distr. cbn [rev app drop_leading]. rewrite Hz.
      reflexivity.
  - split; [reflexivity|]. split; [|split]; repeat split; by_evaluation.
Qed.

Lemma trim_strips_zero_bytes_witness :
  is_buffer zeros_state str1 3 3 zeros_input []
  /\ exists σ',
      gb_trim_string str1 [] zeros_state = Some (str1, σ')
      /\ reads_as σ' str1 (Z.of_nat (length (trim_spec [] zeros_input))) 3
           (trim_spec [] zeros_input)
      /\ head (trim_spec [] zeros_input) <> Some x00
      /\ last (trim_spec [] zeros_input) <> Some x00.
Proof.
  assert (B : is_buffer zeros_state str1 3 3 zeros_input [])
    by concrete_buffer.
  split; [exact B|].
  exact (proj1 (proj2 trim_strips_zero_bytes) _ _ _ _ _ _ [] B).
Defined.

(** ** Assign *)

(** C6.  For every buffer and C string [cstr] of length [n], assign calls
    reserve only when the capacity is below [n], and then with exactly
    [n - length]: with enough capacity it works in place and no request
    reaches the allocator; otherwise it is the reserve of [n - length] more
    bytes, which makes the capacity exactly [n], followed by the copy.  On
    success the result reads as the bytes of [cstr], with length [n], the
    terminator after them, and capacity [max capacity n]: never below the
    capacity before the call, whatever the old and new lengths. *)
Theorem set_string_spec σ s len cap payload slack cstr :
  is_buffer σ s len cap payload slack ->
  header_size + strlen cstr + 1 < usize_modulus ->
  (strlen cstr <= cap ->
   exists σ' slack',
     gb_set_string s cstr σ = Some (Some s, σ')
     /\ gb_set_string s cstr σ = write_cstring cstr s σ
     /\ alloc_script σ' = alloc_script σ
     /\ is_buffer σ' s (strlen cstr) cap (cstr_bytes cstr) slack')
  /\ (cap < strlen cstr ->
      gb_set_string s cstr σ
      = (do r <- gb_string_make_space_for s (strlen cstr - len);
         match r with
         | None => ret None
         | Some s1 => write_cstring cstr s1
         end) σ
      /\ (next_alloc_fails σ = false ->
          exists σ1 σ',
            gb_string_make_space_for s (strlen cstr - len) σ
            = Some (Some (Ptr (next_block σ) header_size), σ1)
            /\ reads_as σ1 (Ptr (next_block σ) header_size) len (strlen cstr)
                 payload
            /\ gb_set_string s cstr σ
               = Some (Some (Ptr (next_block σ) header_size), σ')
            /\ is_buffer σ' (Ptr (next_block σ) header_size)
                 (strlen cstr) (strlen cstr) (cstr_bytes cstr) []))
  /\ (forall s' σ',
        gb_set_string s cstr σ = Some (Some s', σ') ->
        exists cap',
          reads_as σ' s' (strlen cstr) cap' (cstr_bytes cstr)
          /\ cap <= cap' /\ cap' = Z.max cap (strlen cstr)).
Proof.
  intros B Hfit. pose proof (is_buffer_bounds _ _ _ _ _ _ B) as Hb.
  pose proof (strlen_range cstr) as Hs.
  assert (Hin : strlen cstr <= cap ->
                exists σ' slack',
                  gb_set_string s cstr σ = Some (Some s, σ')
                  /\ gb_set_string s cstr σ = write_cstring cstr s σ
                  /\ alloc_script σ' = alloc_script σ
                  /\ is_buffer σ' s (strlen cstr) cap (cstr_bytes cstr) slack').
  { intros Hn. do 2 eexists.
    split; [eapply gb_set_string_fit; [exact B|exact Hn]|].
    split; [|split; [reflexivity|]].
    - unfold gb_set_string.
      step (gb_string_capacity_buffer _ _ _ _ _ _ B).
      rewrite bool_decide_eq_false_2 by lia. reflexivity.
    - destruct B as [Hoff Hblk Hlen Hcap Hf].
      apply is_buffer_set_buf; try assumption; [apply length_cstr_bytes|].
      rewrite length_drop. pose proof (length_region payload slack). lia. }
  assert (Hgrow : cap < strlen cstr -> next_alloc_fails σ = false ->
                  exists σ1 σ',
                    gb_string_make_space_for s (strlen cstr - len) σ
                    = Some (Some (Ptr (next_block σ) header_size), σ1)
                    /\ reads_as σ1 (Ptr (next_block σ) header_size) len
                         (strlen cstr) payload
                    /\ gb_set_string s cstr σ
                       = Some (Some (Ptr (next_block σ) header_size), σ')
                    /\ is_buffer σ' (Ptr (next_block σ) header_size)
                         (strlen cstr) (strlen cstr) (cstr_bytes cstr) []).
  { intros Hn Ha.
    assert (Hroom : cap - len < strlen cstr - len) by lia.
    assert (Hsize : header_size + len + (strlen cstr - len) + 1
                    < usize_modulus) by lia.
    pose proof (gb_string_make_space_for_grow _ _ _ _ _ _
                  (strlen cstr - len) B Hroom Hsize Ha) as G.
    replace (len + (strlen cstr - len)) with (strlen cstr) in G by lia.
    do 2 eexists. split; [exact G|]. split; [|split].
    - eapply is_buffer_reads_as. destruct B as [_ _ Hlen _ _].
      apply is_buffer_moved_buf;
        [exact Hlen|rewrite length_replicate; lia|exact Hfit].
    - eapply gb_set_string_grow; eassumption.
    - apply is_buffer_moved_buf;
        [apply length_cstr_bytes|simpl; lia|exact Hfit]. }
  split; [exact Hin|]. split.
  - intros Hn. split; [|exact (Hgrow Hn)].
    unfold gb_set_string.
    step (gb_string_capacity_buffer _ _ _ _ _ _ B).
    rewrite bool_decide_eq_true_2 by lia. rewrite bind_assoc.
    step (gb_string_length_buffer _ _ _ _ _ _ B).
    rewrite wrap_small by (sizes; lia). reflexivity.
  - intros s' σ' Hrun.
    destruct (Z_le_gt_dec (strlen cstr) cap) as [Hn|Hn].
    + destruct (Hin Hn) as (σ2 & slack2 & Heq & _ & _ & B2).
      rewrite Heq in Hrun. injection Hrun as <- <-.
      exists cap. split; [eapply is_buffer_reads_as; exact B2|]. lia.
    + assert (Hn' : cap < strlen cstr) by lia.
      destruct (next_alloc_fails σ) eqn:Ha.
      * rewrite (gb_set_string_fail _ _ _ _ _ _ _ B Hn' Hfit Ha) in Hrun.
        discriminate.
      * destruct (Hgrow Hn' eq_refl) as (σ1 & σ2 & _ & _ & Heq & B2).
        rewrite Heq in Hrun. injection Hrun as <- <-.
        exists (strlen cstr).
        split; [eapply is_buffer_reads_as; exact B2|]. lia.
Qed.

Lemma set_string_spec_witness :
  (is_buffer cleared_state str1 0 5 [] cleared_slack
   /\ header_size + strlen potato_soup + 1 < usize_modulus)
  /\ (strlen potato_soup <= 5 ->
      exists σ' slack',
        gb_set_string str1 potato_soup cleared_state = Some (Some str1, σ')
        /\ gb_set_string str1 potato_soup cleared_state
           = write_cstring potato_soup str1 cleared_state
        /\ alloc_script σ' = alloc_script cleared_state
        /\ is_buffer σ' str1 (strlen potato_soup) 5
             (cstr_bytes potato_soup) slack')
  /\ (5 < strlen potato_soup ->
      gb_set_string str1 potato_soup cleared_state
      = (do r <- gb_string_make_space_for str1 (strlen potato_soup - 0);
         match r with
         | None => ret None
         | Some s1 => write_cstring potato_soup s1
         end) cleared_state
      /\ (next_alloc_fails cleared_state = false ->
          exists σ1 σ',
            gb_string_make_space_for str1 (strlen potato_soup - 0)
              cleared_state
            = Some (Some (Ptr (next_block cleared_state) header_size), σ1)
            /\ reads_as σ1 (Ptr (next_block cleared_state) header_size) 0
                 (strlen potato_soup) []
            /\ gb_set_string str1 potato_soup cleared_state
               = Some (Some (Ptr (next_block cleared_state) header_size), σ')
            /\ is_buffer σ' (Ptr (next_block cleared_state) header_size)
                 (strlen potato_soup) (strlen potato_soup)
                 (cstr_bytes potato_soup) []))
  /\ (forall s' σ',
        gb_set_string str1 potato_soup cleared_state = Some (Some s', σ') ->
        exists cap',
          reads_as σ' s' (strlen potato_soup) cap' (cstr_bytes potato_soup)
          /\ 5 <= cap' /\ cap' = Z.max 5 (strlen potato_soup)).
Proof.
  assert (H : is_buffer cleared_state str1 0 5 [] cleared_slack
              /\ header_size + strlen potato_soup + 1 < usize_modulus).
  { split; [concrete_buffer|by_evaluation]. }
  split; [exact H|].
  destruct H as (B & Hfit).
  exact (set_string_spec _ _ _ _ _ _ potato_soup B Hfit).
Defined.

(** ** Examples *)

Example make_hello :
  gb_make_string (Some hello) state0 = Some (Some str1, hello_state)
  /\ reads_as hello_state str1 5 5 hello.
Proof. split; [|repeat split]; by_evaluation. Qed.

Example append_example :
  greeting state0 = Some (Some (Ptr 3 header_size), greeting_state)
  /\ reads_as greeting_state (Ptr 3 header_size) 13 13 hello_comma_world.
Proof. split; [|repeat split]; by_evaluation. Qed.

Example clear_example :
  gb_clear_string str1 hello_state = Some (tt, cleared_state)
  /\ reads_as cleared_state str1 0 5 [].
Proof. split; [|repeat split]; by_evaluation. Qed.

(** * Further properties of the library *)

(** ** Reserve and append *)

(** A successful reserve leaves a buffer with the same content and room for
    [add] more bytes. *)
Lemma reserve_result σ s len cap payload slack add s1 σ1 :
  is_buffer σ s len cap payload slack ->
  0 <= add -> header_size + len + add + 1 < usize_modulus ->
  gb_string_make_space_for s add σ = Some (Some s1, σ1) ->
  exists cap1 slack1,
    is_buffer σ1 s1 len cap1 payload slack1
    /\ len + add <= cap1 /\ cap <= cap1.
Proof.
  intros B Hadd Hfit Hrun.
  destruct (Z_le_gt_dec add (cap - len)) as [Hroom|Hroom].
  - rewrite (gb_string_make_space_for_fit _ _ _ _ _ _ _ B Hroom) in Hrun.
    injection Hrun as <- <-. exists cap, slack. split; [exact B|lia].
  - assert (Hroom' : cap - len < add) by lia.
    destruct (next_alloc_fails σ) eqn:Ha.
    + rewrite (gb_string_make_space_for_fail _ _ _ _ _ _ _ B Hroom' Hfit Ha)
        in Hrun. discriminate.
    + rewrite (gb_string_make_space_for_grow _ _ _ _ _ _ _ B Hroom' Hfit Ha)
        in Hrun. injection Hrun as <- <-.
      exists (len + add), (replicate (Z.to_nat add) None).
      split; [|lia]. destruct B as [_ _ Hlen _ _].
      apply is_buffer_moved_buf; [exact Hlen|rewrite length_replicate; lia|lia].
Qed.

(** A successful append leaves a buffer that holds the old payload followed
    by the appended bytes. *)
Lemma append_result σ s len cap payload slack other n s1 σ1 :
  is_buffer σ s len cap payload slack ->
  0 <= n <= Z.of_nat (length other) ->
  header_size + len + n + 1 < usize_modulus ->
  gb_append_string_length s other n σ = Some (Some s1, σ1) ->
  exists cap1 slack1,
    is_buffer σ1 s1 (len + n) cap1
      (payload ++ take (Z.to_nat n) other) slack1
    /\ cap1 = (if bool_decide (n <= cap - len) then cap else len + n)
    /\ (n <= cap - len -> s1 = s /\ alloc_script σ1 = alloc_script σ).
Proof.
  intros B Hn Hfit Hrun. pose proof B as [Hoff Hblk Hlen Hcap Hf].
  assert (Hpay : Z.of_nat (length (payload ++ take (Z.to_nat n) other))
                 = len + n) by (rewrite length_app, length_take; lia).
  destruct (Z_le_gt_dec n (cap - len)) as [Hroom|Hroom].
  - rewrite (gb_append_string_length_fit _ _ _ _ _ _ _ _ B Hn Hroom) in Hrun.
    injection Hrun as <- <-. exists cap, (drop (Z.to_nat n) slack).
    rewrite bool_decide_eq_true_2 by exact Hroom.
    split; [|split; [reflexivity|intros _; split; reflexivity]].
    apply is_buffer_set_buf; try assumption. rewrite length_drop. lia.
  - assert (Hroom' : cap - len < n) by lia.
    destruct (next_alloc_fails σ) eqn:Ha.
    + rewrite (gb_append_string_length_fail _ _ _ _ _ _ _ _ B Hroom' Hfit Ha)
        in Hrun. discriminate.
    + rewrite (gb_append_string_length_grow _ _ _ _ _ _ _ _ B Hn Hroom' Hfit Ha)
        in Hrun. injection Hrun as <- <-. exists (len + n), [].
      rewrite bool_decide_eq_false_2 by lia.
      split; [|split; [reflexivity|lia]].
      apply is_buffer_moved_buf; [exact Hpay|simpl; lia|lia].
Qed.

(** X1.  Append, for a source that holds the [n] bytes and a representable
    size: the call returns null exactly when the buffer lacks room and the
    allocator refuses; otherwise the result reads as the old payload
    followed by the first [n] bytes of the source, with length
    [length + n], and with the old capacity and the old handle when the
    bytes fit, the capacity [length + n] when they do not. *)
Theorem append_spec σ s len cap payload slack other n :
  is_buffer σ s len cap payload slack ->
  0 <= n <= Z.of_nat (length other) ->
  header_size + len + n + 1 < usize_modulus ->
  exists r σ',
    gb_append_string_length s other n σ = Some (r, σ')
    /\ (r = None <-> cap - len < n /\ next_alloc_fails σ = true)
    /\ forall s', r = Some s' ->
         reads_as σ' s' (len + n)
           (if bool_decide (n <= cap - len) then cap else len + n)
           (payload ++ take (Z.to_nat n) other)
         /\ (n <= cap - len -> s' = s /\ alloc_script σ' = alloc_script σ).
Proof.
  intros B Hn Hfit.
  assert (Hres : forall s' σ',
             gb_append_string_length s other n σ = Some (Some s', σ') ->
             reads_as σ' s' (len + n)
               (if bool_decide (n <= cap - len) then cap else len + n)
               (payload ++ take (Z.to_nat n) other)
             /\ (n <= cap - len -> s' = s /\ alloc_script σ' = alloc_script σ)).
  { intros s' σ' Hrun.
    destruct (append_result _ _ _ _ _ _ _ _ _ _ B Hn Hfit Hrun)
      as (cap1 & slack1 & B1 & -> & Hsame).
    split; [eapply is_buffer_reads_as; exact B1|exact Hsame]. }
  destruct (Z_le_gt_dec n (cap - len)) as [Hroom|Hroom].
  - do 2 eexists. split; [|split].
    + eapply gb_append_string_length_fit; eassumption.
    + split; [discriminate|]. intros [H _]. lia.
    + intros s' [= <-]. eapply Hres.
      eapply gb_append_string_length_fit; eassumption.
  - assert (Hroom' : cap - len < n) by lia.
    destruct (next_alloc_fails σ) eqn:Ha.
    + do 2 eexists. split; [|split].
      * eapply gb_append_string_length_fail; eassumption.
      * split; auto.
      * intros s' [=].
    + do 2 eexists. split; [|split].
      * eapply gb_append_string_length_grow; eassumption.
      * split; [discriminate|]. intros [_ H]. discriminate.
      * intros s' [= <-]. eapply Hres.
        eapply gb_append_string_length_grow; eassumption.
Qed.

Lemma append_spec_witness :
  (is_buffer cleared_state str1 0 5 [] cleared_slack
   /\ 0 <= 2 <= Z.of_nat (length comma)
   /\ header_size + 0 + 2 + 1 < usize_modulus)
  /\ exists r σ',
      gb_append_string_length str1 comma 2 cleared_state = Some (r, σ')
      /\ (r = None <-> 5 - 0 < 2 /\ next_alloc_fails cleared_state = true)
      /\ forall s', r = Some s' ->
           reads_as σ' s' (0 + 2)
             (if bool_decide (2 <= 5 - 0) then 5 else 0 + 2)
             ([] ++ take (Z.to_nat 2) comma)
           /\ (2 <= 5 - 0 ->
               s' = str1 /\ alloc_script σ' = alloc_script cleared_state).
Proof.
  assert (H : is_buffer cleared_state str1 0 5 [] cleared_slack
              /\ 0 <= 2 <= Z.of_nat (length comma)
              /\ header_size + 0 + 2 + 1 < usize_modulus).
  { split; [concrete_buffer|]. split; [split|]; by_evaluation. }
  split; [exact H|].
  destruct H as (B & Hn & Hfit).
  exact (append_spec _ _ _ _ _ _ comma 2 B Hn Hfit).
Defined.

(** X2.  Two appends in a row: when both succeed, the result reads as the
    original payload followed by the bytes of the first and then of the
    second string, whatever reallocations took place on the way; a single
    append of the concatenation gives the same length and payload. *)
Theorem append_cstring_twice σ s len cap payload slack b c s1 σ1 s2 σ2 :
  is_buffer σ s len cap payload slack ->
  header_size + len + strlen b + strlen c + 1 < usize_modulus ->
  gb_append_cstring s b σ = Some (Some s1, σ1) ->
  gb_append_cstring s1 c σ1 = Some (Some s2, σ2) ->
  (exists cap2,
      reads_as σ2 s2 (len + strlen b + strlen c) cap2
        (payload ++ cstr_bytes b ++ cstr_bytes c)
      /\ cap <= cap2)
  /\ forall s3 σ3,
      gb_append_string_length s (cstr_bytes b ++ cstr_bytes c)
        (strlen b + strlen c) σ = Some (Some s3, σ3) ->
      exists cap3,
        reads_as σ3 s3 (len + strlen b + strlen c) cap3
          (payload ++ cstr_bytes b ++ cstr_bytes c).
Proof.
  intros B Hfit Hb Hc. unfold gb_append_cstring in *.
  pose proof (strlen_range b) as Hsb. pose proof (strlen_range c) as Hsc.
  pose proof (is_buffer_bounds _ _ _ _ _ _ B) as Hbd.
  destruct (append_result _ _ _ _ _ _ _ _ _ _ B Hsb ltac:(lia) Hb)
    as (cap1 & slack1 & B1 & Hcap1 & _).
  destruct (append_result _ _ _ _ _ _ _ _ _ _ B1 Hsc ltac:(lia) Hc)
    as (cap2 & slack2 & B2 & Hcap2 & _).
  fold (cstr_bytes b) in B1, B2. fold (cstr_bytes c) in B2.
  rewrite <- app_assoc in B2. split.
  - exists cap2. split; [eapply is_buffer_reads_as; exact B2|].
    pose proof (is_buffer_le _ _ _ _ _ _ B1).
    pose proof (is_buffer_le _ _ _ _ _ _ B2).
    repeat case_bool_decide; lia.
  - intros s3 σ3 Hrun.
    pose proof (length_cstr_bytes b) as Hlb.
    pose proof (length_cstr_bytes c) as Hlc.
    assert (Hn : 0 <= strlen b + strlen c
                 <= Z.of_nat (length (cstr_bytes b ++ cstr_bytes c)))
      by (rewrite length_app; lia).
    destruct (append_result _ _ _ _ _ _ _ _ _ _ B Hn ltac:(lia) Hrun)
      as (cap3 & slack3 & B3 & _ & _).
    rewrite take_ge in B3 by (rewrite length_app; lia).
    rewrite Z.add_assoc in B3.
    exists cap3. eapply is_buffer_reads_as. exact B3.
Qed.

Lemma append_cstring_twice_witness :
  (is_buffer hello_state str1 5 5 hello []
   /\ header_size + 5 + strlen comma + strlen world + 1 < usize_modulus
   /\ gb_append_cstring str1 comma hello_state
      = Some (Some str2, appended_state)
   /\ gb_append_cstring str2 world appended_state
      = Some (Some (Ptr 3 header_size), greeting_state))
  /\ (exists cap2,
        reads_as greeting_state (Ptr 3 header_size)
          (5 + strlen comma + strlen world) cap2
          (hello ++ cstr_bytes comma ++ cstr_bytes world)
        /\ 5 <= cap2)
  /\ forall s3 σ3,
      gb_append_string_length str1 (cstr_bytes comma ++ cstr_bytes world)
        (strlen comma + strlen world) hello_state = Some (Some s3, σ3) ->
      exists cap3,
        reads_as σ3 s3 (5 + strlen comma + strlen world) cap3
          (hello ++ cstr_bytes comma ++ cstr_bytes world).
Proof.
  assert (H : is_buffer hello_state str1 5 5 hello []
              /\ header_size + 5 + strlen comma + strlen world + 1
                 < usize_modulus
              /\ gb_append_cstring str1 comma hello_state
                 = Some (Some str2, appended_state)
              /\ gb_append_cstring str2 world appended_state
                 = Some (Some (Ptr 3 header_size), greeting_state)).
  { split; [concrete_buffer|]. split; [|split]; by_evaluation. }
  split; [exact H|].
  destruct H as (B & Hfit & Hb & Hc).
  exact (append_cstring_twice _ _ _ _ _ _ _ _ _ _ _ _ B Hfit Hb Hc).
Defined.

(** X3.  Reserve does what it is for, as long as its size computation
    [header_size + length + add + 1] does not wrap around: after a
    successful reserve of [add] bytes, an append of at most [add] bytes,
    from a source that holds them, works in place: it returns the handle
    reserve gave, makes no request to the allocator, leaves the capacity as
    reserve left it, and the buffer reads as the old payload followed by
    the appended bytes. *)
Theorem reserve_then_append σ s len cap payload slack add other n s1 σ1 :
  is_buffer σ s len cap payload slack ->
  0 <= add -> header_size + len + add + 1 < usize_modulus ->
  gb_string_make_space_for s add σ = Some (Some s1, σ1) ->
  0 <= n <= add -> n <= Z.of_nat (length other) ->
  exists σ2 cap1,
    gb_string_capacity s1 σ1 = Some (cap1, σ1)
    /\ gb_append_string_length s1 other n σ1 = Some (Some s1, σ2)
    /\ alloc_script σ2 = alloc_script σ1
    /\ reads_as σ2 s1 (len + n) cap1 (payload ++ take (Z.to_nat n) other).
Proof.
  intros B Hadd Hfit Hres Hn Hsrc.
  destruct (reserve_result _ _ _ _ _ _ _ _ _ B Hadd Hfit Hres)
    as (cap1 & slack1 & B1 & Hroom & _).
  assert (Hn' : 0 <= n <= Z.of_nat (length other)) by lia.
  assert (Hroom' : n <= cap1 - len) by lia.
  pose proof (gb_append_string_length_fit _ _ _ _ _ _ _ _ B1 Hn' Hroom')
    as Happ.
  do 2 eexists. split; [eapply gb_string_capacity_buffer; exact B1|].
  split; [exact Happ|]. split; [reflexivity|].
  eapply is_buffer_reads_as. destruct B1 as [Hoff Hblk Hlen Hcap Hf].
  apply is_buffer_set_buf; try assumption.
  - rewrite length_app, length_take. lia.
  - rewrite length_drop. lia.
Qed.

Lemma reserve_then_append_witness :
  (is_buffer hello_state str1 5 5 hello []
   /\ 0 <= 8 /\ header_size + 5 + 8 + 1 < usize_modulus
   /\ gb_string_make_space_for str1 8 hello_state
      = Some (Some str2, reserved_state)
   /\ 0 <= 6 <= 8 /\ 6 <= Z.of_nat (length world))
  /\ exists σ2 cap1,
      gb_string_capacity str2 reserved_state = Some (cap1, reserved_state)
      /\ gb_append_string_length str2 world 6 reserved_state
         = Some (Some str2, σ2)
      /\ alloc_script σ2 = alloc_script reserved_state
      /\ reads_as σ2 str2 (5 + 6) cap1 (hello ++ take (Z.to_nat 6) world).
Proof.
  assert (H : is_buffer hello_state str1 5 5 hello []
              /\ 0 <= 8 /\ header_size + 5 + 8 + 1 < usize_modulus
              /\ gb_string_make_space_for str1 8 hello_state
                 = Some (Some str2, reserved_state)
              /\ 0 <= 6 <= 8 /\ 6 <= Z.of_nat (length world)).
  { split; [concrete_buffer|]. split; [by_evaluation|].
    split; [by_evaluation|]. split; [by_evaluation|].
    split; [split|]; by_evaluation. }
  split; [exact H|].
  destruct H as (B & Hadd & Hfit & Hres & Hn & Hsrc).
  exact (reserve_then_append _ _ _ _ _ _ _ _ _ _ _ B Hadd Hfit Hres Hn Hsrc).
Defined.

(** X4.  When the size computation of reserve wraps around, no request
    reaches the allocator: the handle and the block are returned as they
    are, length and payload included, and the wrapped sum is recorded as
    the capacity, which is then either below the length or above what the
    block can hold. *)
Theorem reserve_wraparound σ s len cap payload slack add :
  is_buffer σ s len cap payload slack ->
  0 <= add < usize_modulus -> cap - len < add ->
  usize_modulus <= header_size + len + add + 1 ->
  exists σ' blk,
    gb_string_make_space_for s add σ = Some (Some s, σ')
    /\ alloc_script σ' = alloc_script σ
    /\ reads_as σ' s len (wrap (len + add)) payload
    /\ heap σ' !! p_blk s = Some blk
    /\ Z.of_nat (length blk) = header_size + cap + 1
    /\ (wrap (len + add) < len \/ cap < wrap (len + add)).
Proof.
  intros B Hadd Hroom Hwrap. pose proof (is_buffer_bounds _ _ _ _ _ _ B) as Hb.
  pose proof B as [Hoff Hblk Hlen Hcap Hfit].
  do 2 eexists. split; [|split; [|split; [|split; [|split]]]].
  - eapply gb_string_make_space_for_wrap; eassumption.
  - reflexivity.
  - eapply block_reads_as;
      [exact Hoff|apply set_buf_lookup|exact Hlen|sizes; lia|apply wrap_range].
  - apply set_buf_lookup.
  - rewrite length_raw_region. lia.
  - destruct (Z_lt_le_dec (len + add) usize_modulus) as [Hlt|Hge].
    + right. rewrite wrap_small by lia. sizes. lia.
    + left. rewrite wrap_once by (sizes; lia). sizes. lia.
Qed.

Lemma reserve_wraparound_witness :
  (is_buffer hello_state str1 5 5 hello []
   /\ 0 <= usize_modulus - 10 < usize_modulus
   /\ 5 - 5 < usize_modulus - 10
   /\ usize_modulus <= header_size + 5 + (usize_modulus - 10) + 1)
  /\ exists σ' blk,
      gb_string_make_space_for str1 (usize_modulus - 10) hello_state
      = Some (Some str1, σ')
      /\ alloc_script σ' = alloc_script hello_state
      /\ reads_as σ' str1 5 (wrap (5 + (usize_modulus - 10))) hello
      /\ heap σ' !! p_blk str1 = Some blk
      /\ Z.of_nat (length blk) = header_size + 5 + 1
      /\ (wrap (5 + (usize_modulus - 10)) < 5
          \/ 5 < wrap (5 + (usize_modulus - 10))).
Proof.
  assert (H : is_buffer hello_state str1 5 5 hello []
              /\ 0 <= usize_modulus - 10 < usize_modulus
              /\ 5 - 5 < usize_modulus - 10
              /\ usize_modulus <= header_size + 5 + (usize_modulus - 10) + 1).
  { split; [concrete_buffer|]. split; [split; by_evaluation|].
    split; by_evaluation. }
  split; [exact H|].
  destruct H as (B & Hadd & Hroom & Hwrap).
  exact (reserve_wraparound _ _ _ _ _ _ _ B Hadd Hroom Hwrap).
Defined.

(** ** Clear *)

(** X5.  Clear works in place and erases nothing: no request reaches the
    allocator, the buffer reads as empty with its capacity unchanged, the
    old payload bytes after the first are still in the block where they
    were, and a second clear changes nothing. *)
Theorem clear_spec σ s len cap payload slack :
  is_buffer σ s len cap payload slack ->
  exists σ',
    gb_clear_string s σ = Some (tt, σ')
    /\ alloc_script σ' = alloc_script σ
    /\ reads_as σ' s 0 cap []
    /\ (1 <= len ->
        load_bytes (s +ₚ 1) (len - 1) σ' = Some (drop 1 payload, σ'))
    /\ gb_clear_string s σ' = Some (tt, σ').
Proof.
  intros B. pose proof B as [Hoff Hblk Hlen Hcap Hfit].
  set (σ' := set_buf σ s 0 cap (region [] (drop 1 (region payload slack)))).
  assert (B' : is_buffer σ' s 0 cap [] (drop 1 (region payload slack))).
  { apply is_buffer_set_buf; try assumption; [reflexivity|].
    rewrite length_drop. pose proof (length_region payload slack). lia. }
  exists σ'. split; [eapply gb_clear_string_buffer; exact B|].
  split; [reflexivity|]. split; [eapply is_buffer_reads_as; exact B'|].
  split.
  - intros Hne. destruct payload as [|c rest]; [simpl in Hlen; lia|].
    unfold load_bytes.
    erewrite bind_step; cycle 1.
    { eapply (load_cells_data σ' s _ _ _ Hoff (set_buf_lookup _ _ _ _ _)
                (s +ₚ 1) 1); [reflexivity|cbn [p_off ptr_add]; lia|lia|].
      apply (blk_read_app [Some x00] (cells_of_bytes rest)); [reflexivity|].
      rewrite length_cells_of_bytes. simpl in Hlen. lia. }
    rewrite bytes_of_cells_of_bytes. reflexivity.
  - rewrite (gb_clear_string_buffer _ _ _ _ _ _ B').
    destruct B' as [_ Hblk' _ _ _].
    change (region [] (drop 1 (region [] (drop 1 (region payload slack)))))
      with (region [] (drop 1 (region payload slack))).
    rewrite (set_buf_same _ _ _ _ _ Hblk'). reflexivity.
Qed.

Lemma clear_spec_witness :
  is_buffer hello_state str1 5 5 hello []
  /\ exists σ',
      gb_clear_string str1 hello_state = Some (tt, σ')
      /\ alloc_script σ' = alloc_script hello_state
      /\ reads_as σ' str1 0 5 []
      /\ (1 <= 5 ->
          load_bytes (str1 +ₚ 1) (5 - 1) σ' = Some (drop 1 hello, σ'))
      /\ gb_clear_string str1 σ' = Some (tt, σ').
Proof.
  assert (B : is_buffer hello_state str1 5 5 hello []) by concrete_buffer.
  split; [exact B|].
  exact (clear_spec _ _ _ _ _ _ B).
Defined.

(** X6.  A cleared buffer is reused: clear followed by an append of at most
    [capacity] bytes works in the same block, without a request to the
    allocator, and the buffer then reads as exactly the appended bytes. *)
Theorem clear_then_append σ s len cap payload slack other n :
  is_buffer σ s len cap payload slack ->
  0 <= n <= Z.of_nat (length other) -> n <= cap ->
  exists σ',
    (gb_clear_string s;; gb_append_string_length s other n) σ
    = Some (Some s, σ')
    /\ alloc_script σ' = alloc_script σ
    /\ reads_as σ' s n cap (take (Z.to_nat n) other).
Proof.
  intros B Hn Hroom. pose proof B as [Hoff Hblk Hlen Hcap Hfit].
  set (slack1 := drop 1 (region payload slack)).
  assert (B1 : is_buffer (set_buf σ s 0 cap (region [] slack1)) s 0 cap []
                 slack1).
  { apply is_buffer_set_buf; try assumption; [reflexivity|].
    unfold slack1. rewrite length_drop.
    pose proof (length_region payload slack). lia. }
  assert (Hroom' : n <= cap - 0) by lia.
  pose proof (gb_append_string_length_fit _ _ _ _ _ _ _ _ B1 Hn Hroom') as Happ.
  eexists. split; [|split].
  - step (gb_clear_string_buffer _ _ _ _ _ _ B). exact Happ.
  - reflexivity.
  - eapply is_buffer_reads_as. rewrite set_buf_twice.
    apply (is_buffer_set_buf _ _ _ _ _ (drop (Z.to_nat n) slack1));
      try assumption.
    + cbn [app]. rewrite length_take. lia.
    + rewrite length_drop. destruct B1 as [_ _ _ Hc1 _]. lia.
Qed.

Lemma clear_then_append_witness :
  (is_buffer hello_state str1 5 5 hello []
   /\ 0 <= 2 <= Z.of_nat (length comma) /\ 2 <= 5)
  /\ exists σ',
      (gb_clear_string str1;; gb_append_string_length str1 comma 2)
        hello_state = Some (Some str1, σ')
      /\ alloc_script σ' = alloc_script hello_state
      /\ reads_as σ' str1 2 5 (take (Z.to_nat 2) comma).
Proof.
  assert (H : is_buffer hello_state str1 5 5 hello []
              /\ 0 <= 2 <= Z.of_nat (length comma) /\ 2 <= 5).
  { split; [concrete_buffer|]. split; [split|]; by_evaluation. }
  split; [exact H|].
  destruct H as (B & Hn & Hroom).
  exact (clear_then_append _ _ _ _ _ _ comma 2 B Hn Hroom).
Defined.

(** ** Accounting *)

(** X7.  [gb_string_allocation_size] reports [header_size + capacity],
    which is one byte less than the size of the block that holds the
    buffer: the terminator is not counted. *)
Theorem allocation_size_spec σ s len cap payload slack :
  is_buffer σ s len cap payload slack ->
  exists blk,
    gb_string_allocation_size s σ = Some (header_size + cap, σ)
    /\ heap σ !! p_blk s = Some blk
    /\ Z.of_nat (length blk) = header_size + cap + 1.
Proof.
  intros B. pose proof (is_buffer_bounds _ _ _ _ _ _ B) as Hb.
  pose proof B as [Hoff Hblk Hlen Hcap Hfit].
  eexists. split; [|split; [exact Hblk|]].
  - unfold gb_string_allocation_size.
    step (gb_string_capacity_buffer _ _ _ _ _ _ B).
    unfold ret. rewrite wrap_small by (sizes; lia). reflexivity.
  - rewrite length_raw_region. lia.
Qed.

Lemma allocation_size_spec_witness :
  is_buffer hello_state str1 5 5 hello []
  /\ exists blk,
      gb_string_allocation_size str1 hello_state
      = Some (header_size + 5, hello_state)
      /\ heap hello_state !! p_blk str1 = Some blk
      /\ Z.of_nat (length blk) = header_size + 5 + 1.
Proof.
  assert (B : is_buffer hello_state str1 5 5 hello []) by concrete_buffer.
  split; [exact B|].
  exact (allocation_size_spec _ _ _ _ _ _ B).
Defined.

(** ** Construction and release *)

Lemma make_result σ init len s σ' :
  0 <= len -> header_size + len + 1 < usize_modulus ->
  gb_make_string_length init len σ = Some (Some s, σ') ->
  s = Ptr (next_block σ) header_size
  /\ σ' = fresh_buf σ (next_block σ) len len
            (region (initial_payload init len) []).
Proof.
  intros Hlen Hfit Hrun.
  destruct (next_alloc_fails σ) eqn:Ha.
  { rewrite (gb_make_string_length_fail _ _ _ Ha) in Hrun.
    destruct init; discriminate. }
  assert (Hsrc : match init with
                 | Some b => len <= Z.of_nat (length b)
                 | None => True
                 end).
  { destruct init as [b|]; [|exact I].
    destruct (Z_le_gt_dec len (Z.of_nat (length b))) as [Hle|Hgt]; [exact Hle|].
    rewrite gb_make_string_length_unreadable in Hrun by (assumption || lia).
    discriminate. }
  rewrite (gb_make_string_length_ok _ _ _ Hlen Hfit Ha Hsrc) in Hrun.
  inversion Hrun. split; reflexivity.
Qed.

Lemma cstr_bytes_no_zero (cstr : list byte) :
  Forall (fun c => c <> x00) (cstr_bytes cstr).
Proof.
  unfold cstr_bytes. induction cstr as [|c cstr IH]; simpl; [constructor|].
  destruct (decide (c = x00)) as [E|E]; [constructor|].
  pose proof (strlen_range cstr) as R.
  replace (Z.to_nat (1 + strlen cstr)) with (S (Z.to_nat (strlen cstr))) by lia.
  simpl. constructor; assumption.
Qed.

(** X8.  When the allocator refuses, construction from a source returns null
    and leaves the heap as it was; construction without a source hands the
    null pointer to [memset] before it is tested, which is undefined, and so
    is [gb_make_string(NULL)]. *)
Theorem make_allocation_failure σ len :
  next_alloc_fails σ = true ->
  (forall b, gb_make_string_length (Some b) len σ
             = Some (None, State (heap σ) (tail (alloc_script σ))))
  /\ gb_make_string_length None len σ = None
  /\ gb_make_string None σ = None.
Proof.
  intros Hfail. split; [|split].
  - intros b. exact (gb_make_string_length_fail σ (Some b) len Hfail).
  - exact (gb_make_string_length_fail σ None len Hfail).
  - exact (gb_make_string_length_fail σ None 0 Hfail).
Qed.

Lemma make_allocation_failure_witness :
  next_alloc_fails (starved state0) = true
  /\ (forall b, gb_make_string_length (Some b) 5 (starved state0)
                = Some (None, State (heap (starved state0))
                                (tail (alloc_script (starved state0)))))
  /\ gb_make_string_length None 5 (starved state0) = None
  /\ gb_make_string None (starved state0) = None.
Proof.
  split; [reflexivity|].
  apply (make_allocation_failure (starved state0) 5). reflexivity.
Defined.

(** X9.  [gb_make_string] of a C string makes a buffer whose payload is the
    bytes before the first zero byte, so the payload holds no zero byte,
    with length and capacity both [strlen]; of the null pointer it makes an
    empty buffer of capacity 0. *)
Theorem make_string_spec σ cstr :
  next_alloc_fails σ = false ->
  header_size + strlen cstr + 1 < usize_modulus ->
  exists s σ1 σ2,
    gb_make_string (Some cstr) σ = Some (Some s, σ1)
    /\ is_buffer σ1 s (strlen cstr) (strlen cstr) (cstr_bytes cstr) []
    /\ Forall (fun c => c <> x00) (cstr_bytes cstr)
    /\ gb_make_string None σ = Some (Some s, σ2)
    /\ is_buffer σ2 s 0 0 [] [].
Proof.
  intros Hok Hfit. pose proof (strlen_range cstr) as R.
  exists (Ptr (next_block σ) header_size).
  eexists. eexists. split; [|split; [|split; [|split]]].
  - unfold gb_make_string.
    apply gb_make_string_length_ok; [lia|exact Hfit|exact Hok|lia].
  - apply is_buffer_fresh_buf; [|simpl; lia|exact Hfit].
    apply (length_initial_payload (Some cstr)); lia.
  - apply cstr_bytes_no_zero.
  - unfold gb_make_string.
    apply gb_make_string_length_ok; [lia|sizes; lia|exact Hok|exact I].
  - apply is_buffer_fresh_buf; [reflexivity|reflexivity|sizes; lia].
Qed.

Lemma make_string_spec_witness :
  (next_alloc_fails state0 = false
   /\ header_size + strlen potato_soup + 1 < usize_modulus)
  /\ exists s σ1 σ2,
      gb_make_string (Some potato_soup) state0 = Some (Some s, σ1)
      /\ is_buffer σ1 s (strlen potato_soup) (strlen potato_soup)
           (cstr_bytes potato_soup) []
      /\ Forall (fun c => c <> x00) (cstr_bytes potato_soup)
      /\ gb_make_string None state0 = Some (Some s, σ2)
      /\ is_buffer σ2 s 0 0 [] [].
Proof.
  assert (H : next_alloc_fails state0 = false
              /\ header_size + strlen potato_soup + 1 < usize_modulus).
  { split; by_evaluation. }
  split; [exact H|].
  destruct H as [Hok Hfit].
  exact (make_string_spec state0 potato_soup Hok Hfit).
Defined.

(** X10.  [gb_free_string] on a buffer releases exactly the block of the
    buffer: every other block is as it was and no request reaches the
    allocator.  Afterwards the handle dangles: asking its length, and
    releasing it a second time, are undefined. *)
Theorem free_string_spec σ s len cap payload slack :
  is_buffer σ s len cap payload slack ->
  exists σ',
    gb_free_string (Some s) σ = Some (tt, σ')
    /\ heap σ' = delete (p_blk s) (heap σ)
    /\ alloc_script σ' = alloc_script σ
    /\ (forall id, id <> p_blk s -> heap σ' !! id = heap σ !! id)
    /\ gb_string_length s σ' = None
    /\ gb_free_string (Some s) σ' = None.
Proof.
  intros [Hoff Hblk Hlen Hcap Hfit].
  eexists. split; [|split; [|split; [|split; [|split]]]].
  - unfold gb_free_string, GB_FREE.
    apply (free_block (s +ₚ (- header_size)) σ _ Hblk).
    cbn [p_off ptr_add]. lia.
  - reflexivity.
  - reflexivity.
  - intros id Hne. cbn [heap ptr_add p_blk]. apply lookup_delete_ne.
    exact (not_eq_sym Hne).
  - unfold gb_string_length, load_usize, load_bytes, load_cells, bind.
    cbn [heap ptr_add p_blk GB_STRING_HEADER field_len].
    rewrite lookup_delete_eq. reflexivity.
  - unfold gb_free_string, GB_FREE, free.
    cbn [heap ptr_add p_blk]. rewrite lookup_delete_eq. reflexivity.
Qed.

Lemma free_string_spec_witness :
  is_buffer hello_state str1 5 5 hello []
  /\ exists σ',
      gb_free_string (Some str1) hello_state = Some (tt, σ')
      /\ heap σ' = delete (p_blk str1) (heap hello_state)
      /\ alloc_script σ' = alloc_script hello_state
      /\ (forall id, id <> p_blk str1 -> heap σ' !! id = heap hello_state !! id)
      /\ gb_string_length str1 σ' = None
      /\ gb_free_string (Some str1) σ' = None.
Proof.
  assert (B : is_buffer hello_state str1 5 5 hello []) by concrete_buffer.
  split; [exact B|].
  exact (free_string_spec _ _ _ _ _ _ B).
Defined.

(** X11.  Construction followed by release gives the heap back: whatever
    [gb_make_string_length] returned, releasing it leaves the heap exactly
    as it was before the construction. *)
Theorem make_then_free σ init len s σ' :
  0 <= len -> header_size + len + 1 < usize_modulus ->
  gb_make_string_length init len σ = Some (Some s, σ') ->
  exists σ'',
    gb_free_string (Some s) σ' = Some (tt, σ'') /\ heap σ'' = heap σ.
Proof.
  intros Hlen Hfit Hrun.
  destruct (make_result _ _ _ _ _ Hlen Hfit Hrun) as [-> ->].
  eexists. split.
  - unfold gb_free_string, GB_FREE.
    eapply (free_block (Ptr (next_block σ) header_size +ₚ (- header_size)));
      [apply lookup_insert_eq|cbn [p_off ptr_add]; lia].
  - cbn [heap fresh_buf ptr_add p_blk].
    apply delete_insert_id. apply next_block_fresh.
Qed.

Lemma make_then_free_witness :
  (0 <= 5 /\ header_size + 5 + 1 < usize_modulus
   /\ gb_make_string_length (Some hello) 5 state0 = Some (Some str1, hello_state))
  /\ exists σ'',
      gb_free_string (Some str1) hello_state = Some (tt, σ'')
      /\ heap σ'' = heap state0.
Proof.
  assert (H : 0 <= 5 /\ header_size + 5 + 1 < usize_modulus
              /\ gb_make_string_length (Some hello) 5 state0
                 = Some (Some str1, hello_state)).
  { split; [|split]; by_evaluation. }
  split; [exact H|].
  destruct H as (Hlen & Hfit & Hrun).
  exact (make_then_free state0 (Some hello) 5 str1 hello_state Hlen Hfit Hrun).
Defined.

(** ** Several buffers *)

(** Where a completed operation leaves the heap: the block rewritten in
    place, or a new block in the place of the old one. *)
Lemma run_op_result σ s len cap payload slack o s' σ' :
  is_buffer σ s len cap payload slack -> op_in_range len o ->
  run_op o s σ = Some (Some s', σ') ->
  exists blk,
    (grows len cap o = false /\ s' = s
     /\ heap σ' = <[p_blk s := blk]> (heap σ))
    \/ (grows len cap o = true /\ s' = Ptr (next_block σ) header_size
        /\ heap σ' = <[next_block σ := blk]> (delete (p_blk s) (heap σ))).
Proof.
  intros B Hr Hrun.
  destruct (op_readable_dec o) as [Hsrc|Hsrc];
    [|exfalso; exact (run_op_unreadable _ _ _ _ _ _ _ _ _ B Hr Hsrc Hrun)].
  destruct (grows len cap o) eqn:Hg.
  - destruct (next_alloc_fails σ) eqn:Ha.
    { rewrite (run_op_fail _ _ _ _ _ _ _ B Hr Hg Ha) in Hrun. discriminate. }
    destruct (run_op_grow _ _ _ _ _ _ _ B Hr Hsrc Hg Ha)
      as (len' & cap' & payload' & slack' & Hrun' & _).
    rewrite Hrun' in Hrun. inversion Hrun.
    eexists. right. split; [reflexivity|]. split; reflexivity.
  - destruct (run_op_in_place _ _ _ _ _ _ _ B Hr Hsrc Hg)
      as (len' & payload' & slack' & Hrun' & _).
    rewrite Hrun' in Hrun. inversion Hrun.
    eexists. left. split; [reflexivity|]. split; reflexivity.
Qed.

(** X12.  An operation on one buffer never touches another: after any
    completed clear, append, assign, reserve or trim of [s], every other
    buffer [t] of the heap is the buffer it was, and the handle returned
    does not point into the block of [t]. *)
Theorem other_buffers_untouched σ s len cap payload slack o s' σ'
    t len_t cap_t payload_t slack_t :
  is_buffer σ s len cap payload slack -> op_in_range len o ->
  run_op o s σ = Some (Some s', σ') ->
  is_buffer σ t len_t cap_t payload_t slack_t -> p_blk t <> p_blk s ->
  is_buffer σ' t len_t cap_t payload_t slack_t /\ p_blk s' <> p_blk t.
Proof.
  intros B Hr Hrun [Hoff Hblk Hlen Hcap Hfit] Hne.
  destruct (run_op_result _ _ _ _ _ _ _ _ _ B Hr Hrun)
    as (blk & [(_ & -> & Hh)|(_ & -> & Hh)]).
  - split; [|exact (not_eq_sym Hne)].
    split; try assumption.
    rewrite Hh, lookup_insert_ne by exact (not_eq_sym Hne). exact Hblk.
  - pose proof (next_block_ne _ _ _ Hblk) as Hnew.
    split; [|exact Hnew].
    split; try assumption.
    rewrite Hh, lookup_insert_ne by exact Hnew.
    rewrite lookup_delete_ne by exact (not_eq_sym Hne). exact Hblk.
Qed.

Lemma other_buffers_untouched_witness :
  (is_buffer two_strings_state str1 5 5 hello []
   /\ op_in_range 5 (OpAppend world 6)
   /\ run_op (OpAppend world 6) str1 two_strings_state
      = Some (Some str3, joined_state)
   /\ is_buffer two_strings_state str2 6 6 world []
   /\ p_blk str2 <> p_blk str1)
  /\ is_buffer joined_state str2 6 6 world [] /\ p_blk str3 <> p_blk str2.
Proof.
  assert (H : is_buffer two_strings_state str1 5 5 hello []
              /\ op_in_range 5 (OpAppend world 6)
              /\ run_op (OpAppend world 6) str1 two_strings_state
                 = Some (Some str3, joined_state)
              /\ is_buffer two_strings_state str2 6 6 world []
              /\ p_blk str2 <> p_blk str1).
  { split; [concrete_buffer|]. split; [split; by_evaluation|].
    split; [by_evaluation|]. split; [concrete_buffer|by_evaluation]. }
  split; [exact H|].
  destruct H as (B & Hr & Hrun & Bt & Hne).
  exact (other_buffers_untouched _ _ _ _ _ _ _ _ _ _ _ _ _ _ B Hr Hrun Bt Hne).
Defined.

(** X13.  After an operation that had to reallocate, the handle passed in
    dangles: the handle returned is another one, the old block is no longer
    in the heap, and asking the old handle for its length, or releasing
    it, is undefined. *)
Theorem stale_handle_after_growth σ s len cap payload slack o s' σ' :
  is_buffer σ s len cap payload slack -> op_in_range len o ->
  run_op o s σ = Some (Some s', σ') ->
  grows len cap o = true ->
  s' <> s
  /\ heap σ' !! p_blk s = None
  /\ gb_string_length s σ' = None
  /\ gb_free_string (Some s) σ' = None.
Proof.
  intros B Hr Hrun Hg. pose proof B as [Hoff Hblk Hlen Hcap Hfit].
  destruct (run_op_result _ _ _ _ _ _ _ _ _ B Hr Hrun)
    as (blk & [(Hg' & _)|(_ & -> & Hh)]); [congruence|].
  pose proof (next_block_ne _ _ _ Hblk) as Hnew.
  assert (Hgone : heap σ' !! p_blk s = None).
  { rewrite Hh, lookup_insert_ne by exact Hnew. apply lookup_delete_eq. }
  split; [|split; [exact Hgone|split]].
  - intros E. apply Hnew. rewrite <- E. reflexivity.
  - unfold gb_string_length, load_usize, load_bytes, load_cells, bind.
    cbn [ptr_add p_blk GB_STRING_HEADER field_len].
    rewrite Hgone. reflexivity.
  - unfold gb_free_string, GB_FREE, free.
    cbn [ptr_add p_blk]. rewrite Hgone. reflexivity.
Qed.

Lemma stale_handle_after_growth_witness :
  (is_buffer hello_state str1 5 5 hello []
   /\ op_in_range 5 (OpAppend comma 2)
   /\ run_op (OpAppend comma 2) str1 hello_state
      = Some (Some str2, appended_state)
   /\ grows 5 5 (OpAppend comma 2) = true)
  /\ str2 <> str1
  /\ heap appended_state !! p_blk str1 = None
  /\ gb_string_length str1 appended_state = None
  /\ gb_free_string (Some str1) appended_state = None.
Proof.
  assert (H : is_buffer hello_state str1 5 5 hello []
              /\ op_in_range 5 (OpAppend comma 2)
              /\ run_op (OpAppend comma 2) str1 hello_state
                 = Some (Some str2, appended_state)
              /\ grows 5 5 (OpAppend comma 2) = true).
  { split; [concrete_buffer|]. split; [split; by_evaluation|].
    split; by_evaluation. }
  split; [exact H|].
  destruct H as (B & Hr & Hrun & Hg).
  exact (stale_handle_after_growth _ _ _ _ _ _ _ _ _ B Hr Hrun Hg).
Defined.

(** ** Comparison *)

Lemma strings_are_equal_loop_run σ l r len len_r cap_l cap_r pl pr sl sr
    (suf_l suf_r pre_l pre_r : list byte) (fuel : nat) :
  p_off l = header_size ->
  heap σ !! p_blk l = Some (raw_block len cap_l (region pl sl)) ->
  p_off r = header_size ->
  heap σ !! p_blk r = Some (raw_block len_r cap_r (region pr sr)) ->
  pl = pre_l ++ suf_l -> pr = pre_r ++ suf_r ->
  length pre_l = length pre_r -> length suf_l = length suf_r ->
  Z.of_nat (length pl) = len -> len < usize_modulus ->
  (length suf_l < fuel)%nat ->
  strings_are_equal_loop fuel l r (Z.of_nat (length pre_l)) len σ
  = Some (if bool_decide (suf_l = suf_r) then GB_TRUE else GB_FALSE, σ).
Proof.
  intros Hoff_l Hblk_l Hoff_r Hblk_r.
  revert suf_r pre_l pre_r fuel.
  induction suf_l as [|a suf_l IH];
    intros [|b suf_r] pre_l pre_r fuel Hl Hr Hpre Hsuf Hlen Hfit Hfuel;
    try discriminate Hsuf;
    (destruct fuel as [|fuel]; [simpl in Hfuel; lia|]);
    cbn [strings_are_equal_loop].
  - rewrite app_nil_r in Hl. subst pl.
    rewrite bool_decide_eq_false_2 by lia. reflexivity.
  - assert (Hi : Z.of_nat (length pre_l) < len).
    { rewrite <- Hlen, Hl, length_app. simpl. lia. }
    rewrite bool_decide_eq_true_2 by exact Hi.
    erewrite bind_step; cycle 1.
    { eapply (load_char_data _ l _ _ _ Hoff_l Hblk_l _ (Z.of_nat (length pre_l)));
        [reflexivity|cbn [p_off ptr_add]; lia|lia|].
      rewrite Hl. apply region_char_at. reflexivity. }
    erewrite bind_step; cycle 1.
    { eapply (load_char_data _ r _ _ _ Hoff_r Hblk_r _ (Z.of_nat (length pre_l)));
        [reflexivity|cbn [p_off ptr_add]; lia|lia|].
      rewrite Hr. apply region_char_at. rewrite Hpre. reflexivity. }
    destruct (decide (a = b)) as [<-|Hab].
    + rewrite (bool_decide_eq_false_2 (a <> a)) by (intros H; apply H; reflexivity).
      rewrite wrap_small by lia.
      replace (Z.of_nat (length pre_l) + 1)
        with (Z.of_nat (length (pre_l ++ [a])))
        by (rewrite length_app; simpl; lia).
      rewrite (IH suf_r (pre_l ++ [a]) (pre_r ++ [a]) fuel).
      * rewrite (bool_decide_ext (suf_l = suf_r) (a :: suf_l = a :: suf_r))
          by (split; congruence).
        reflexivity.
      * rewrite Hl, <- app_assoc. reflexivity.
      * rewrite Hr, <- app_assoc. reflexivity.
      * rewrite !length_app, Hpre. reflexivity.
      * simpl in Hsuf. lia.
      * exact Hlen.
      * exact Hfit.
      * simpl in Hfuel. lia.
    + rewrite (bool_decide_eq_true_2 (a <> b)) by exact Hab.
      rewrite (bool_decide_eq_false_2 (a :: suf_l = b :: suf_r)) by congruence.
      reflexivity.
Qed.

Lemma gb_strings_are_equal_buffers σ l r len_l cap_l pl sl len_r cap_r pr sr :
  is_buffer σ l len_l cap_l pl sl ->
  is_buffer σ r len_r cap_r pr sr ->
  gb_strings_are_equal l r σ
  = Some (if bool_decide (pl = pr) then GB_TRUE else GB_FALSE, σ).
Proof.
  intros Bl Br. pose proof (is_buffer_bounds _ _ _ _ _ _ Bl) as Hbl.
  unfold gb_strings_are_equal.
  step (gb_string_length_buffer _ _ _ _ _ _ Bl).
  step (gb_string_length_buffer _ _ _ _ _ _ Br).
  destruct Bl as [Hoff_l Hblk_l Hlen_l _ _].
  destruct Br as [Hoff_r Hblk_r Hlen_r _ _].
  case_bool_decide as Hne.
  - rewrite bool_decide_eq_false_2; [reflexivity|].
    intros E. apply Hne. rewrite <- Hlen_l, <- Hlen_r, E. reflexivity.
  - assert (Heq : len_l = len_r) by lia.
    apply (strings_are_equal_loop_run σ l r len_l len_r cap_l cap_r pl pr
             sl sr pl pr [] []); try assumption; try reflexivity.
    + apply Nat2Z.inj. lia.
    + sizes. lia.
    + lia.
Qed.

(** X14.  [gb_strings_are_equal] decides equality of the payloads: it
    returns [GB_TRUE] when the two buffers hold the same bytes, zero bytes
    included, and [GB_FALSE] otherwise, whatever their capacities; it
    changes nothing, and the order of its arguments does not matter. *)
Theorem strings_are_equal_spec σ l r len_l cap_l pl sl len_r cap_r pr sr :
  is_buffer σ l len_l cap_l pl sl ->
  is_buffer σ r len_r cap_r pr sr ->
  gb_strings_are_equal l r σ
  = Some (if bool_decide (pl = pr) then GB_TRUE else GB_FALSE, σ)
  /\ gb_strings_are_equal r l σ = gb_strings_are_equal l r σ.
Proof.
  intros Bl Br.
  rewrite (gb_strings_are_equal_buffers _ _ _ _ _ _ _ _ _ _ _ Bl Br).
  rewrite (gb_strings_are_equal_buffers _ _ _ _ _ _ _ _ _ _ _ Br Bl).
  rewrite (bool_decide_ext (pr = pl) (pl = pr)) by (split; congruence).
  split; reflexivity.
Qed.

Lemma strings_are_equal_spec_witness :
  (is_buffer duplicated_state str1 5 5 hello []
   /\ is_buffer duplicated_state str2 5 5 hello [])
  /\ gb_strings_are_equal str1 str2 duplicated_state
     = Some (if bool_decide (hello = hello) then GB_TRUE else GB_FALSE,
             duplicated_state)
  /\ gb_strings_are_equal str2 str1 duplicated_state
     = gb_strings_are_equal str1 str2 duplicated_state.
Proof.
  assert (H : is_buffer duplicated_state str1 5 5 hello []
              /\ is_buffer duplicated_state str2 5 5 hello []).
  { split; concrete_buffer. }
  split; [exact H|].
  destruct H as [Bl Br].
  exact (strings_are_equal_spec _ _ _ _ _ _ _ _ _ _ _ Bl Br).
Defined.

(** ** Sources in the heap *)

Lemma bind_cong {A B} (m1 m2 : M A) (k : A -> M B) (σ : state) :
  m1 σ = m2 σ -> bind m1 k σ = bind m2 k σ.
Proof. intros H. unfold bind. rewrite H. reflexivity. Qed.



(** A copy out of the heap is the copy of the bytes found there. *)
Lemma memcpy_as_memcpy_from (dst src : pointer) (n : Z) (σ : state)
    (b : block) (bs : list byte) :
  heap σ !! p_blk src = Some b ->
  blk_read b (p_off src) n = Some (cells_of_bytes bs) ->
  Z.of_nat (length bs) = n ->
  memcpy dst src n σ = memcpy_from dst bs n σ.
Proof.
  intros Hb Hr Hn. unfold memcpy, memcpy_from.
  step (load_cells_block _ _ _ _ _ Hb Hr).
  rewrite bool_decide_eq_true_2 by lia.
  rewrite take_ge by lia. reflexivity.
Qed.

(** The first [n] bytes of the payload, read from the block. *)
Lemma payload_read (len cap n : Z) (payload : list byte) (slack : list cell) :
  0 <= n <= Z.of_nat (length payload) ->
  blk_read (raw_block len cap (region payload slack)) header_size n
  = Some (cells_of_bytes (take (Z.to_nat n) payload)).
Proof.
  intros Hn. unfold raw_block. rewrite app_assoc.
  rewrite (blk_read_skip _ _ _ 0); cycle 1.
  { rewrite length_app, Nat2Z.inj_add, !length_header_word. sizes. lia. }
  { lia. }
  rewrite blk_read_at by (rewrite ?length_region; lia).
  change (Z.to_nat 0) with 0%nat. rewrite drop_0. unfold region.
  rewrite take_app_le by (rewrite length_cells_of_bytes; lia).
  rewrite cells_of_bytes_take. reflexivity.
Qed.

Lemma gb_make_string_length_at_eq σ src len b bs :
  heap σ !! p_blk src = Some b ->
  blk_read b (p_off src) len = Some (cells_of_bytes bs) ->
  Z.of_nat (length bs) = len ->
  header_size + len + 1 < usize_modulus ->
  gb_make_string_length_at (Some src) len σ
  = gb_make_string_length (Some bs) len σ.
Proof.
  intros Hb Hr Hlen Hfit.
  unfold gb_make_string_length_at, gb_make_string_length, GB_ALLOC.
  destruct (next_alloc_fails σ) eqn:Ha.
  { rewrite !(bind_step _ _ _ _ _ (malloc_fails _ _ Ha)). reflexivity. }
  rewrite wrap_small by (sizes; lia).
  rewrite !(bind_step _ _ _ _ _ (malloc_ok _ _ Ha)).
  set (id := next_block σ).
  replace (header_size + len + 1)
    with (header_size + Z.of_nat (S (Z.to_nat len))) by lia.
  rewrite !bind_ret, fresh_block_header.
  rewrite <- !(bind_assoc (store_usize _ _)).
  assert (Hhdr : forall A (k : unit -> M A) σ0,
    σ0 = State (<[id := replicate (Z.to_nat word_size) None
                     ++ replicate (Z.to_nat word_size) None
                     ++ replicate (S (Z.to_nat len)) None]> (heap σ))
               (tail (alloc_script σ)) ->
    bind (store_usize (field_len (GB_STRING_HEADER (Ptr id 0 +ₚ header_size)))
            len;;
          store_usize (field_cap (GB_STRING_HEADER (Ptr id 0 +ₚ header_size)))
            len) k σ0
    = k tt (State (<[id := raw_block len len
                             (replicate (S (Z.to_nat len)) None)]> (heap σ))
                  (tail (alloc_script σ)))).
  { intros A k σ0 ->. erewrite bind_step; cycle 1.
    { eapply (write_header _ id); [apply lookup_insert_eq| |];
        rewrite length_replicate; reflexivity. }
    cbn [heap alloc_script]. rewrite insert_insert_eq. reflexivity. }
  rewrite !Hhdr by reflexivity.
  case_bool_decide as Hz; [|reflexivity].
  apply bind_cong. eapply memcpy_as_memcpy_from; [|exact Hr|exact Hlen].
  cbn [heap]. rewrite lookup_insert_ne by exact (next_block_ne _ _ _ Hb).
  exact Hb.
Qed.

Lemma gb_duplicate_string_run σ s len cap payload slack :
  is_buffer σ s len cap payload slack ->
  gb_duplicate_string s σ = gb_make_string_length (Some payload) len σ.
Proof.
  intros B. pose proof (is_buffer_bounds _ _ _ _ _ _ B) as Hb.
  pose proof B as [Hoff Hblk Hlen Hcap Hfit].
  unfold gb_duplicate_string.
  step (gb_string_length_buffer _ _ _ _ _ _ B).
  eapply gb_make_string_length_at_eq; [exact Hblk| |exact Hlen|lia].
  rewrite Hoff, payload_read by lia.
  rewrite take_ge by lia. reflexivity.
Qed.

(** X15.  [gb_duplicate_string] makes an independent copy: a new block with
    the same payload and with capacity equal to the length (the slack of
    the original is not carried over), while the original stays the buffer
    it was.  When the allocator refuses, the result is null and the heap is
    unchanged. *)
Theorem duplicate_spec σ s len cap payload slack :
  is_buffer σ s len cap payload slack ->
  exists σ',
    gb_duplicate_string s σ
    = Some (if next_alloc_fails σ then None
            else Some (Ptr (next_block σ) header_size), σ')
    /\ is_buffer σ' s len cap payload slack
    /\ (next_alloc_fails σ = true -> heap σ' = heap σ)
    /\ (next_alloc_fails σ = false ->
        is_buffer σ' (Ptr (next_block σ) header_size) len len payload []
        /\ next_block σ <> p_blk s).
Proof.
  intros B. pose proof (is_buffer_bounds _ _ _ _ _ _ B) as Hb.
  pose proof B as [Hoff Hblk Hlen Hcap Hfit].
  rewrite (gb_duplicate_string_run _ _ _ _ _ _ B).
  destruct (next_alloc_fails σ) eqn:Ha.
  - rewrite (gb_make_string_length_fail _ _ _ Ha).
    eexists. split; [reflexivity|]. split; [|split; [reflexivity|discriminate]].
    split; assumption.
  - rewrite gb_make_string_length_ok by (assumption || lia).
    pose proof (next_block_ne _ _ _ Hblk) as Hnew.
    eexists. split; [reflexivity|]. split; [|split; [discriminate|]].
    + split; try assumption. unfold fresh_buf. cbn [heap].
      rewrite lookup_insert_ne by exact Hnew. exact Hblk.
    + intros _. split; [|exact Hnew].
      replace (initial_payload (Some payload) len) with payload
        by (unfold initial_payload; rewrite take_ge by lia; reflexivity).
      apply is_buffer_fresh_buf; [exact Hlen|simpl; lia|lia].
Qed.

Lemma duplicate_spec_witness :
  is_buffer reserved_state str2 5 13 hello (replicate 8 None)
  /\ exists σ',
      gb_duplicate_string str2 reserved_state
      = Some (if next_alloc_fails reserved_state then None
              else Some (Ptr (next_block reserved_state) header_size), σ')
      /\ is_buffer σ' str2 5 13 hello (replicate 8 None)
      /\ (next_alloc_fails reserved_state = true ->
          heap σ' = heap reserved_state)
      /\ (next_alloc_fails reserved_state = false ->
          is_buffer σ' (Ptr (next_block reserved_state) header_size) 5 5
            hello []
          /\ next_block reserved_state <> p_blk str2).
Proof.
  assert (B : is_buffer reserved_state str2 5 13 hello (replicate 8 None))
    by concrete_buffer.
  split; [exact B|].
  exact (duplicate_spec _ _ _ _ _ _ B).
Defined.

(** Appending out of the heap is appending the bytes found there, as long
    as the block they are in outlives the reservation: it is another block,
    or the reservation works in place. *)
Lemma gb_append_string_length_at_eq σ s len cap payload slack o b bs n :
  is_buffer σ s len cap payload slack ->
  heap σ !! p_blk o = Some b ->
  blk_read b (p_off o) n = Some (cells_of_bytes bs) ->
  Z.of_nat (length bs) = n ->
  header_size + len + n + 1 < usize_modulus ->
  p_blk o <> p_blk s \/ n <= cap - len ->
  gb_append_string_length_at s o n σ = gb_append_string_length s bs n σ.
Proof.
  intros B Hb Hr Hn Hfit Hlive.
  unfold gb_append_string_length_at, gb_append_string_length.
  rewrite !(bind_step _ _ _ _ _ (gb_string_length_buffer _ _ _ _ _ _ B)).
  destruct (Z_le_gt_dec n (cap - len)) as [Hroom|Hroom].
  - rewrite !(bind_step _ _ _ _ _
                (gb_string_make_space_for_fit _ _ _ _ _ _ _ B Hroom)).
    apply bind_cong. eapply memcpy_as_memcpy_from; eassumption.
  - assert (Hroom' : cap - len < n) by lia.
    destruct Hlive as [Hne|Hle]; [|lia].
    destruct (next_alloc_fails σ) eqn:Ha.
    + rewrite !(bind_step _ _ _ _ _
                  (gb_string_make_space_for_fail _ _ _ _ _ _ _ B Hroom' Hfit Ha)).
      reflexivity.
    + rewrite !(bind_step _ _ _ _ _
                  (gb_string_make_space_for_grow _ _ _ _ _ _ _ B Hroom' Hfit Ha)).
      apply bind_cong. eapply memcpy_as_memcpy_from; [|exact Hr|exact Hn].
      unfold moved_buf. cbn [heap].
      rewrite lookup_insert_ne by exact (next_block_ne _ _ _ Hb).
      rewrite lookup_delete_ne by exact (not_eq_sym Hne). exact Hb.
Qed.

(** X16.  [gb_append_string] of one buffer to another: the result holds the
    payload of the first followed by the whole payload of the second, zero
    bytes included, and the second buffer is left as it was, wherever the
    first one ends up. *)
Theorem append_string_spec σ s len cap payload slack o len_o cap_o payload_o
    slack_o s' σ' :
  is_buffer σ s len cap payload slack ->
  is_buffer σ o len_o cap_o payload_o slack_o ->
  p_blk o <> p_blk s ->
  header_size + len + len_o + 1 < usize_modulus ->
  gb_append_string s o σ = Some (Some s', σ') ->
  exists cap' slack',
    is_buffer σ' s' (len + len_o) cap' (payload ++ payload_o) slack'
    /\ is_buffer σ' o len_o cap_o payload_o slack_o
    /\ p_blk s' <> p_blk o.
Proof.
  intros B Bo Hne Hfit Hrun.
  pose proof (is_buffer_bounds _ _ _ _ _ _ Bo) as Hbo.
  pose proof Bo as [Hoff_o Hblk_o Hlen_o Hcap_o Hfit_o].
  assert (Hrun' : gb_append_string_length s payload_o len_o σ
                  = Some (Some s', σ')).
  { rewrite <- Hrun. unfold gb_append_string.
    step (gb_string_length_buffer _ _ _ _ _ _ Bo). symmetry.
    eapply gb_append_string_length_at_eq;
      [exact B|exact Hblk_o| |exact Hlen_o|exact Hfit|left; exact Hne].
    rewrite Hoff_o, payload_read by lia.
    rewrite take_ge by lia. reflexivity. }
  assert (Hn : 0 <= len_o <= Z.of_nat (length payload_o)) by lia.
  destruct (append_result _ _ _ _ _ _ _ _ _ _ B Hn Hfit Hrun')
    as (cap' & slack' & B' & _).
  rewrite take_ge in B' by lia.
  exists cap', slack'. split; [exact B'|].
  assert (Hr : op_in_range len (OpAppend payload_o len_o))
    by (cbn [op_in_range]; lia).
  destruct (run_op_result _ _ _ _ _ _ (OpAppend payload_o len_o) _ _ B Hr Hrun')
    as (blk & [(_ & -> & Hh)|(_ & -> & Hh)]).
  - split; [|exact (not_eq_sym Hne)].
    split; try assumption.
    rewrite Hh, lookup_insert_ne by exact (not_eq_sym Hne). exact Hblk_o.
  - pose proof (next_block_ne _ _ _ Hblk_o) as Hnew.
    split; [|exact Hnew].
    split; try assumption.
    rewrite Hh, lookup_insert_ne by exact Hnew.
    rewrite lookup_delete_ne by exact (not_eq_sym Hne). exact Hblk_o.
Qed.

Lemma append_string_spec_witness :
  (is_buffer two_strings_state str1 5 5 hello []
   /\ is_buffer two_strings_state str2 6 6 world []
   /\ p_blk str2 <> p_blk str1
   /\ header_size + 5 + 6 + 1 < usize_modulus
   /\ gb_append_string str1 str2 two_strings_state
      = Some (Some str3, joined_state))
  /\ exists cap' slack',
      is_buffer joined_state str3 (5 + 6) cap' (hello ++ world) slack'
      /\ is_buffer joined_state str2 6 6 world []
      /\ p_blk str3 <> p_blk str2.
Proof.
  assert (H : is_buffer two_strings_state str1 5 5 hello []
              /\ is_buffer two_strings_state str2 6 6 world []
              /\ p_blk str2 <> p_blk str1
              /\ header_size + 5 + 6 + 1 < usize_modulus
              /\ gb_append_string str1 str2 two_strings_state
                 = Some (Some str3, joined_state)).
  { split; [concrete_buffer|]. split; [concrete_buffer|].
    split; [|split]; by_evaluation. }
  split; [exact H|].
  destruct H as (B & Bo & Hne & Hfit & Hrun).
  exact (append_string_spec _ _ _ _ _ _ _ _ _ _ _ _ _ B Bo Hne Hfit Hrun).
Defined.



(** X18.  Duplicate, compare, release: the duplicate of a buffer compares
    equal to the original, and releasing the duplicate gives back the heap
    as it was before the duplication. *)
Theorem duplicate_round_trip σ s len cap payload slack :
  is_buffer σ s len cap payload slack ->
  next_alloc_fails σ = false ->
  exists d σ' σ'',
    gb_duplicate_string s σ = Some (Some d, σ')
    /\ gb_strings_are_equal s d σ' = Some (GB_TRUE, σ')
    /\ gb_free_string (Some d) σ' = Some (tt, σ'')
    /\ heap σ'' = heap σ.
Proof.
  intros B Ha. pose proof (is_buffer_bounds _ _ _ _ _ _ B) as Hb.
  pose proof B as [Hoff Hblk Hlen Hcap Hfit].
  pose proof (next_block_ne _ _ _ Hblk) as Hnew.
  set (d := Ptr (next_block σ) header_size).
  set (σ' := fresh_buf σ (next_block σ) len len (region payload [])).
  assert (Hrun : gb_duplicate_string s σ = Some (Some d, σ')).
  { rewrite (gb_duplicate_string_run _ _ _ _ _ _ B).
    rewrite gb_make_string_length_ok by (assumption || lia).
    unfold initial_payload. rewrite take_ge by lia. reflexivity. }
  assert (Bd : is_buffer σ' d len len payload []).
  { apply is_buffer_fresh_buf; [exact Hlen|simpl; lia|lia]. }
  assert (Bs : is_buffer σ' s len cap payload slack).
  { split; try assumption. unfold σ', fresh_buf. cbn [heap].
    rewrite lookup_insert_ne by exact Hnew. exact Hblk. }
  exists d, σ'. eexists. split; [exact Hrun|]. split; [|split].
  - rewrite (gb_strings_are_equal_buffers _ _ _ _ _ _ _ _ _ _ _ Bs Bd).
    rewrite bool_decide_eq_true_2 by reflexivity. reflexivity.
  - unfold gb_free_string, GB_FREE.
    eapply (free_block (d +ₚ (- header_size)));
      [apply lookup_insert_eq|cbn [p_off ptr_add d]; lia].
  - cbn [heap fresh_buf ptr_add p_blk d σ'].
    apply delete_insert_id. apply next_block_fresh.
Qed.

Lemma duplicate_round_trip_witness :
  (is_buffer hello_state str1 5 5 hello []
   /\ next_alloc_fails hello_state = false)
  /\ exists d σ' σ'',
      gb_duplicate_string str1 hello_state = Some (Some d, σ')
      /\ gb_strings_are_equal str1 d σ' = Some (GB_TRUE, σ')
      /\ gb_free_string (Some d) σ' = Some (tt, σ'')
      /\ heap σ'' = heap hello_state.
Proof.
  assert (H : is_buffer hello_state str1 5 5 hello []
              /\ next_alloc_fails hello_state = false).
  { split; [concrete_buffer|by_evaluation]. }
  split; [exact H|].
  destruct H as [B Ha].
  exact (duplicate_round_trip _ _ _ _ _ _ B Ha).
Defined.

(** ** The C++ namespace *)

Lemma strlen_cells_region (payload : list byte) (slack : list cell) :
  strlen_cells (region payload slack) = Some (strlen payload).
Proof.
  unfold region. induction payload as [|c payload IH].
  - cbn. destruct (decide (x00 = x00)) as [_|E]; [reflexivity|].
    contradiction E. reflexivity.
  - change (cells_of_bytes (c :: payload))
      with (Some c :: cells_of_bytes payload).
    cbn [app strlen_cells strlen].
    destruct (decide (c = x00)); [reflexivity|].
    rewrite IH. cbn. f_equal. lia.
Qed.

Lemma strlen_at_buffer σ s len cap payload slack :
  is_buffer σ s len cap payload slack ->
  strlen_at s σ = Some (strlen payload, σ).
Proof.
  intros [Hoff Hblk Hlen Hcap Hfit]. unfold strlen_at.
  rewrite Hblk, Hoff. rewrite bool_decide_eq_true_2 by (sizes; lia).
  unfold raw_block. rewrite app_assoc, drop_app_length'; cycle 1.
  { apply Nat2Z.inj.
    rewrite length_app, Nat2Z.inj_add, !length_header_word. sizes. lia. }
  rewrite strlen_cells_region. reflexivity.
Qed.

(** X19.  The C++ [gb::free_string] releases nothing.  It calls
    [gb_make_string] where [gb_free_string] is meant: the buffer passed in
    is still in the heap afterwards, a new block holding a copy of its
    payload up to the first zero byte has been allocated, and the only
    handle the caller is left with is null, so both blocks are lost. *)
Theorem cpp_free_string_releases_nothing σ s len cap payload slack :
  is_buffer σ s len cap payload slack ->
  exists σ',
    gb.free_string (Some s) σ = Some (None, σ')
    /\ is_buffer σ' s len cap payload slack
    /\ (next_alloc_fails σ = true -> heap σ' = heap σ)
    /\ (next_alloc_fails σ = false ->
        is_buffer σ' (Ptr (next_block σ) header_size)
          (strlen payload) (strlen payload) (cstr_bytes payload) []
        /\ next_block σ <> p_blk s).
Proof.
  intros B. pose proof (is_buffer_bounds _ _ _ _ _ _ B) as Hb.
  pose proof B as [Hoff Hblk Hlen Hcap Hfit].
  pose proof (strlen_range payload) as R.
  assert (Hrun : gb_make_string_at (Some s) σ
                 = gb_make_string_length (Some (cstr_bytes payload))
                     (strlen payload) σ).
  { unfold gb_make_string_at.
    step (strlen_at_buffer _ _ _ _ _ _ B).
    eapply gb_make_string_length_at_eq; [exact Hblk| | |lia].
    - rewrite Hoff, payload_read by lia. reflexivity.
    - apply length_cstr_bytes. }
  unfold gb.free_string. destruct (next_alloc_fails σ) eqn:Ha.
  - erewrite bind_step; cycle 1.
    { rewrite Hrun. apply (gb_make_string_length_fail _ (Some _) _ Ha). }
    eexists. split; [reflexivity|]. split; [|split; [reflexivity|discriminate]].
    split; assumption.
  - erewrite bind_step; cycle 1.
    { rewrite Hrun. apply gb_make_string_length_ok;
        [lia|lia|exact Ha|rewrite length_cstr_bytes; lia]. }
    pose proof (next_block_ne _ _ _ Hblk) as Hnew.
    eexists. split; [reflexivity|]. split; [|split; [discriminate|]].
    + split; try assumption. unfold fresh_buf. cbn [heap].
      rewrite lookup_insert_ne by exact Hnew. exact Hblk.
    + intros _. split; [|exact Hnew].
      replace (initial_payload (Some (cstr_bytes payload)) (strlen payload))
        with (cstr_bytes payload)
        by (pose proof (length_cstr_bytes payload); unfold initial_payload;
            rewrite take_ge by lia; reflexivity).
      apply is_buffer_fresh_buf; [apply length_cstr_bytes|simpl; lia|lia].
Qed.

Lemma cpp_free_string_releases_nothing_witness :
  is_buffer hello_state str1 5 5 hello []
  /\ exists σ',
      gb.free_string (Some str1) hello_state = Some (None, σ')
      /\ is_buffer σ' str1 5 5 hello []
      /\ (next_alloc_fails hello_state = true -> heap σ' = heap hello_state)
      /\ (next_alloc_fails hello_state = false ->
          is_buffer σ' (Ptr (next_block hello_state) header_size)
            (strlen hello) (strlen hello) (cstr_bytes hello) []
          /\ next_block hello_state <> p_blk str1).
Proof.
  assert (B : is_buffer hello_state str1 5 5 hello []) by concrete_buffer.
  split; [exact B|].
  exact (cpp_free_string_releases_nothing _ _ _ _ _ _ B).
Defined.

(** ** Room *)

(** X20.  After a successful reserve of [add] bytes,
    [gb_string_available_space] on the returned handle reports at least
    [add], and the length it reports is the one before the call. *)
Theorem reserve_makes_room σ s len cap payload slack add s' σ' :
  is_buffer σ s len cap payload slack ->
  0 <= add -> header_size + len + add + 1 < usize_modulus ->
  gb_string_make_space_for s add σ = Some (Some s', σ') ->
  exists room,
    gb_string_available_space s' σ' = Some (room, σ')
    /\ add <= room
    /\ gb_string_length s' σ' = Some (len, σ').
Proof.
  intros B Hadd Hfit Hrun.
  destruct (reserve_result _ _ _ _ _ _ _ _ _ B Hadd Hfit Hrun)
    as (cap1 & slack1 & B1 & Hroom & _).
  exists (cap1 - len). split; [|split; [lia|]].
  - exact (gb_string_available_space_buffer _ _ _ _ _ _ B1).
  - exact (gb_string_length_buffer _ _ _ _ _ _ B1).
Qed.

Lemma reserve_makes_room_witness :
  (is_buffer hello_state str1 5 5 hello []
   /\ 0 <= 8 /\ header_size + 5 + 8 + 1 < usize_modulus
   /\ gb_string_make_space_for str1 8 hello_state
      = Some (Some str2, reserved_state))
  /\ exists room,
      gb_string_available_space str2 reserved_state
      = Some (room, reserved_state)
      /\ 8 <= room
      /\ gb_string_length str2 reserved_state = Some (5, reserved_state).
Proof.
  assert (H : is_buffer hello_state str1 5 5 hello []
              /\ 0 <= 8 /\ header_size + 5 + 8 + 1 < usize_modulus
              /\ gb_string_make_space_for str1 8 hello_state
                 = Some (Some str2, reserved_state)).
  { split; [concrete_buffer|]. split; [|split]; by_evaluation. }
  split; [exact H|].
  destruct H as (B & Hadd & Hfit & Hrun).
  exact (reserve_makes_room _ _ _ _ _ _ _ _ _ B Hadd Hfit Hrun).
Defined.
